(** * imet-2020-fgvc7: label encoding, evaluation and the SE-ResNeXt backbone

    A shallow embedding of [app/preprocess.py] ([to_multi_hot], [evaluate],
    [kfold], the loaders), of [app/models.py] ([CSEModule], [ConvBR2d],
    [SENextBottleneck], [SEResNeXt] and the smaller modules) and of
    [app/train.py] ([Trainer.train]), followed by the properties of the
    specification that concern them.

    Conventions.
    - Python [int] is [Z]; [//] is [Z.div] (both round towards minus
      infinity) guarded by the [ZeroDivisionError] Python raises.
    - A raised exception is the [Raise] branch of [result]; a statement
      sequence is a chain of binds in that monad.
    - A one-dimensional numpy array is a [list]; its entries here are only
      ever the floats 0.0 and 1.0, written [0] and [1] in [Z].
    - A float64 score is the rational it denotes ([Q]); the one non-number
      that can arise, NaN, is kept apart in [npfloat].
    - What the libraries do (PyTorch's kernels, the reader of pandas, the
      data loaders) is a class method or a variable of a section; a call
      that can change state outside the program threads that state. *)

From Stdlib Require Import ZArith QArith Lia Ascii.
From stdpp Require Import base list gmap strings.

Open Scope Z_scope.

(** ** Exceptions and the error monad *)

Inductive exn : Type :=
  | ValueError
  | IndexError
  | ZeroDivisionError
  | RuntimeError
  | AttributeError
  | OverflowError.

Inductive result (A : Type) : Type :=
  | Ok (a : A)
  | Raise (e : exn).
Arguments Ok {A} a.
Arguments Raise {A} e.

#[global] Instance result_ret : MRet result := @Ok.
#[global] Instance result_bind : MBind result :=
  λ A B f m, match m with Ok a => f a | Raise e => Raise e end.
#[global] Instance result_fmap : FMap result :=
  λ A B f m, match m with Ok a => Ok (f a) | Raise e => Raise e end.

Definition raises {A} (m : result A) : Prop := ∃ e, m = Raise e.

(** [a // b] *)
Definition floordiv (a b : Z) : result Z :=
  if b =? 0 then Raise ZeroDivisionError else Ok (a / b).


(** [l[i]] on a Python list: a negative index counts from the end. *)
Definition getitem {A} (l : list A) (i : Z) : result A :=
  let n := Z.of_nat (length l) in
  let j := if i <? 0 then i + n else i in
  if (0 <=? j) && (j <? n)
  then match l !! Z.to_nat j with Some a => Ok a | None => Raise IndexError end
  else Raise IndexError.

(** ** app/preprocess.py *)

Module Preprocess.

(** [Annotation]: the dict [{"id": ..., "label_ids": [...]}] built by
    [get_annotations]; [label_ids] is the list of parsed integers. *)
Record Annotation : Type := { id : Z; label_ids : list Z }.
Definition Annotations : Type := list Annotation.

(** The label-space width, the default of [to_multi_hot]'s [size]. *)
Definition default_size : Z := 3474.

(** [np.zeros(size)]: numpy refuses a negative dimension. *)
Definition np_zeros (size : Z) : result (list Z) :=
  if size <? 0 then Raise ValueError else Ok (replicate (Z.to_nat size) 0).

(** [np.zeros((n, size))] *)
Definition np_zeros2 (n : nat) (size : Z) : result (list (list Z)) :=
  row ← np_zeros size; Ok (replicate n row).

(** [base[l] = v] on a numpy vector: an index in [-len, 0) addresses
    position [len + l]; outside [-len, len) numpy raises [IndexError],
    except that an index in [2^63, 2^64), which does not fit a C long, is
    an [OverflowError]. *)
Definition np_setitem (base : list Z) (l v : Z) : result (list Z) :=
  let n := Z.of_nat (length base) in
  if (0 <=? l) && (l <? n) then Ok (<[Z.to_nat l := v]> base)
  else if (- n <=? l) && (l <? 0) then Ok (<[Z.to_nat (l + n) := v]> base)
  else if (2 ^ 63 <=? l) && (l <? 2 ^ 64) then Raise OverflowError
  else Raise IndexError.

(** The inner loop of [to_multi_hot]:
    [for l in ano["label_ids"]: base[l] = 1]. *)
Fixpoint mark (base : list Z) (ls : list Z) : result (list Z) :=
  match ls with
  | [] => Ok base
  | l :: ls' => base' ← np_setitem base l 1; mark base' ls'
  end.

(** One iteration of the outer loop up to the row assignment:
    [base = np.zeros(size)] followed by the inner loop.  This is the
    per-record encoder. *)
Definition multi_hot_row (ls : list Z) (size : Z) : result (list Z) :=
  base ← np_zeros size; mark base ls.

(** The outer loop [for i, ano in enumerate(annotations)], threading
    [rows] and the counter [i]; [rows[i] = base] stores the row. *)
Fixpoint to_multi_hot_loop (size : Z) (rows : list (list Z)) (i : nat)
    (annotations : Annotations) : result (list (list Z)) :=
  match annotations with
  | [] => Ok rows
  | ano :: rest =>
      base ← multi_hot_row (label_ids ano) size;
      to_multi_hot_loop size (<[i := base]> rows) (S i) rest
  end.

Definition to_multi_hot (annotations : Annotations) (size : Z)
    : result (list (list Z)) :=
  rows ← np_zeros2 (length annotations) size;
  to_multi_hot_loop size rows 0 annotations.

(** The positions of a vector that hold 1, in increasing order. *)
Fixpoint ones_from (i : Z) (v : list Z) : list Z :=
  match v with
  | [] => []
  | b :: v' => if b =? 1 then i :: ones_from (i + 1) v' else ones_from (i + 1) v'
  end.
Definition ones (v : list Z) : list Z := ones_from 0 v.

(** *** The score *)

(** Number of positions where [y_true] holds [a] and [y_pred] holds [b]. *)
Fixpoint count_pairs (a b : Z) (y_true y_pred : list Z) : Z :=
  match y_true, y_pred with
  | t :: y_true', p :: y_pred' =>
      (if (t =? a) && (p =? b) then 1 else 0) + count_pairs a b y_true' y_pred'
  | _, _ => 0
  end.

(** [sklearn.metrics.fbeta_score(y_true, y_pred, beta)] for two 0/1
    indicator vectors, with its defaults [average="binary"] and
    [pos_label=1]: [(1+beta^2) TP / ((1+beta^2) TP + beta^2 FN + FP)], and
    0 (with a warning, not an exception) when nothing is positive on
    either side.  Vectors of different lengths are refused. *)
Definition fbeta_score (y_true y_pred : list Z) (beta : Z) : result Q :=
  if negb (length y_true =? length y_pred)%nat then Raise ValueError
  else
    let tp := count_pairs 1 1 y_true y_pred in
    let fn := count_pairs 1 0 y_true y_pred in
    let fp := count_pairs 0 1 y_true y_pred in
    let num := (1 + beta * beta) * tp in
    let den := (1 + beta * beta) * tp + beta * beta * fn + fp in
    if den =? 0 then Ok 0%Q else Ok (inject_Z num / inject_Z den)%Q.

(** A float64 result: a number or NaN. *)
Inductive npfloat : Type :=
  | NaN
  | Val (q : Q).

Definition Qsum (qs : list Q) : Q := foldr Qplus 0%Q qs.

(** [np.array(scores).mean()]: the mean of an empty array is NaN (numpy
    warns, it does not raise). *)
Definition np_mean (scores : list Q) : npfloat :=
  match scores with
  | [] => NaN
  | _ :: _ => Val (Qsum scores / inject_Z (Z.of_nat (length scores)))%Q
  end.

(** The loop of [evaluate] over the zipped rows, appending to [scores]. *)
Fixpoint evaluate_loop (scores : list Q) (pairs : list (list Z * list Z))
    : result (list Q) :=
  match pairs with
  | [] => Ok scores
  | (p, g) :: rest =>
      score ← fbeta_score g p 2;
      evaluate_loop (scores ++ [score]) rest
  end.

(** [evaluate(pred, gt)].  Python's [zip] stops at the shorter argument,
    as does [zip] on lists here. *)
Definition evaluate (pred gt : Annotations) : result npfloat :=
  rows_p ← to_multi_hot pred default_size;
  rows_g ← to_multi_hot gt default_size;
  scores ← evaluate_loop [] (zip rows_p rows_g);
  Ok (np_mean scores).

(** The records of the specification's concrete scenario, and a third
    one. *)
Definition sample_pred : Annotation := {| id := 1; label_ids := [2; 5] |}.
Definition sample_gt : Annotation := {| id := 1; label_ids := [2; 5; 9] |}.
Definition sample_other : Annotation := {| id := 2; label_ids := [7] |}.

(** *** Cross-validation folds *)

Section KFold.
(** [MultilabelStratifiedKFold(n_splits, random_state).split(X, y)]
    comes from the [iterstrat] package; it is taken as given: any
    function from the splitter's arguments to a list of
    (train indices, test indices) pairs, or an exception. *)
Variable mskf_split :
  Z → Z → list Z → list (list Z) → result (list (list Z * list Z)).

(** [[annotations[i] for i in idx]] *)
Definition gather (annotations : Annotations) (idx : list Z)
    : result Annotations :=
  mapM (getitem annotations) idx.

Definition kfold (n_splits : Z) (annotations : Annotations)
    : result (list (Annotations * Annotations)) :=
  multi_hot ← to_multi_hot annotations 3474;
  let indecies := seqZ 0 (Z.of_nat (length multi_hot)) in
  folds ← mskf_split n_splits 0 indecies multi_hot;
  mapM (λ '(train, test),
          fst_part ← gather annotations test;
          snd_part ← gather annotations test;
          Ok (fst_part, snd_part)) folds.
End KFold.

(** A splitter that reports no train indices at all and the same test
    indices as [split]. *)
Definition forget_train
    (split : Z → Z → list Z → list (list Z) → result (list (list Z * list Z)))
    : Z → Z → list Z → list (list Z) → result (list (list Z * list Z)) :=
  λ n_splits random_state X y,
    map (λ fold, ([], fold.2)) <$> split n_splits random_state X y.

(** A two-fold splitter for two records: fold 0 tests record 0, fold 1
    tests record 1. *)
Definition sample_split
    : Z → Z → list Z → list (list Z) → result (list (list Z * list Z)) :=
  λ _ _ _ _, Ok [([1], [0]); ([0], [1])].

End Preprocess.

(** ** Vocabulary of the statements about app/preprocess.py *)

Import Preprocess.

(** The position an accepted index [l] addresses in a vector of length
    [n]. *)
Definition position (n l : Z) : nat := Z.to_nat (if l <? 0 then l + n else l).

(** The indices numpy accepts for a vector of length [n]. *)
Definition addressable (n l : Z) : Prop := - n ≤ l < n.

#[global] Instance addressable_dec (n l : Z) : Decision (addressable n l).
Proof. unfold addressable. apply _. Defined.

(** The integers that fit a signed 64-bit index. *)
Definition index_sized (l : Z) : Prop := - 2 ^ 63 ≤ l < 2 ^ 63.

(** A record all of whose ids numpy can address in a vector of length
    [size]. *)
Definition encodable (size : Z) (ano : Annotation) : Prop :=
  Forall (addressable size) (label_ids ano).

(** The scores of the zipped rows. *)
Definition pair_score : list Z * list Z → result Q :=
  λ '(p, g), fbeta_score g p 2.

(** A record with at least one id, all of them valid. *)
Definition labelled (size : Z) (ano : Annotation) : Prop :=
  label_ids ano ≠ [] ∧ Forall (λ l, 0 ≤ l < size) (label_ids ano).

(** A record all of whose ids are valid. *)
Definition valid_record (size : Z) (ano : Annotation) : Prop :=
  Forall (λ l, 0 ≤ l < size) (label_ids ano).

(** What [kfold] makes of one (train, test) pair. *)
Definition fold_of (annotations : Annotations) (fold : list Z * list Z)
    : result (Annotations * Annotations) :=
  let '(train, test) := fold in
  fst_part ← gather annotations test;
  snd_part ← gather annotations test;
  Ok (fst_part, snd_part).

(** ** The tensor interface used by app/models.py *)

(** Hyper-parameters of [torch.nn.Conv2d]. *)
Record Conv2d : Type := {
  in_channels : Z;
  out_channels : Z;
  kernel_size : Z;
  padding : Z;
  dilation : Z;
  conv_stride : Z;
  conv_groups : Z;
  bias : bool
}.

(** [nn.Conv2d(...)]: the constructor refuses a non-positive group count
    and channel counts that the groups do not divide; allocating the
    weight refuses a negative channel count. *)
Definition Conv2d_init (cin cout k p d s g : Z) (b : bool) : result Conv2d :=
  if g <=? 0 then Raise ValueError
  else if negb (cin mod g =? 0) then Raise ValueError
  else if negb (cout mod g =? 0) then Raise ValueError
  else if (cin <? 0) || (cout <? 0) then Raise RuntimeError
  else Ok {| in_channels := cin; out_channels := cout; kernel_size := k;
             padding := p; dilation := d; conv_stride := s;
             conv_groups := g; bias := b |}.

(** [nn.BatchNorm2d(num_features)] *)
Record BatchNorm2d : Type := { num_features : Z }.

Definition BatchNorm2d_init (n : Z) : result BatchNorm2d :=
  if n <? 0 then Raise RuntimeError else Ok {| num_features := n |}.

(** The two pooling layers [SENextBottleneck] can own, each built as
    [nn.MaxPool2d(stride, stride)] or [nn.AvgPool2d(stride, stride)]. *)
Inductive Pool2d : Type :=
  | MaxPool2d (kernel stride : Z)
  | AvgPool2d (kernel stride : Z).

(** The literal type of the [pool] argument. *)
Inductive pool_kind : Type := PoolMax | PoolAvg.

(** The members of the [nn.Sequential] of [CSEModule]. *)
Inductive Layer : Type :=
  | AdaptiveAvgPool2d (output_size : Z)
  | Conv (c : Conv2d)
  | ReLU
  | Sigmoid.

(** What the modules ask of tensors.  The numeric kernels are those of
    PyTorch and stay abstract; each may raise. *)
Class TorchOps (T : Type) : Type := {
  conv2d : Conv2d → T → result T;
  batch_norm : BatchNorm2d → T → result T;
  relu : T → T;
  sigmoid : T → T;
  adaptive_avg_pool2d : Z → T → result T;
  max_pool2d : Z → Z → T → result T;
  avg_pool2d : Z → Z → T → result T;
  tensor_add : T → T → result T;
  tensor_mul : T → T → result T
}.

Definition pool2d `{TorchOps T} (p : Pool2d) (x : T) : result T :=
  match p with
  | MaxPool2d k s => max_pool2d k s x
  | AvgPool2d k s => avg_pool2d k s x
  end.

Definition layer_forward `{TorchOps T} (l : Layer) (x : T) : result T :=
  match l with
  | AdaptiveAvgPool2d o => adaptive_avg_pool2d o x
  | Conv c => conv2d c x
  | ReLU => Ok (relu x)
  | Sigmoid => Ok (sigmoid x)
  end.

(** [nn.Sequential.forward]: feed the input through the members in order. *)
Fixpoint sequential `{TorchOps T} (layers : list Layer) (x : T) : result T :=
  match layers with
  | [] => Ok x
  | l :: rest => y ← layer_forward l x; sequential rest y
  end.

(** ** app/models.py *)

Module CSEModule.
Record t : Type := { se : list Layer }.

Definition init (in_channels reduction : Z) : result t :=
  hidden1 ← floordiv in_channels reduction;
  c1 ← Conv2d_init in_channels hidden1 1 0 1 1 1 true;
  hidden2 ← floordiv in_channels reduction;
  c2 ← Conv2d_init hidden2 in_channels 1 0 1 1 1 true;
  Ok {| se := [AdaptiveAvgPool2d 1; Conv c1; ReLU; Conv c2; Sigmoid] |}.

(** [x = x * self.se(x)] *)
Definition forward `{TorchOps T} (m : t) (x : T) : result T :=
  gate ← sequential (se m) x;
  tensor_mul x gate.
End CSEModule.

Module ConvBR2d.
Record t : Type := {
  conv : Conv2d;
  bn : BatchNorm2d;
  is_activation : bool
}.

Definition init (in_channels out_channels kernel_size padding dilation
                 stride groups : Z) (is_activation : bool) : result t :=
  conv ← Conv2d_init in_channels out_channels kernel_size padding dilation
                     stride groups false;
  bn ← BatchNorm2d_init out_channels;
  Ok {| conv := conv; bn := bn; is_activation := is_activation |}.

Definition forward `{TorchOps T} (m : t) (x : T) : result T :=
  y ← conv2d (conv m) x;
  x ← batch_norm (bn m) y;
  if is_activation m then Ok (relu x) else Ok x.
End ConvBR2d.

Module SENextBottleneck.
(** [shortcut] and [pool] are attributes that exist only when
    [__init__] took the corresponding branch. *)
Record t : Type := {
  conv1 : ConvBR2d.t;
  conv2 : ConvBR2d.t;
  conv3 : ConvBR2d.t;
  se : CSEModule.t;
  stride : Z;
  is_shortcut : bool;
  shortcut : option ConvBR2d.t;
  pool : option Pool2d
}.

Definition init (in_channels out_channels stride groups reduction : Z)
    (pool : pool_kind) (is_shortcut : bool) : result t :=
  half ← floordiv out_channels 2;
  per_group ← floordiv half groups;
  let mid_channels := groups * per_group in
  conv1 ← ConvBR2d.init in_channels mid_channels 1 0 1 1 1 true;
  conv2 ← ConvBR2d.init mid_channels mid_channels 3 1 1 1 groups true;
  conv3 ← ConvBR2d.init mid_channels out_channels 1 0 1 1 1 false;
  se ← CSEModule.init out_channels reduction;
  shortcut ←
    (if is_shortcut
     then Some <$> ConvBR2d.init in_channels out_channels 1 0 1 1 1 false
     else Ok None);
  let pool_layer :=
    if 1 <? stride
    then Some (match pool with
               | PoolMax => MaxPool2d stride stride
               | PoolAvg => AvgPool2d stride stride
               end)
    else None in
  Ok {| conv1 := conv1; conv2 := conv2; conv3 := conv3; se := se;
        stride := stride; is_shortcut := is_shortcut;
        shortcut := shortcut; pool := pool_layer |}.

(** [self.pool(s)] and [self.shortcut(x)]: a missing attribute is an
    [AttributeError]. *)
Definition call_pool `{TorchOps T} (m : t) (s : T) : result T :=
  match pool m with Some p => pool2d p s | None => Raise AttributeError end.
Definition call_shortcut `{TorchOps T} (m : t) (x : T) : result T :=
  match shortcut m with
  | Some c => ConvBR2d.forward c x
  | None => Raise AttributeError
  end.

(** [forward], statement by statement; the two [print] calls have no
    effect on the value. *)
Definition forward `{TorchOps T} (m : t) (x : T) : result T :=
  s ← ConvBR2d.forward (conv1 m) x;
  s ← ConvBR2d.forward (conv2 m) s;
  s ← (if 1 <? stride m then call_pool m s else Ok s);
  s ← ConvBR2d.forward (conv3 m) s;
  s ← CSEModule.forward (se m) s;
  x ← (if is_shortcut m
       then
         x ← (if 1 <? stride m
              then avg_pool2d (stride m) (stride m) x
              else Ok x);
         call_shortcut m x
       else Ok x);
  x ← tensor_add x s;
  Ok (relu x).
End SENextBottleneck.

Module SEResNeXt.
Record t : Type := {
  in_conv : ConvBR2d.t;
  layer : list SENextBottleneck.t
}.

(** [diff = abs(out_channels - width)] *)
Definition diff (out_channels width : Z) : Z := Z.abs (out_channels - width).

(** The keyword arguments the comprehension computes for block [i]:
    [(in_channels, out_channels, groups)]. *)
Definition block_args (out_channels depth width i : Z) : result (Z * Z * Z) :=
  a ← floordiv (diff out_channels width * i) depth;
  b ← floordiv (diff out_channels width * (i + 1)) depth;
  g ← floordiv width depth;
  Ok (width + a, width + b, g).

(** The channel schedule: the arguments of every block, for [i] in
    [range(depth)]. *)
Definition channel_schedule (out_channels depth width : Z)
    : result (list (Z * Z * Z)) :=
  mapM (block_args out_channels depth width) (seqZ 0 depth).

(** One entry of the dict comprehension: compute the arguments, then
    build the block with the defaults [stride=1], [reduction=16],
    [pool="max"], [is_shortcut=False]. *)
Definition make_block (out_channels depth width i : Z)
    : result SENextBottleneck.t :=
  '(cin, cout, g) ← block_args out_channels depth width i;
  SENextBottleneck.init cin cout 1 g 16 PoolMax false.

Definition init (in_channels out_channels depth width : Z) : result t :=
  in_conv ← ConvBR2d.init in_channels width 1 0 1 1 1 false;
  layer ← mapM (make_block out_channels depth width) (seqZ 0 depth);
  Ok {| in_conv := in_conv; layer := layer |}.

Fixpoint blocks_forward `{TorchOps T} (bs : list SENextBottleneck.t) (x : T)
    : result T :=
  match bs with
  | [] => Ok x
  | b :: rest => y ← SENextBottleneck.forward b x; blocks_forward rest y
  end.

Definition forward `{TorchOps T} (m : t) (x : T) : result T :=
  x ← ConvBR2d.forward (in_conv m) x;
  blocks_forward (layer m) x.
End SEResNeXt.

(** ** Tensors seen as shapes

    The instance under which shape errors are studied: a tensor is its
    shape [(N, C, H, W)], and every operation follows PyTorch's shape
    rules.  Arithmetic on two tensors broadcasts: two sizes are compatible
    when they are equal or one of them is 1. *)

Record Shape : Type := { dimN : Z; dimC : Z; dimH : Z; dimW : Z }.

Definition broadcast_dim (a b : Z) : result Z :=
  if a =? b then Ok a
  else if a =? 1 then Ok b
  else if b =? 1 then Ok a
  else Raise RuntimeError.

Definition broadcast (x y : Shape) : result Shape :=
  n ← broadcast_dim (dimN x) (dimN y);
  c ← broadcast_dim (dimC x) (dimC y);
  h ← broadcast_dim (dimH x) (dimH y);
  w ← broadcast_dim (dimW x) (dimW y);
  Ok {| dimN := n; dimC := c; dimH := h; dimW := w |}.

(** Two sizes that broadcasting cannot reconcile. *)
Definition clash (a b : Z) : Prop := a ≠ b ∧ a ≠ 1 ∧ b ≠ 1.

(** Output extent of a sliding window over an extent [h]. *)
Definition window_out (h k p d s : Z) : Z :=
  (h + 2 * p - d * (k - 1) - 1) / s + 1.

(** A convolution wants an input of its input width, and one built
    without output channels cannot be applied. *)
Definition shape_conv2d (c : Conv2d) (x : Shape) : result Shape :=
  if negb (dimC x =? in_channels c) then Raise RuntimeError
  else if out_channels c <=? 0 then Raise RuntimeError
  else if conv_stride c <=? 0 then Raise RuntimeError
  else
    let h := window_out (dimH x) (kernel_size c) (padding c) (dilation c)
                        (conv_stride c) in
    let w := window_out (dimW x) (kernel_size c) (padding c) (dilation c)
                        (conv_stride c) in
    if (h <=? 0) || (w <=? 0) then Raise RuntimeError
    else Ok {| dimN := dimN x; dimC := out_channels c; dimH := h; dimW := w |}.

(** A freshly built module is in training mode, where batch
    normalisation refuses an input with exactly one value per channel. *)
Definition shape_batch_norm (b : BatchNorm2d) (x : Shape) : result Shape :=
  if negb (dimC x =? num_features b) then Raise RuntimeError
  else if dimN x * dimH x * dimW x =? 1 then Raise ValueError
  else Ok x.

Definition shape_pool2d (k s : Z) (x : Shape) : result Shape :=
  if (k <=? 0) || (s <=? 0) then Raise RuntimeError
  else
    let h := window_out (dimH x) k 0 1 s in
    let w := window_out (dimW x) k 0 1 s in
    if (h <=? 0) || (w <=? 0) then Raise RuntimeError
    else Ok {| dimN := dimN x; dimC := dimC x; dimH := h; dimW := w |}.

Definition shape_adaptive_avg_pool2d (o : Z) (x : Shape) : result Shape :=
  Ok {| dimN := dimN x; dimC := dimC x; dimH := o; dimW := o |}.

#[global] Instance shape_ops : TorchOps Shape := {|
  conv2d := shape_conv2d;
  batch_norm := shape_batch_norm;
  relu := λ x, x;
  sigmoid := λ x, x;
  adaptive_avg_pool2d := shape_adaptive_avg_pool2d;
  max_pool2d := shape_pool2d;
  avg_pool2d := shape_pool2d;
  tensor_add := broadcast;
  tensor_mul := broadcast
|}.

(** ** The forward pass in the words of the specification

    The steps of the specification's forward pass, to be compared with
    [SENextBottleneck.forward]. *)

(** Steps 1 to 5: compress, transform, pool, expand, attend. *)
Definition main_branch {T} (compress transform pool expand attend : T → result T)
    (x : T) : result T :=
  s ← compress x;
  s ← transform s;
  s ← pool s;
  s ← expand s;
  attend s.

(** The pooling step: applied only when [stride > 1]. *)
Definition pool_if_stride `{TorchOps T} (kind : pool_kind) (stride : Z) (s : T)
    : result T :=
  if 1 <? stride
  then match kind with
       | PoolMax => max_pool2d stride stride s
       | PoolAvg => avg_pool2d stride stride s
       end
  else Ok s.

(** Step 6: the raw input, or the projection of its (average-pooled when
    [stride > 1]) copy. *)
Definition shortcut_branch `{TorchOps T} (has_shortcut : bool) (stride : Z)
    (project : T → result T) (x : T) : result T :=
  if has_shortcut
  then pooled ← (if 1 <? stride then avg_pool2d stride stride x else Ok x);
       project pooled
  else Ok x.

(** Step 7: [relu(shortcut_branch + s)]. *)
Definition residual_merge `{TorchOps T} (branch s : T) : result T :=
  relu <$> tensor_add branch s.

(** The 1x1 convolution with bias that [CSEModule] builds twice. *)
Definition conv1x1 (cin cout : Z) : Conv2d :=
  {| in_channels := cin; out_channels := cout; kernel_size := 1;
     padding := 0; dilation := 1; conv_stride := 1; conv_groups := 1;
     bias := true |}.

(** Entry [i] of the channel schedule in closed form. *)
Definition schedule_entry (out_channels depth width i : Z) : Z * Z * Z :=
  (width + SEResNeXt.diff out_channels width * i / depth,
   width + SEResNeXt.diff out_channels width * (i + 1) / depth,
   width / depth).

(** ** The other modules of app/models.py *)

Module SSEModule.
Record t : Type := { se : list Layer }.

Definition init (in_channels : Z) : result t :=
  c ← Conv2d_init in_channels 1 1 0 1 1 1 true;
  Ok {| se := [Conv c; Sigmoid] |}.

(** [x = x * self.se(x)] *)
Definition forward `{TorchOps T} (m : t) (x : T) : result T :=
  gate ← sequential (se m) x;
  tensor_mul x gate.
End SSEModule.

Module SCSEModule.
Record t : Type := { c_se : CSEModule.t; s_se : SSEModule.t }.

(** [reduction] defaults to 16. *)
Definition init (in_channels reduction : Z) : result t :=
  c_se ← CSEModule.init in_channels reduction;
  s_se ← SSEModule.init in_channels;
  Ok {| c_se := c_se; s_se := s_se |}.

(** [self.c_se(x) + self.s_se(x)] *)
Definition forward `{TorchOps T} (m : t) (x : T) : result T :=
  a ← CSEModule.forward (c_se m) x;
  b ← SSEModule.forward (s_se m) x;
  tensor_add a b.
End SCSEModule.

Module DoubleConv.
(** The six members of [self.double_conv]; the two rectifiers have no
    parameters. *)
Record t : Type := {
  conv_a : Conv2d;
  bn_a : BatchNorm2d;
  conv_b : Conv2d;
  bn_b : BatchNorm2d
}.

Definition init (in_channels out_channels : Z) : result t :=
  conv_a ← Conv2d_init in_channels out_channels 3 1 1 1 1 true;
  bn_a ← BatchNorm2d_init out_channels;
  conv_b ← Conv2d_init out_channels out_channels 3 1 1 1 1 true;
  bn_b ← BatchNorm2d_init out_channels;
  Ok {| conv_a := conv_a; bn_a := bn_a; conv_b := conv_b; bn_b := bn_b |}.

(** [self.double_conv(x)]: convolution, normalisation, rectifier, twice. *)
Definition forward `{TorchOps T} (m : t) (x : T) : result T :=
  y ← conv2d (conv_a m) x;
  y ← batch_norm (bn_a m) y;
  y ← conv2d (conv_b m) (relu y);
  y ← batch_norm (bn_b m) y;
  Ok (relu y).
End DoubleConv.

(** ** The loaders of app/preprocess.py *)

Module Loaders.

(** [s.split(sep)] for a non-empty [sep]: cut at the leftmost occurrence
    of [sep], then go on behind it.  [skip] counts the characters of a
    separator still to pass over, [acc] is the piece being read. *)
Fixpoint split_go (sep : string) (skip : nat) (acc s : string) : list string :=
  match s with
  | EmptyString => [acc]
  | String c s' =>
      match skip with
      | S k => split_go sep k acc s'
      | O =>
          if String.prefix sep s
          then acc :: split_go sep (String.length sep - 1) EmptyString s'
          else split_go sep O (acc +:+ String c EmptyString) s'
      end
  end.

(** An empty separator is a [ValueError]. *)
Definition split (sep s : string) : result (list string) :=
  match sep with
  | EmptyString => Raise ValueError
  | String _ _ => Ok (split_go sep O EmptyString s)
  end.

(** [Label]: the dict [{"id": ..., "category": ..., "detail": ...}]. *)
Record Label : Type := { label_id : Z; category : string; detail : string }.

(** [Labels]: a dict from row index to [Label]. *)
Definition Labels : Type := gmap Z Label.

(** A cell of a text column as [pd.read_csv] yields it: a string, or a
    value that is not a string (the float [nan] for an empty or NA-like
    cell, a number where the whole column parses as numbers). *)
Inductive Cell : Type :=
  | Str (s : string)
  | NotStr.

(** One row of the frame read from the labels file, as [iterrows] yields
    it: the index and the cell of the column [attribute_name]. *)
Record LabelRow : Type := { row_index : Z; attribute_name : Cell }.

(** One row of the frame read from the annotations file: the cells of the
    columns [id] and [attribute_ids]. *)
Record AnnotationRow : Type := { row_id : Z; attribute_ids : Cell }.

Definition encode_attribute (name : string) : result (string * string) :=
  splited ← split "::" name;
  c ← getitem splited 0;
  d ← getitem splited 1;
  Ok (c, d).

(** [encode_attribute(value["attribute_name"])]: the cell is passed on as
    it is, and [name.split] on a value that is not a string is an
    [AttributeError]. *)
Definition encode_cell (cell : Cell) : result (string * string) :=
  match cell with
  | Str name => encode_attribute name
  | NotStr => Raise AttributeError
  end.

(** The loop shared by [load_labels] and [load_images]:
    [rows[idx] = {"id": idx, "category": c, "detail": d}] for every row. *)
Fixpoint load_rows (rows : Labels) (df : list LabelRow) : result Labels :=
  match df with
  | [] => Ok rows
  | value :: rest =>
      '(c, d) ← encode_cell (attribute_name value);
      load_rows (<[row_index value :=
                     {| label_id := row_index value;
                        category := c; detail := d |}]> rows) rest
  end.

(** The loop of [get_annotations], appending one record per row. *)
Fixpoint annotations_loop (annotations : Preprocess.Annotations)
    (rows : list (AnnotationRow * list Z)) : Preprocess.Annotations :=
  match rows with
  | [] => annotations
  | (vs, ids) :: rest =>
      annotations_loop
        (annotations ++ [{| Preprocess.id := row_id vs;
                            Preprocess.label_ids := ids |}]) rest
  end.

Section IO.
(** [pd.read_csv] on the two kinds of file, and the builtin [int] on a
    string, are taken as given; each may raise. *)
Variable read_labels_csv : string → result (list LabelRow).
Variable read_annotations_csv : string → result (list AnnotationRow).
Variable int : string → result Z.

Definition load_labels (path : string) : result Labels :=
  df ← read_labels_csv path;
  load_rows ∅ df.

(** [load_images] reads the same column of the file at [path] and never
    looks at [labels]. *)
Definition load_images (path : string) (labels : Labels) : result Labels :=
  df ← read_labels_csv path;
  load_rows ∅ df.

(** [[int(i) for i in x.split(" ")]]: [x.split] on a cell that is not a
    string is an [AttributeError]. *)
Definition parse_ids (x : Cell) : result (list Z) :=
  match x with
  | Str x => tokens ← split " " x; mapM int tokens
  | NotStr => Raise AttributeError
  end.

(** [get_annotations]: the column [attribute_ids] is parsed as a whole
    first, then the records are built row by row. *)
Definition get_annotations (path : string) (labels : Labels)
    : result Preprocess.Annotations :=
  df ← read_annotations_csv path;
  ids ← mapM (λ vs, parse_ids (attribute_ids vs)) df;
  Ok (annotations_loop [] (zip df ids)).
End IO.

End Loaders.

(** [sep] occurs somewhere in [s]. *)
Fixpoint occurs (sep s : string) : bool :=
  String.prefix sep s ||
  match s with
  | EmptyString => false
  | String _ s' => occurs sep s'
  end.

(** Number of occurrences of the character [c] in [s]. *)
Fixpoint count_char (c : Ascii.ascii) (s : string) : nat :=
  match s with
  | EmptyString => 0%nat
  | String a s' => ((if Ascii.eqb a c then 1 else 0) + count_char c s')%nat
  end.

(** The record [load_rows] stores for a row. *)
Definition label_of (value : Loaders.LabelRow) (c d : string) : Loaders.Label :=
  {| Loaders.label_id := Loaders.row_index value;
     Loaders.category := c; Loaders.detail := d |}.

(** The cells [load_rows] gets through: strings that hold the separator. *)
Definition separated (value : Loaders.LabelRow) : bool :=
  match Loaders.attribute_name value with
  | Loaders.Str name => occurs "::" name
  | Loaders.NotStr => false
  end.

(** A labels file of two rows, and an annotations file of two rows. *)
Definition sample_labels_csv : string → result (list Loaders.LabelRow) :=
  λ _, Ok [{| Loaders.row_index := 0;
              Loaders.attribute_name := Loaders.Str "culture::french" |};
           {| Loaders.row_index := 1;
              Loaders.attribute_name := Loaders.Str "tag::flower" |}].

(** Two labels files whose second row is bad: an empty cell, and a name
    without separator. *)
Definition sample_labels_empty_cell : list Loaders.LabelRow :=
  [{| Loaders.row_index := 0;
      Loaders.attribute_name := Loaders.Str "culture::french" |};
   {| Loaders.row_index := 1; Loaders.attribute_name := Loaders.NotStr |};
   {| Loaders.row_index := 2; Loaders.attribute_name := Loaders.Str "tag" |}].

Definition sample_labels_plain_name : list Loaders.LabelRow :=
  [{| Loaders.row_index := 0;
      Loaders.attribute_name := Loaders.Str "culture::french" |};
   {| Loaders.row_index := 1; Loaders.attribute_name := Loaders.Str "tag" |};
   {| Loaders.row_index := 2; Loaders.attribute_name := Loaders.NotStr |}].

Definition sample_annotations_csv
    : string → result (list Loaders.AnnotationRow) :=
  λ _, Ok [{| Loaders.row_id := 10;
              Loaders.attribute_ids := Loaders.Str "0 1" |};
           {| Loaders.row_id := 11;
              Loaders.attribute_ids := Loaders.Str "1" |}].

(** A parser for the two tokens of the sample file. *)
Definition sample_int : string → result Z :=
  λ token, if String.eqb token "0" then Ok 0
           else if String.eqb token "1" then Ok 1
           else Raise ValueError.

(** ** app/train.py *)

Module Trainer.
Section Attributes.
(** The device, the loss, the loaders and what a batch holds are objects
    of PyTorch.  [World] is the state outside the trainer that fetching a
    batch and moving a tensor may change: random generators, worker
    processes, the memory of the device. *)
Variables Device Objective Loader Item World : Type.

(** [DataLoaders]: the typed dict with the keys ["train"] and ["test"]. *)
Record DataLoaders : Type := { loader_train : Loader; loader_test : Loader }.

Record t : Type := {
  device : Device;
  objective : Objective;
  epoch : Z;
  model_path : string;
  data_loaders : DataLoaders
}.

(** A call that may change the world and may raise. *)
Definition action (A : Type) : Type := World → World * result A.

(** Iterating a loader and moving a tensor are PyTorch's: a loader yields
    [len] batches, and fetching the batch at a position, as moving an
    item to a device, may change the world and may raise. *)
Variable len : Loader → nat.
Variable fetch : Loader → nat → action (list Item).
Variable to : Item → Device → action Item.

Definition and_then {A B : Type} (m : action A) (f : A → action B)
    : action B :=
  λ w, match m w with
       | (w', Ok a) => f a w'
       | (w', Raise e) => (w', Raise e)
       end.

(** [self.epoch = epoch] *)
Definition set_epoch (self : t) (e : Z) : t :=
  {| device := device self; objective := objective self; epoch := e;
     model_path := model_path self; data_loaders := data_loaders self |}.

(** [for img, label, ano in ...]: a batch that does not hold three items
    cannot be unpacked. *)
Definition unpack (batch : list Item) : action (Item * Item * Item) :=
  λ w, match batch with
       | [img; label; ano] => (w, Ok (img, label, ano))
       | _ => (w, Raise ValueError)
       end.

(** The body of the loop:
    [img, label = img.to(self.device), label.to(self.device)]. *)
Definition move_batch (self : t) (batch : list Item) : action unit :=
  and_then (unpack batch) (λ '(img, label, ano),
  and_then (to img (device self)) (λ img,
  and_then (to label (device self)) (λ label w, (w, Ok ())))).

(** The loop of [train_one_epoch] over the batches at the positions
    [i, ..., i + n - 1] of [self.data_loaders["train"]]. *)
Fixpoint batches_loop (self : t) (i n : nat) : action unit :=
  match n with
  | O => λ w, (w, Ok ())
  | S n' =>
      and_then (fetch (loader_train (data_loaders self)) i) (λ batch,
      and_then (move_batch self batch) (λ _, batches_loop self (S i) n'))
  end.

(** [train_one_epoch]: the two local accumulators are never read,
    [tqdm] passes the batches on as they come, and no attribute of
    [self] is assigned. *)
Definition train_one_epoch (self : t) : action unit :=
  batches_loop self 0 (len (loader_train (data_loaders self))).

(** The loop of [train] over the epochs still to run: an exception of
    [train_one_epoch] leaves the loop, and [self] as it then is. *)
Fixpoint train_loop (self : t) (epochs : list Z) (w : World)
    : t * World * result unit :=
  match epochs with
  | [] => (self, w, Ok ())
  | e :: rest =>
      let self := set_epoch self e in
      match train_one_epoch self w with
      | (w', Ok _) => train_loop self rest w'
      | (w', Raise x) => (self, w', Raise x)
      end
  end.

(** [for epoch in range(self.epoch, max_epochs + 1)]: the range is
    computed once, from the counter at the time of the call. *)
Definition train (self : t) (max_epochs : Z) (w : World)
    : t * World * result unit :=
  train_loop self (seqZ (epoch self) (max_epochs + 1 - epoch self)) w.
End Attributes.

Arguments loader_train {Loader} _.
Arguments loader_test {Loader} _.
Arguments device {Device Objective Loader} _.
Arguments objective {Device Objective Loader} _.
Arguments epoch {Device Objective Loader} _.
Arguments model_path {Device Objective Loader} _.
Arguments data_loaders {Device Objective Loader} _.
Arguments set_epoch {Device Objective Loader} self e.
Arguments train_one_epoch {Device Objective Loader Item World} len fetch to self.
Arguments train_loop {Device Objective Loader Item World} len fetch to self epochs w.
Arguments train {Device Objective Loader Item World} len fetch to self max_epochs w.
End Trainer.






(** ** Vocabulary of the shape statements *)

(** The output shape of a [ConvBR2d] built with kernel [k], padding [p],
    dilation [d] and stride [s]. *)
Definition conv_shape (cout k p d s : Z) (x : Shape) : Shape :=
  {| dimN := dimN x; dimC := cout;
     dimH := window_out (dimH x) k p d s;
     dimW := window_out (dimW x) k p d s |}.

(** The compression target of a block. *)
Definition mid_channels (out_channels groups : Z) : Z :=
  groups * (out_channels / 2 / groups).

(** The spatial extent after the optional pooling step. *)
Definition pooled (stride h : Z) : Z := if 1 <? stride then h / stride else h.

(** The shape the main branch returns. *)
Definition main_shape (cout stride : Z) (x : Shape) : Shape :=
  {| dimN := dimN x; dimC := cout;
     dimH := pooled stride (dimH x); dimW := pooled stride (dimW x) |}.

(** * Properties *)

(** ** The error monad *)

Lemma bind_Ok {A B} (f : A → result B) (a : A) : (Ok a ≫= f) = f a.
Proof. reflexivity. Qed.

Lemma bind_Raise {A B} (f : A → result B) (e : exn) : (Raise e ≫= f) = Raise e.
Proof. reflexivity. Qed.

Lemma bind_Ok_inv {A B} (f : A → result B) (m : result A) (b : B) :
  (m ≫= f) = Ok b → ∃ a, m = Ok a ∧ f a = Ok b.
Proof. destruct m as [a|e]; [eauto | discriminate]. Qed.

Lemma mapM_Ok_Forall2 {A B} (f : A → result B) (l : list A) (k : list B) :
  mapM f l = Ok k ↔ Forall2 (λ a b, f a = Ok b) l k.
Proof.
  revert k. induction l as [|a l IH]; intros k; simpl.
  - split.
    + intros [= <-]. constructor.
    + intros Hk. inversion Hk. reflexivity.
  - split.
    + intros H. apply bind_Ok_inv in H as (b & Hb & H).
      apply bind_Ok_inv in H as (k' & Hk' & [= <-]).
      constructor; [exact Hb | by apply IH].
    + intros Hk. inversion Hk as [|? b ? k' Hb Hk']; subst.
      apply IH in Hk'. unfold mbind, result_bind in *.
      rewrite Hb. simpl. rewrite Hk'. reflexivity.
Qed.

Lemma mapM_total {A B} (f : A → result B) (l : list A) :
  Forall (λ a, ∃ b, f a = Ok b) l → ∃ k, mapM f l = Ok k.
Proof.
  induction 1 as [|a l [b Hb] _ [k Hk]]; simpl.
  - by eexists.
  - exists (b :: k). unfold mbind, result_bind in *. rewrite Hb. simpl.
    by rewrite Hk.
Qed.

(** ** The multi-hot encoder *)

Lemma np_setitem_Ok (base : list Z) (l v : Z) :
  addressable (Z.of_nat (length base)) l →
  np_setitem base l v = Ok (<[position (Z.of_nat (length base)) l := v]> base).
Proof.
  unfold addressable, np_setitem, position. intros Hl.
  destruct (Z.ltb_spec l 0).
  - replace (0 <=? l) with false by (symmetry; apply Z.leb_gt; lia). simpl.
    replace (- Z.of_nat (length base) <=? l) with true
      by (symmetry; apply Z.leb_le; lia).
    reflexivity.
  - replace (0 <=? l) with true by (symmetry; apply Z.leb_le; lia).
    replace (l <? Z.of_nat (length base)) with true
      by (symmetry; apply Z.ltb_lt; lia).
    reflexivity.
Qed.

Lemma np_setitem_Raise (base : list Z) (l v : Z) :
  ¬ addressable (Z.of_nat (length base)) l → index_sized l →
  np_setitem base l v = Raise IndexError.
Proof.
  unfold addressable, index_sized, np_setitem. intros Hl Hfit.
  destruct (Z.leb_spec 0 l), (Z.ltb_spec l (Z.of_nat (length base))),
    (Z.leb_spec (- Z.of_nat (length base)) l), (Z.ltb_spec l 0),
    (Z.leb_spec (2 ^ 63) l), (Z.ltb_spec l (2 ^ 64));
    simpl; try reflexivity; lia.
Qed.

Lemma np_setitem_raises (base : list Z) (l v : Z) :
  ¬ addressable (Z.of_nat (length base)) l → raises (np_setitem base l v).
Proof.
  unfold addressable, np_setitem, raises. intros Hl.
  destruct (Z.leb_spec 0 l), (Z.ltb_spec l (Z.of_nat (length base))),
    (Z.leb_spec (- Z.of_nat (length base)) l), (Z.ltb_spec l 0);
    simpl; try lia; destruct (_ && _); eauto.
Qed.

Lemma position_lt (n l : Z) : addressable n l → (position n l < Z.to_nat n)%nat.
Proof. unfold addressable, position. destruct (Z.ltb_spec l 0); lia. Qed.

(** The inner loop on in-range ids: it returns, the length is kept, and
    an entry becomes 1 exactly when some id addresses it. *)
Lemma mark_Ok (ls : list Z) : ∀ base : list Z,
  Forall (addressable (Z.of_nat (length base))) ls →
  ∃ v, mark base ls = Ok v ∧ length v = length base ∧
    ∀ i : nat, v !! i =
      if decide (Exists (λ l, position (Z.of_nat (length base)) l = i) ls)
      then Some 1 else base !! i.
Proof.
  induction ls as [|l ls IH]; intros base Hls; cbn [mark].
  - exists base. split_and!; [done..|]. intros i.
    case_decide as HE; [by apply Exists_nil in HE | done].
  - apply Forall_cons in Hls as [Hl Hls].
    rewrite (np_setitem_Ok _ _ _ Hl), bind_Ok.
    remember (position (Z.of_nat (length base)) l) as p eqn:Hpos.
    assert (Hp : (p < length base)%nat).
    { pose proof (position_lt _ _ Hl). lia. }
    destruct (IH (<[p := 1]> base)) as (v & Hv & Hlen & Hget).
    { by rewrite length_insert. }
    rewrite length_insert in Hlen, Hget.
    exists v. split_and!; [done..|]. intros i. rewrite Hget.
    destruct (decide (p = i)) as [Heq|Hne].
    + rewrite (decide_True (P := Exists _ (l :: ls)))
        by (apply Exists_cons_hd; congruence).
      case_decide; [done|]. subst i. by rewrite list_lookup_insert_eq.
    + rewrite list_lookup_insert_ne by done.
      case_decide as H1; case_decide as H2; try done.
      * exfalso. apply H2. by apply Exists_cons_tl.
      * exfalso. apply Exists_cons in H2 as [?|?]; [congruence | done].
Qed.

(** The inner loop on a list with an id numpy cannot address. *)
Lemma mark_Raise (ls : list Z) : ∀ base : list Z,
  Exists (λ l, ¬ addressable (Z.of_nat (length base)) l) ls →
  Forall index_sized ls →
  mark base ls = Raise IndexError.
Proof.
  induction ls as [|l ls IH]; intros base Hls Hfit; cbn [mark].
  - by apply Exists_nil in Hls.
  - apply Forall_cons in Hfit as [Hl' Hfit].
    destruct (decide (addressable (Z.of_nat (length base)) l)) as [Hl|Hl].
    + rewrite (np_setitem_Ok _ _ _ Hl), bind_Ok. apply IH; [|done].
      rewrite length_insert. apply Exists_cons in Hls as [?|?]; done.
    + by rewrite (np_setitem_Raise _ _ _ Hl Hl').
Qed.

Lemma mark_raises (ls : list Z) : ∀ base : list Z,
  Exists (λ l, ¬ addressable (Z.of_nat (length base)) l) ls →
  raises (mark base ls).
Proof.
  induction ls as [|l ls IH]; intros base Hls; cbn [mark].
  - by apply Exists_nil in Hls.
  - destruct (decide (addressable (Z.of_nat (length base)) l)) as [Hl|Hl].
    + rewrite (np_setitem_Ok _ _ _ Hl), bind_Ok. apply IH.
      rewrite length_insert. apply Exists_cons in Hls as [?|?]; done.
    + destruct (np_setitem_raises base l 1 Hl) as [e ->]. by exists e.
Qed.

Lemma np_zeros_Ok (size : Z) :
  0 ≤ size → np_zeros size = Ok (replicate (Z.to_nat size) 0).
Proof.
  intros Hs. unfold np_zeros.
  by replace (size <? 0) with false by (symmetry; apply Z.ltb_ge; lia).
Qed.

Lemma np_zeros_Raise (size : Z) : size < 0 → np_zeros size = Raise ValueError.
Proof.
  intros Hs. unfold np_zeros.
  by replace (size <? 0) with true by (symmetry; apply Z.ltb_lt; lia).
Qed.

Lemma multi_hot_row_Ok (ls : list Z) (size : Z) :
  0 ≤ size → Forall (addressable size) ls →
  ∃ v, multi_hot_row ls size = Ok v ∧ length v = Z.to_nat size ∧
    ∀ i : nat, (i < Z.to_nat size)%nat →
      v !! i = Some (if decide (Exists (λ l, position size l = i) ls)
                     then 1 else 0).
Proof.
  intros Hs Hls. unfold multi_hot_row. rewrite np_zeros_Ok, bind_Ok by done.
  destruct (mark_Ok ls (replicate (Z.to_nat size) 0)) as (v & Hv & Hlen & Hget).
  { rewrite length_replicate, Z2Nat.id by done. exact Hls. }
  rewrite length_replicate in Hlen. rewrite length_replicate, Z2Nat.id in Hget by done.
  exists v. split_and!; [done..|]. intros i Hi. rewrite Hget.
  case_decide; [done|]. by apply lookup_replicate_2.
Qed.

Lemma multi_hot_row_Raise (ls : list Z) (size : Z) :
  0 ≤ size → ¬ Forall (addressable size) ls → Forall index_sized ls →
  multi_hot_row ls size = Raise IndexError.
Proof.
  intros Hs Hls Hfit. unfold multi_hot_row.
  rewrite np_zeros_Ok, bind_Ok by done.
  apply mark_Raise; [|done]. rewrite length_replicate, Z2Nat.id by done.
  by apply not_Forall_Exists; [apply _|].
Qed.

Lemma multi_hot_row_raises (ls : list Z) (size : Z) :
  0 ≤ size → ¬ Forall (addressable size) ls →
  raises (multi_hot_row ls size).
Proof.
  intros Hs Hls. unfold multi_hot_row. rewrite np_zeros_Ok, bind_Ok by done.
  apply mark_raises. rewrite length_replicate, Z2Nat.id by done.
  by apply not_Forall_Exists; [apply _|].
Qed.

Lemma elem_of_ones_from (v : list Z) : ∀ (k i : Z),
  i ∈ ones_from k v ↔ ∃ j : nat, i = k + Z.of_nat j ∧ v !! j = Some 1.
Proof.
  induction v as [|b v IH]; intros k i; simpl.
  - split; [by intros ?%elem_of_nil | by intros (j & _ & ?)].
  - assert (Hshift : (∃ j : nat, i = k + 1 + Z.of_nat j ∧ v !! j = Some 1) ↔
                     (∃ j : nat, i = k + Z.of_nat (S j) ∧ v !! j = Some 1)).
    { split; intros (j & -> & Hj); exists j; split; (lia || done). }
    destruct (Z.eqb_spec b 1) as [->|Hb].
    + rewrite elem_of_cons, IH, Hshift. split.
      * intros [->|(j & -> & Hj)]; [exists 0%nat | exists (S j)]; split; (lia || done).
      * intros ([|j] & -> & Hj); [left; lia | right; eauto].
    + rewrite IH, Hshift. split.
      * intros (j & -> & Hj). exists (S j). done.
      * intros ([|j] & -> & Hj); [simpl in Hj; congruence | eauto].
Qed.

Lemma elem_of_ones (v : list Z) (i : Z) :
  i ∈ ones v ↔ 0 ≤ i ∧ v !! Z.to_nat i = Some 1.
Proof.
  unfold ones. rewrite elem_of_ones_from. split.
  - intros (j & -> & Hj). split; [lia|]. by rewrite Z.add_0_l, Nat2Z.id.
  - intros [Hi Hv]. exists (Z.to_nat i). split; [lia | done].
Qed.

(** ** The encoder over a sequence of records *)

(** The outer loop overwrites rows [i], [i+1], ... of [rows] with the
    encodings of the records, in order. *)
Lemma to_multi_hot_loop_mapM (size : Z) (annotations : Annotations) :
  ∀ (rows : list (list Z)) (i : nat),
  (i + length annotations ≤ length rows)%nat →
  to_multi_hot_loop size rows i annotations =
    (vs ← mapM (λ ano, multi_hot_row (label_ids ano) size) annotations;
     Ok (take i rows ++ vs ++ drop (i + length annotations) rows)).
Proof.
  induction annotations as [|ano rest IH]; intros rows i Hlen;
    cbn [to_multi_hot_loop mapM length].
  - unfold mret, result_ret. rewrite bind_Ok, Nat.add_0_r. simpl.
    by rewrite take_drop.
  - destruct (multi_hot_row (label_ids ano) size) as [base|e];
      [rewrite !bind_Ok | reflexivity].
    rewrite IH by (rewrite length_insert; simpl in Hlen; lia).
    destruct (mapM _ rest) as [vs|e]; [|reflexivity].
    unfold mret, result_ret. rewrite !bind_Ok. f_equal.
    simpl in Hlen.
    rewrite (take_S_r _ _ base)
      by (apply list_lookup_insert_eq; lia).
    rewrite take_insert_ge by lia.
    rewrite drop_insert_lt by lia.
    rewrite <- app_assoc. simpl.
    by replace (i + S (length rest))%nat with (S (i + length rest)) by lia.
Qed.

(** [to_multi_hot] encodes each record on its own, in order. *)
Lemma to_multi_hot_mapM (annotations : Annotations) (size : Z) :
  0 ≤ size →
  to_multi_hot annotations size =
    mapM (λ ano, multi_hot_row (label_ids ano) size) annotations.
Proof.
  intros Hs. unfold to_multi_hot, np_zeros2.
  rewrite np_zeros_Ok, !bind_Ok by done.
  rewrite to_multi_hot_loop_mapM by (rewrite length_replicate; lia).
  destruct (mapM _ annotations) as [vs|e]; [|reflexivity].
  rewrite bind_Ok, take_0. simpl.
  rewrite drop_ge by (rewrite length_replicate; lia).
  by rewrite app_nil_r.
Qed.

Lemma to_multi_hot_Ok (annotations : Annotations) (size : Z) :
  0 ≤ size → Forall (encodable size) annotations →
  ∃ rows, to_multi_hot annotations size = Ok rows ∧
    Forall2 (λ ano v, multi_hot_row (label_ids ano) size = Ok v)
            annotations rows.
Proof.
  intros Hs Hall. rewrite to_multi_hot_mapM by done.
  destruct (mapM_total (λ ano, multi_hot_row (label_ids ano) size) annotations)
    as [rows Hrows].
  { eapply Forall_impl; [exact Hall|]. intros ano Hano.
    destruct (multi_hot_row_Ok _ _ Hs Hano) as (v & Hv & _). eauto. }
  exists rows. split; [done|]. by apply mapM_Ok_Forall2.
Qed.

Lemma to_multi_hot_Ok_inv (annotations : Annotations) (size : Z) rows :
  to_multi_hot annotations size = Ok rows →
  Forall2 (λ ano v, multi_hot_row (label_ids ano) size = Ok v) annotations rows.
Proof.
  intros H. destruct (Z.lt_ge_cases size 0) as [Hs|Hs].
  - unfold to_multi_hot, np_zeros2 in H. by rewrite np_zeros_Raise in H.
  - rewrite to_multi_hot_mapM in H by done. by apply mapM_Ok_Forall2.
Qed.

(** On a single record [to_multi_hot] returns the one row the
    per-record encoder computes. *)
Lemma to_multi_hot_single (ano : Annotation) (size : Z) :
  0 ≤ size →
  to_multi_hot [ano] size = (v ← multi_hot_row (label_ids ano) size; Ok [v]).
Proof.
  intros Hs. rewrite to_multi_hot_mapM by done. cbn [mapM].
  by destruct (multi_hot_row (label_ids ano) size).
Qed.

(** ** The contract of the encoder *)

Lemma position_eq (size l i : Z) :
  0 ≤ i < size → addressable size l →
  position size l = Z.to_nat i ↔ l = i ∨ l = i - size.
Proof. unfold addressable, position. destruct (Z.ltb_spec l 0); lia. Qed.

Lemma binary_of_lookup (v : list Z) :
  (∀ i : nat, (i < length v)%nat → v !! i = Some 0 ∨ v !! i = Some 1) →
  Forall (λ b, b = 0 ∨ b = 1) v.
Proof.
  intros H. apply Forall_lookup_2. intros i b Hb.
  destruct (H i) as [H'|H']; [by eapply lookup_lt_Some | |];
    rewrite H' in Hb; injection Hb as <-; auto.
Qed.

Lemma multi_hot_row_entries (ls : list Z) (size : Z) :
  0 ≤ size → Forall (addressable size) ls →
  ∃ v, multi_hot_row ls size = Ok v ∧ length v = Z.to_nat size ∧
    Forall (λ b, b = 0 ∨ b = 1) v ∧
    ∀ i, 0 ≤ i < size →
      (v !! Z.to_nat i = Some 1 ↔ ∃ l, l ∈ ls ∧ (l = i ∨ l = i - size)).
Proof.
  intros Hs Hls.
  destruct (multi_hot_row_Ok ls size Hs Hls) as (v & Hv & Hlen & Hget).
  exists v. split_and!; [done..| |].
  - apply binary_of_lookup. intros i Hi. rewrite Hget by lia.
    case_decide; auto.
  - intros i Hi. rewrite Hget by lia. case_decide as HE.
    + split; [intros _|done]. apply Exists_exists in HE as (l & Hl & Hpos).
      exists l. split; [done|]. apply position_eq; [done| |done].
      eapply Forall_forall in Hls; eauto.
    + split; [discriminate|]. intros (l & Hl & Hli). exfalso. apply HE.
      apply Exists_exists. exists l. split; [done|].
      apply position_eq; [done| |done]. eapply Forall_forall in Hls; eauto.
Qed.

Lemma multi_hot_row_valid (ls : list Z) (size : Z) :
  0 ≤ size → Forall (λ l, 0 ≤ l < size) ls →
  ∃ v, multi_hot_row ls size = Ok v ∧ length v = Z.to_nat size ∧
    ∀ i, 0 ≤ i < size → (v !! Z.to_nat i = Some 1 ↔ i ∈ ls).
Proof.
  intros Hs Hls.
  destruct (multi_hot_row_entries ls size Hs) as (v & Hv & Hlen & _ & Hget).
  { eapply Forall_impl; [exact Hls|]. unfold addressable. simpl. lia. }
  exists v. split_and!; [done..|]. intros i Hi. rewrite (Hget i Hi). split.
  - intros (l & Hl & [->| ->]); [done|].
    eapply Forall_forall in Hls; eauto. simpl in Hls. lia.
  - intros Hin. exists i. auto.
Qed.

(** C4, amended.  For a size that is not negative: when every id lies in
    [-size, size) the encoder returns a vector of length [size] whose
    entries are 0 or 1, with a 1 at position [i] exactly when the list
    holds [i] or [i - size] (a negative id counts from the end, it is not
    rejected); when the ids fit a signed 64-bit integer and some id lies
    outside [-size, size) the encoder raises [IndexError]; for ids that
    all lie in [0, size) the 1s sit exactly at the ids; and
    [to_multi_hot] on a single record returns that one row. *)
Theorem multi_hot_row_spec (ls : list Z) (size : Z) :
  0 ≤ size →
  (Forall (λ l, - size ≤ l < size) ls →
     ∃ v, multi_hot_row ls size = Ok v ∧ length v = Z.to_nat size ∧
       Forall (λ b, b = 0 ∨ b = 1) v ∧
       ∀ i, 0 ≤ i < size →
         (v !! Z.to_nat i = Some 1 ↔ ∃ l, l ∈ ls ∧ (l = i ∨ l = i - size))) ∧
  (¬ Forall (λ l, - size ≤ l < size) ls →
     Forall (λ l, - 2 ^ 63 ≤ l < 2 ^ 63) ls →
     multi_hot_row ls size = Raise IndexError) ∧
  (Forall (λ l, 0 ≤ l < size) ls →
     ∃ v, multi_hot_row ls size = Ok v ∧ length v = Z.to_nat size ∧
       ∀ i, 0 ≤ i < size → (v !! Z.to_nat i = Some 1 ↔ i ∈ ls)) ∧
  (∀ n, to_multi_hot [{| id := n; label_ids := ls |}] size =
          (v ← multi_hot_row ls size; Ok [v])).
Proof.
  intros Hs. split_and!.
  - by apply multi_hot_row_entries.
  - intros Hls Hfit. by apply multi_hot_row_Raise.
  - by apply multi_hot_row_valid.
  - intros n. by apply to_multi_hot_single.
Qed.

Lemma multi_hot_row_spec_witness :
  0 ≤ 4 ∧
  ((Forall (λ l, - 4 ≤ l < 4) [-1; 2] →
      ∃ v, multi_hot_row [-1; 2] 4 = Ok v ∧ length v = Z.to_nat 4 ∧
        Forall (λ b, b = 0 ∨ b = 1) v ∧
        ∀ i, 0 ≤ i < 4 →
          (v !! Z.to_nat i = Some 1 ↔ ∃ l, l ∈ [-1; 2] ∧ (l = i ∨ l = i - 4))) ∧
   (¬ Forall (λ l, - 4 ≤ l < 4) [-1; 2] →
      Forall (λ l, - 2 ^ 63 ≤ l < 2 ^ 63) [-1; 2] →
      multi_hot_row [-1; 2] 4 = Raise IndexError) ∧
   (Forall (λ l, 0 ≤ l < 4) [-1; 2] →
      ∃ v, multi_hot_row [-1; 2] 4 = Ok v ∧ length v = Z.to_nat 4 ∧
        ∀ i, 0 ≤ i < 4 → (v !! Z.to_nat i = Some 1 ↔ i ∈ [-1; 2])) ∧
   (∀ n, to_multi_hot [{| id := n; label_ids := [-1; 2] |}] 4 =
           (v ← multi_hot_row [-1; 2] 4; Ok [v]))) ∧
  ¬ Forall (λ l, - 4 ≤ l < 4) [1; 7] ∧
  Forall (λ l, - 2 ^ 63 ≤ l < 2 ^ 63) [1; 7] ∧
  multi_hot_row [1; 7] 4 = Raise IndexError.
Proof.
  assert (Hout : ¬ Forall (λ l, - 4 ≤ l < 4) [1; 7]).
  { intros H. apply Forall_cons in H as [_ H].
    apply Forall_cons in H as [H _]. lia. }
  assert (Hfit : Forall (λ l, - 2 ^ 63 ≤ l < 2 ^ 63) [1; 7])
    by (repeat constructor; lia).
  split; [lia|]. split; [apply (multi_hot_row_spec [-1; 2] 4); lia|].
  split; [exact Hout|]. split; [exact Hfit|].
  apply (multi_hot_row_spec [1; 7] 4); [lia | exact Hout | exact Hfit].
Defined.

(** C4 as stated fails: the negative id -1 is not rejected, it is encoded
    at the last position. *)
Lemma negative_id_is_encoded :
  -1 < 0 ∧ -1 ∈ [-1] ∧ multi_hot_row [-1] 4 = Ok [0; 0; 0; 1] ∧
  to_multi_hot [{| id := 7; label_ids := [-1] |}] 4 = Ok [[0; 0; 0; 1]].
Proof.
  split_and!; [lia | by apply list_elem_of_singleton | reflexivity..].
Qed.

(** C5.  For a size [L] and ids that all satisfy [0 <= id < L], the
    encoder returns a vector of length [L] (the row [to_multi_hot] returns
    for a record with these ids), and the set of its positions that hold 1
    is the set of the ids. *)
Theorem multi_hot_round_trip (S : list Z) (L : Z) :
  0 ≤ L → Forall (λ l, 0 ≤ l < L) S →
  ∃ v, multi_hot_row S L = Ok v ∧
    (∀ n, to_multi_hot [{| id := n; label_ids := S |}] L = Ok [v]) ∧
    length v = Z.to_nat L ∧
    list_to_set (ones v) =@{gset Z} list_to_set S.
Proof.
  intros HL HS.
  destruct (multi_hot_row_valid S L HL HS) as (v & Hv & Hlen & Hget).
  exists v. split_and!; [done| |done|].
  { intros n. rewrite to_multi_hot_single by done. simpl. by rewrite Hv. }
  apply set_eq. intros i. rewrite !elem_of_list_to_set, elem_of_ones. split.
  - intros [Hi Hone]. apply Hget; [|done]. split; [done|].
    apply lookup_lt_Some in Hone. lia.
  - intros Hin. pose proof Hin as Hr.
    eapply Forall_forall in Hr; [|exact HS]. simpl in Hr.
    split; [lia|]. by apply Hget.
Qed.

Lemma multi_hot_round_trip_witness :
  0 ≤ 10 ∧ Forall (λ l, 0 ≤ l < 10) [2; 5; 9] ∧
  ∃ v, multi_hot_row [2; 5; 9] 10 = Ok v ∧
    (∀ n, to_multi_hot [{| id := n; label_ids := [2; 5; 9] |}] 10 = Ok [v]) ∧
    length v = Z.to_nat 10 ∧
    list_to_set (ones v) =@{gset Z} list_to_set [2; 5; 9].
Proof.
  assert (H : Forall (λ l, 0 ≤ l < 10) [2; 5; 9]) by (repeat constructor; lia).
  split_and!; [lia | exact H |].
  apply (multi_hot_round_trip [2; 5; 9] 10); [lia | exact H].
Defined.

(** ** The score *)

Lemma evaluate_loop_mapM (pairs : list (list Z * list Z)) : ∀ scores,
  evaluate_loop scores pairs =
    (new ← mapM (λ '(p, g), fbeta_score g p 2) pairs; Ok (scores ++ new)).
Proof.
  induction pairs as [|[p g] rest IH]; intros scores;
    cbn [evaluate_loop mapM].
  - unfold mret, result_ret. by rewrite bind_Ok, app_nil_r.
  - destruct (fbeta_score g p 2) as [score|e]; [rewrite !bind_Ok | reflexivity].
    rewrite IH. destruct (mapM _ rest) as [new|e]; [|reflexivity].
    unfold mret, result_ret. rewrite !bind_Ok. by rewrite <- app_assoc.
Qed.

Lemma count_pairs_nonneg (a b : Z) (y_true : list Z) : ∀ y_pred,
  0 ≤ count_pairs a b y_true y_pred.
Proof.
  induction y_true as [|t y_true IH]; intros [|p y_pred]; simpl; try lia.
  specialize (IH y_pred). destruct (_ && _); lia.
Qed.

Lemma fbeta_score_length (y_true y_pred : list Z) (beta : Z) :
  length y_true = length y_pred → ∃ q, fbeta_score y_true y_pred beta = Ok q.
Proof.
  intros Hlen. unfold fbeta_score. rewrite Hlen, Nat.eqb_refl. simpl.
  destruct (_ =? 0); eauto.
Qed.

(** Every F-beta score lies in [0, 1]. *)
Lemma fbeta_score_bounds (y_true y_pred : list Z) (beta : Z) (q : Q) :
  fbeta_score y_true y_pred beta = Ok q → (0 <= q <= 1)%Q.
Proof.
  unfold fbeta_score. destruct (negb _); [discriminate|].
  pose proof (count_pairs_nonneg 1 1 y_true y_pred) as Htp.
  pose proof (count_pairs_nonneg 1 0 y_true y_pred) as Hfn.
  pose proof (count_pairs_nonneg 0 1 y_true y_pred) as Hfp.
  set (tp := count_pairs 1 1 y_true y_pred) in *.
  set (fn := count_pairs 1 0 y_true y_pred) in *.
  set (fp := count_pairs 0 1 y_true y_pred) in *.
  destruct (Z.eqb_spec ((1 + beta * beta) * tp + beta * beta * fn + fp) 0)
    as [Hden|Hden]; intros [= <-].
  - split; unfold Qle; simpl; lia.
  - assert (0 ≤ (1 + beta * beta) * tp) by nia.
    assert (0 ≤ beta * beta * fn) by nia.
    set (num := (1 + beta * beta) * tp) in *.
    set (den := num + beta * beta * fn + fp) in *.
    assert (Hpos : 0 < den) by lia.
    assert (Hq : (0 < inject_Z den)%Q) by (unfold Qlt; simpl; lia).
    split.
    + apply Qle_shift_div_l; [exact Hq|]. unfold Qle; simpl. lia.
    + apply Qle_shift_div_r; [exact Hq|]. unfold Qle; simpl. lia.
Qed.

Lemma np_setitem_length (base : list Z) (l x : Z) (v : list Z) :
  np_setitem base l x = Ok v → length v = length base.
Proof.
  unfold np_setitem. repeat case_match; intros [= <-];
    by rewrite length_insert.
Qed.

Lemma mark_length (ls : list Z) : ∀ (base v : list Z),
  mark base ls = Ok v → length v = length base.
Proof.
  induction ls as [|l ls IH]; intros base v; cbn [mark].
  - by intros [= <-].
  - intros (base' & Hset & Hrest)%bind_Ok_inv.
    rewrite (IH _ _ Hrest). by eapply np_setitem_length.
Qed.

Lemma multi_hot_row_length (ls : list Z) (size : Z) (v : list Z) :
  multi_hot_row ls size = Ok v → length v = Z.to_nat size.
Proof.
  unfold multi_hot_row. intros (base & Hz & Hm)%bind_Ok_inv.
  rewrite (mark_length _ _ _ Hm). unfold np_zeros in Hz.
  destruct (size <? 0); [discriminate|]. injection Hz as <-.
  apply length_replicate.
Qed.

Lemma rows_length (annotations : Annotations) (size : Z) rows :
  Forall2 (λ ano v, multi_hot_row (label_ids ano) size = Ok v) annotations rows →
  Forall (λ v, length v = Z.to_nat size) rows.
Proof.
  induction 1; constructor; [by eapply multi_hot_row_length | done].
Qed.

Lemma evaluate_unfold (pred gt : Annotations) :
  evaluate pred gt =
    (rows_p ← to_multi_hot pred default_size;
     rows_g ← to_multi_hot gt default_size;
     scores ← mapM pair_score (zip rows_p rows_g);
     Ok (np_mean scores)).
Proof.
  unfold evaluate.
  destruct (to_multi_hot pred default_size) as [rows_p|e]; [|reflexivity].
  destruct (to_multi_hot gt default_size) as [rows_g|e]; [|reflexivity].
  rewrite !bind_Ok, evaluate_loop_mapM. fold pair_score.
  by destruct (mapM pair_score _).
Qed.

Lemma pair_scores_total (rows_p rows_g : list (list Z)) (n : nat) :
  Forall (λ v, length v = n) rows_p → Forall (λ v, length v = n) rows_g →
  ∃ scores, mapM pair_score (zip rows_p rows_g) = Ok scores.
Proof.
  intros Hp Hg. apply mapM_total. apply Forall_forall. intros [p g] Hin.
  apply elem_of_zip_l in Hin as Hl. apply elem_of_zip_r in Hin as Hr.
  simpl in *. apply fbeta_score_length.
  eapply Forall_forall in Hp; [|exact Hl].
  eapply Forall_forall in Hg; [|exact Hr]. congruence.
Qed.

Lemma default_size_nonneg : 0 ≤ default_size.
Proof. unfold default_size. lia. Qed.

(** What a returning call of [evaluate] computed. *)
Lemma evaluate_Ok_inv (pred gt : Annotations) (r : npfloat) :
  evaluate pred gt = Ok r →
  ∃ rows_p rows_g scores,
    Forall2 (λ ano v, multi_hot_row (label_ids ano) default_size = Ok v)
            pred rows_p ∧
    Forall2 (λ ano v, multi_hot_row (label_ids ano) default_size = Ok v)
            gt rows_g ∧
    Forall2 (λ pg s, pair_score pg = Ok s) (zip rows_p rows_g) scores ∧
    r = np_mean scores.
Proof.
  rewrite evaluate_unfold.
  intros (rows_p & Hp & H)%bind_Ok_inv.
  apply bind_Ok_inv in H as (rows_g & Hg & H).
  apply bind_Ok_inv in H as (scores & Hs & [= <-]).
  exists rows_p, rows_g, scores. split_and!; [| | |done].
  - by apply to_multi_hot_Ok_inv.
  - by apply to_multi_hot_Ok_inv.
  - by apply mapM_Ok_Forall2.
Qed.

(** [evaluate] returns whenever numpy can address every id. *)
Lemma evaluate_Ok (pred gt : Annotations) :
  Forall (encodable default_size) pred → Forall (encodable default_size) gt →
  ∃ r, evaluate pred gt = Ok r.
Proof.
  intros Hp Hg. rewrite evaluate_unfold.
  destruct (to_multi_hot_Ok pred _ default_size_nonneg Hp) as (rows_p & -> & Hrp).
  destruct (to_multi_hot_Ok gt _ default_size_nonneg Hg) as (rows_g & -> & Hrg).
  rewrite !bind_Ok.
  destruct (pair_scores_total rows_p rows_g (Z.to_nat default_size))
    as [scores ->]; [by eapply rows_length..|].
  rewrite bind_Ok. eauto.
Qed.

(** C3, amended.  [evaluate] makes no length check.  When numpy can
    address every id of both sequences it returns: both sequences are
    encoded record by record, predicted[i] is paired with
    ground_truth[i] for every [i] below the shorter of the two lengths,
    each pair is scored by F-beta with beta = 2 (ground truth as
    [y_true]), and the result is the arithmetic mean of those scores. *)
Theorem evaluate_pairs (pred gt : Annotations) :
  Forall (encodable default_size) pred → Forall (encodable default_size) gt →
  ∃ rows_p rows_g scores,
    Forall2 (λ ano v, multi_hot_row (label_ids ano) default_size = Ok v)
            pred rows_p ∧
    Forall2 (λ ano v, multi_hot_row (label_ids ano) default_size = Ok v)
            gt rows_g ∧
    length scores = (length pred `min` length gt)%nat ∧
    (∀ (i : nat) p g, rows_p !! i = Some p → rows_g !! i = Some g →
       ∃ s, scores !! i = Some s ∧ fbeta_score g p 2 = Ok s) ∧
    evaluate pred gt = Ok (np_mean scores).
Proof.
  intros Hp Hg. destruct (evaluate_Ok pred gt Hp Hg) as [r Hr].
  destruct (evaluate_Ok_inv _ _ _ Hr) as (rows_p & rows_g & scores & Hrp & Hrg & Hs & ->).
  exists rows_p, rows_g, scores. split_and!; [done..| | |done].
  - rewrite <- (Forall2_length _ _ _ Hs), length_zip.
    by rewrite (Forall2_length _ _ _ Hrp), (Forall2_length _ _ _ Hrg).
  - intros i p g Hip Hig.
    assert (Hz : zip rows_p rows_g !! i = Some (p, g)) by by apply lookup_zip_Some.
    destruct (Forall2_lookup_l _ _ _ _ _ Hs Hz) as (s & Hsi & Hps). eauto.
Qed.

(** C3 as stated fails: sequences of lengths 1 and 2 are accepted, and
    the surplus record is dropped. *)
Lemma evaluate_accepts_unequal_lengths :
  length [sample_pred] ≠ length [sample_pred; sample_other] ∧
  ∃ q, evaluate [sample_pred] [sample_pred; sample_other] = Ok (Val q) ∧
       (q == 1)%Q.
Proof.
  split; [discriminate|]. eexists. split; [vm_compute; reflexivity | reflexivity].
Qed.

Lemma sample_encodable :
  encodable default_size sample_pred ∧ encodable default_size sample_gt.
Proof.
  unfold encodable, addressable, default_size. simpl.
  split; repeat constructor; lia.
Defined.

Lemma evaluate_pairs_witness :
  Forall (encodable default_size) [sample_pred] ∧
  Forall (encodable default_size) [sample_gt; sample_pred] ∧
  ∃ rows_p rows_g scores,
    Forall2 (λ ano v, multi_hot_row (label_ids ano) default_size = Ok v)
            [sample_pred] rows_p ∧
    Forall2 (λ ano v, multi_hot_row (label_ids ano) default_size = Ok v)
            [sample_gt; sample_pred] rows_g ∧
    length scores = (length [sample_pred] `min` length [sample_gt; sample_pred])%nat ∧
    (∀ (i : nat) p g, rows_p !! i = Some p → rows_g !! i = Some g →
       ∃ s, scores !! i = Some s ∧ fbeta_score g p 2 = Ok s) ∧
    evaluate [sample_pred] [sample_gt; sample_pred] = Ok (np_mean scores).
Proof.
  destruct sample_encodable as [Ha Hb].
  split_and!; [by repeat constructor..|].
  apply (evaluate_pairs [sample_pred] [sample_gt; sample_pred]);
    by repeat constructor.
Defined.

(** ** The mean of the scores *)

Lemma Qsum_bounds (qs : list Q) :
  Forall (λ q, 0 <= q <= 1)%Q qs →
  (0 <= Qsum qs <= inject_Z (Z.of_nat (length qs)))%Q.
Proof.
  induction 1 as [|q qs [Hq0 Hq1] _ [IH0 IH1]]; cbn [Qsum foldr length].
  - split; apply Qle_refl.
  - fold (Qsum qs). split.
    + rewrite <- (Qplus_0_l 0). by apply Qplus_le_compat.
    + rewrite Nat2Z.inj_succ, <- Z.add_1_l, inject_Z_plus.
      by apply Qplus_le_compat.
Qed.

Lemma Qsum_ones (qs : list Q) :
  Forall (λ q, q == 1)%Q qs → (Qsum qs == inject_Z (Z.of_nat (length qs)))%Q.
Proof.
  induction 1 as [|q qs Hq _ IH]; cbn [Qsum foldr length].
  - reflexivity.
  - fold (Qsum qs). rewrite Nat2Z.inj_succ, <- Z.add_1_l, inject_Z_plus.
    by rewrite Hq, IH.
Qed.

Lemma length_pos_Q {A} (l : list A) :
  l ≠ [] → (0 < inject_Z (Z.of_nat (length l)))%Q.
Proof. destruct l; [done|]. intros _. unfold Qlt. simpl. lia. Qed.

Lemma np_mean_bounds (scores : list Q) :
  Forall (λ q, 0 <= q <= 1)%Q scores → scores ≠ [] →
  ∃ q, np_mean scores = Val q ∧ (0 <= q <= 1)%Q.
Proof.
  intros Hall Hne. pose proof (length_pos_Q scores Hne) as Hn.
  destruct (Qsum_bounds scores Hall) as [H0 H1].
  destruct scores as [|s rest]; [done|]. eexists. split; [reflexivity|].
  split.
  - apply Qle_shift_div_l; [done|]. by rewrite Qmult_0_l.
  - apply Qle_shift_div_r; [done|]. by rewrite Qmult_1_l.
Qed.

Lemma np_mean_ones (scores : list Q) :
  Forall (λ q, q == 1)%Q scores → scores ≠ [] →
  ∃ q, np_mean scores = Val q ∧ (q == 1)%Q.
Proof.
  intros Hall Hne. pose proof (length_pos_Q scores Hne) as Hn.
  pose proof (Qsum_ones scores Hall) as Hsum.
  destruct scores as [|s rest]; [done|]. eexists. split; [reflexivity|].
  rewrite Hsum. apply Qmult_inv_r. intros H0. rewrite H0 in Hn.
  by apply Qlt_irrefl in Hn.
Qed.

(** C9, amended.  When [evaluate] returns and both sequences hold at
    least one record, the result is a number in the closed interval
    [0, 1]; when it returns and one of the sequences is empty, the result
    is NaN. *)
Theorem evaluate_range (pred gt : Annotations) (r : npfloat) :
  evaluate pred gt = Ok r →
  (pred ≠ [] → gt ≠ [] → ∃ q, r = Val q ∧ (0 <= q <= 1)%Q) ∧
  (pred = [] ∨ gt = [] → r = NaN).
Proof.
  intros (rows_p & rows_g & scores & Hrp & Hrg & Hs & ->)%evaluate_Ok_inv.
  assert (Hlen : length scores = (length pred `min` length gt)%nat).
  { rewrite <- (Forall2_length _ _ _ Hs), length_zip.
    by rewrite (Forall2_length _ _ _ Hrp), (Forall2_length _ _ _ Hrg). }
  split.
  - intros Hp Hg. apply np_mean_bounds.
    + apply Forall_forall. intros s Hin.
      apply list_elem_of_lookup in Hin as [i Hi].
      destruct (Forall2_lookup_r _ _ _ _ _ Hs Hi) as ([p g] & _ & Hpg).
      by eapply fbeta_score_bounds.
    + destruct pred, gt, scores; simpl in *; done.
  - intros Hempty. destruct scores as [|s rest]; [reflexivity|].
    destruct Hempty as [-> | ->]; simpl in Hlen; [done|].
    rewrite Nat.min_0_r in Hlen. done.
Qed.

Lemma evaluate_range_witness :
  evaluate [sample_pred] [sample_gt] = Ok (Val ((10 # 14) / 1)) ∧
  ([sample_pred] ≠ [] → [sample_gt] ≠ [] →
     ∃ q, Val ((10 # 14) / 1) = Val q ∧ (0 <= q <= 1)%Q) ∧
  ([sample_pred] = [] ∨ [sample_gt] = [] → Val ((10 # 14) / 1) = NaN).
Proof.
  assert (H : evaluate [sample_pred] [sample_gt] = Ok (Val ((10 # 14) / 1))).
  { vm_compute. reflexivity. }
  split; [exact H | exact (evaluate_range _ _ _ H)].
Defined.

(** C9 as stated fails: the empty pair is accepted and the value returned
    is NaN, which is not a number of [0, 1]. *)
Lemma evaluate_empty_is_nan :
  evaluate [] [] = Ok NaN ∧ ¬ ∃ q, NaN = Val q ∧ (0 <= q <= 1)%Q.
Proof. split; [reflexivity | by intros (q & Hq & _)]. Qed.

(** ** A sequence scored against itself *)

Lemma count_pairs_diag_ne (a b : Z) (v : list Z) :
  a ≠ b → count_pairs a b v v = 0.
Proof.
  intros Hab. induction v as [|t v IH]; simpl; [done|]. rewrite IH.
  destruct (Z.eqb_spec t a), (Z.eqb_spec t b); simpl; congruence || lia.
Qed.

Lemma count_pairs_diag_pos (v : list Z) : 1 ∈ v → 0 < count_pairs 1 1 v v.
Proof.
  induction v as [|t v IH]; [by intros ?%elem_of_nil|].
  intros Hin. simpl. pose proof (count_pairs_nonneg 1 1 v v).
  apply elem_of_cons in Hin as [<-|Hin]; simpl; [lia|].
  specialize (IH Hin). destruct (_ && _); lia.
Qed.

Lemma fbeta_score_self (v : list Z) :
  1 ∈ v → ∃ q, fbeta_score v v 2 = Ok q ∧ (q == 1)%Q.
Proof.
  intros Hin. unfold fbeta_score. rewrite Nat.eqb_refl. cbn [negb].
  rewrite (count_pairs_diag_ne 1 0), (count_pairs_diag_ne 0 1) by lia.
  pose proof (count_pairs_diag_pos v Hin) as Htp.
  set (tp := count_pairs 1 1 v v) in *.
  destruct (Z.eqb_spec ((1 + 2 * 2) * tp + 2 * 2 * 0 + 0) 0) as [H0|Hne];
    [lia|].
  eexists. split; [reflexivity|].
  replace ((1 + 2 * 2) * tp + 2 * 2 * 0 + 0) with ((1 + 2 * 2) * tp) by lia.
  apply Qmult_inv_r. unfold Qeq. simpl. lia.
Qed.

Lemma labelled_encodable (size : Z) (ano : Annotation) :
  labelled size ano → encodable size ano.
Proof.
  intros [_ H]. unfold encodable, addressable.
  eapply Forall_impl; [exact H|]. simpl. lia.
Qed.

Lemma labelled_row_has_one (size : Z) (ano : Annotation) (v : list Z) :
  0 ≤ size → labelled size ano →
  multi_hot_row (label_ids ano) size = Ok v → 1 ∈ v.
Proof.
  intros Hs [Hne Hvalid] Hv.
  destruct (multi_hot_row_valid _ _ Hs Hvalid) as (v' & Hv' & _ & Hget).
  rewrite Hv in Hv'. injection Hv' as <-.
  destruct (label_ids ano) as [|l ls] eqn:Hls; [done|].
  apply Forall_cons in Hvalid as [Hl _].
  apply list_elem_of_lookup. exists (Z.to_nat l).
  apply Hget; [done | by left].
Qed.

(** C6.  For every non-empty sequence [X] whose records each hold at least
    one id, all ids valid, [evaluate(X, X)] returns 1. *)
Theorem evaluate_identity (X : Annotations) :
  X ≠ [] → Forall (labelled default_size) X →
  ∃ q, evaluate X X = Ok (Val q) ∧ (q == 1)%Q.
Proof.
  intros Hne Hall. rewrite evaluate_unfold.
  destruct (to_multi_hot_Ok X default_size default_size_nonneg)
    as (rows & -> & Hrows).
  { eapply Forall_impl; [exact Hall | apply labelled_encodable]. }
  rewrite !bind_Ok, zip_diag.
  assert (Hones : Forall (λ v, 1 ∈ v) rows).
  { apply Forall_forall. intros v Hv.
    apply list_elem_of_lookup in Hv as [i Hi].
    destruct (Forall2_lookup_r _ _ _ _ _ Hrows Hi) as (ano & Hano & Henc).
    eapply labelled_row_has_one; [apply default_size_nonneg| |exact Henc].
    eapply Forall_forall in Hall; [exact Hall|].
    apply list_elem_of_lookup. eauto. }
  assert (Hscores : ∃ scores,
    mapM pair_score ((λ x, (x, x)) <$> rows) = Ok scores ∧
    length scores = length rows ∧ Forall (λ q, q == 1)%Q scores).
  { clear Hrows. induction Hones as [|v rows Hv _ (scores & Hs & Hlen & H1)].
    - exists []. done.
    - destruct (fbeta_score_self v Hv) as (q & Hq & Hq1).
      exists (q :: scores). cbn [fmap list_fmap mapM pair_score].
      rewrite Hq, bind_Ok, Hs, bind_Ok. split_and!; [done| |].
      + simpl. by rewrite Hlen.
      + by constructor. }
  destruct Hscores as (scores & -> & Hlen & H1). rewrite bind_Ok.
  destruct (np_mean_ones scores H1) as (q & -> & Hq).
  { apply Forall2_length in Hrows. destruct scores, rows, X; simpl in *; done. }
  eauto.
Qed.

Lemma evaluate_identity_witness :
  [sample_gt; sample_other] ≠ [] ∧
  Forall (labelled default_size) [sample_gt; sample_other] ∧
  ∃ q, evaluate [sample_gt; sample_other] [sample_gt; sample_other] = Ok (Val q) ∧
       (q == 1)%Q.
Proof.
  assert (H : Forall (labelled default_size) [sample_gt; sample_other]).
  { unfold labelled, default_size. simpl.
    repeat constructor; (discriminate || lia). }
  split_and!; [discriminate | exact H |].
  apply (evaluate_identity [sample_gt; sample_other]); [discriminate | exact H].
Defined.

(** ** The folds *)

Lemma fold_of_Ok annotations train test parts :
  fold_of annotations (train, test) = Ok parts →
  gather annotations test = Ok parts.1 ∧ gather annotations test = Ok parts.2.
Proof.
  unfold fold_of. intros (a & Ha & H)%bind_Ok_inv.
  apply bind_Ok_inv in H as (b & Hb & [= <-]). done.
Qed.

Lemma fold_of_train_irrelevant annotations (train train' test : list Z) :
  fold_of annotations (train, test) = fold_of annotations (train', test).
Proof. reflexivity. Qed.

Lemma mapM_fold_of_forget annotations (splits : list (list Z * list Z)) :
  mapM (fold_of annotations) (map (λ fold, ([], fold.2)) splits) =
  mapM (fold_of annotations) splits.
Proof.
  induction splits as [|[train test] splits IH]; [done|].
  cbn [map mapM snd]. rewrite IH.
  by rewrite (fold_of_train_irrelevant annotations [] train test).
Qed.

Lemma kfold_unfold split n_splits annotations :
  kfold split n_splits annotations =
    (multi_hot ← to_multi_hot annotations 3474;
     folds ← split n_splits 0 (seqZ 0 (Z.of_nat (length multi_hot))) multi_hot;
     mapM (fold_of annotations) folds).
Proof. reflexivity. Qed.

(** C10.  Whatever the splitter, the number of splits and the records,
    every pair that [kfold] returns has equal components: both are the
    records at the test indices of the fold, and a splitter that reports
    no train indices at all yields the same folds. *)
Theorem kfold_train_is_test
    (split : Z → Z → list Z → list (list Z) → result (list (list Z * list Z)))
    (n_splits : Z) (annotations : Annotations)
    (folds : list (Annotations * Annotations)) :
  kfold split n_splits annotations = Ok folds →
  Forall (λ fold, fold.1 = fold.2) folds ∧
  (∃ multi_hot splits,
     to_multi_hot annotations 3474 = Ok multi_hot ∧
     split n_splits 0 (seqZ 0 (Z.of_nat (length multi_hot))) multi_hot = Ok splits ∧
     Forall2 (λ s fold, gather annotations s.2 = Ok fold.1 ∧
                        gather annotations s.2 = Ok fold.2) splits folds) ∧
  kfold (forget_train split) n_splits annotations = Ok folds.
Proof.
  rewrite !kfold_unfold.
  intros (multi_hot & Hmh & H)%bind_Ok_inv.
  apply bind_Ok_inv in H as (splits & Hsplit & Hfolds).
  assert (Hparts : Forall2 (λ s fold, gather annotations s.2 = Ok fold.1 ∧
                        gather annotations s.2 = Ok fold.2) splits folds).
  { apply mapM_Ok_Forall2 in Hfolds.
    eapply Forall2_impl; [exact Hfolds|].
    intros [train test] parts Hp. by apply fold_of_Ok in Hp. }
  split_and!.
  - apply Forall_forall. intros fold Hin.
    apply list_elem_of_lookup in Hin as [i Hi].
    destruct (Forall2_lookup_r _ _ _ _ _ Hparts Hi) as (s & _ & H1 & H2).
    congruence.
  - eauto.
  - rewrite Hmh, bind_Ok. unfold forget_train. rewrite Hsplit.
    cbn [fmap result_fmap]. rewrite bind_Ok.
    by rewrite mapM_fold_of_forget.
Qed.

Lemma kfold_train_is_test_witness :
  kfold sample_split 2 [sample_pred; sample_other] =
    Ok [([sample_pred], [sample_pred]); ([sample_other], [sample_other])] ∧
  Forall (λ fold : Annotations * Annotations, fold.1 = fold.2)
    [([sample_pred], [sample_pred]); ([sample_other], [sample_other])] ∧
  (∃ multi_hot splits,
     to_multi_hot [sample_pred; sample_other] 3474 = Ok multi_hot ∧
     sample_split 2 0 (seqZ 0 (Z.of_nat (length multi_hot))) multi_hot = Ok splits ∧
     Forall2 (λ s fold,
                gather [sample_pred; sample_other] s.2 = Ok fold.1 ∧
                gather [sample_pred; sample_other] s.2 = Ok fold.2)
       splits
       [([sample_pred], [sample_pred]); ([sample_other], [sample_other])]) ∧
  kfold (forget_train sample_split) 2 [sample_pred; sample_other] =
    Ok [([sample_pred], [sample_pred]); ([sample_other], [sample_other])].
Proof.
  assert (H : kfold sample_split 2 [sample_pred; sample_other] =
    Ok [([sample_pred], [sample_pred]); ([sample_other], [sample_other])]).
  { vm_compute. reflexivity. }
  split; [exact H|].
  exact (kfold_train_is_test sample_split 2 _ _ H).
Defined.

(** ** The channel schedule *)

Lemma floordiv_Ok (a b : Z) : b ≠ 0 → floordiv a b = Ok (a / b).
Proof. intros Hb. unfold floordiv. by destruct (Z.eqb_spec b 0). Qed.

Lemma floordiv_zero (a : Z) : floordiv a 0 = Raise ZeroDivisionError.
Proof. reflexivity. Qed.

Lemma block_args_Ok (out_channels depth width i : Z) :
  depth ≠ 0 →
  SEResNeXt.block_args out_channels depth width i =
    Ok (schedule_entry out_channels depth width i).
Proof.
  intros Hd. unfold SEResNeXt.block_args.
  by rewrite !floordiv_Ok, !bind_Ok by done.
Qed.

Lemma mapM_Ok_fmap {A B} (f : A → result B) (g : A → B) (l : list A) :
  Forall (λ a, f a = Ok (g a)) l → mapM f l = Ok (g <$> l).
Proof.
  intros H. apply mapM_Ok_Forall2. apply Forall2_fmap_r.
  by apply Forall_Forall2_diag.
Qed.

(** The schedule always exists; it is empty when [depth <= 0]. *)
Lemma channel_schedule_Ok (out_channels depth width : Z) :
  SEResNeXt.channel_schedule out_channels depth width =
    Ok (schedule_entry out_channels depth width <$> seqZ 0 depth).
Proof.
  unfold SEResNeXt.channel_schedule. apply mapM_Ok_fmap.
  apply Forall_seqZ. intros i Hi. apply block_args_Ok. lia.
Qed.

(** The chain the schedule forms: it starts at [width], each block takes
    what the previous one gives, and it ends at
    [width + |out_channels - width|]. *)
Lemma channel_schedule_chain (out_channels depth width : Z) :
  0 < depth →
  ∃ sched, SEResNeXt.channel_schedule out_channels depth width = Ok sched ∧
    length sched = Z.to_nat depth ∧
    (∃ e, head sched = Some e ∧ e.1.1 = width) ∧
    (∀ (i : nat) a b, sched !! i = Some a → sched !! S i = Some b →
       a.1.2 = b.1.1) ∧
    (∃ e, last sched = Some e ∧ e.1.2 = width + Z.abs (out_channels - width)).
Proof.
  intros Hd. eexists. split; [apply channel_schedule_Ok|].
  split_and!.
  - by rewrite length_fmap, length_seqZ.
  - exists (schedule_entry out_channels depth width 0). split.
    + by rewrite seqZ_cons by lia.
    + unfold schedule_entry. simpl. rewrite Z.mul_0_r, Z.div_0_l by lia. lia.
  - intros i a b Ha Hb.
    apply list_lookup_fmap_Some in Ha as (ia & -> & Hia).
    apply list_lookup_fmap_Some in Hb as (ib & -> & Hib).
    apply lookup_seqZ in Hia as [-> _]. apply lookup_seqZ in Hib as [-> _].
    unfold schedule_entry. simpl. do 3 f_equal. lia.
  - exists (schedule_entry out_channels depth width (depth - 1)). split.
    + rewrite fmap_last, last_lookup, length_seqZ.
      rewrite lookup_seqZ_lt by lia. simpl. do 2 f_equal. lia.
    + unfold schedule_entry, SEResNeXt.diff. simpl.
      replace (depth - 1 + 1) with depth by lia.
      rewrite Z.div_mul by lia. done.
Qed.

(** The chain ends at [out_channels] when the backbone does not narrow. *)
Lemma channel_schedule_reaches_target (out_channels depth width : Z) :
  0 < depth → width ≤ out_channels →
  ∃ sched e, SEResNeXt.channel_schedule out_channels depth width = Ok sched ∧
    last sched = Some e ∧ e.1.2 = out_channels.
Proof.
  intros Hd Hw.
  destruct (channel_schedule_chain out_channels depth width Hd)
    as (sched & Hs & _ & _ & _ & e & He & Hout).
  exists sched, e. split_and!; [done..|]. lia.
Qed.

Lemma Conv2d_init_inv (cin cout k p d s g : Z) (b : bool) (c : Conv2d) :
  Conv2d_init cin cout k p d s g b = Ok c →
  in_channels c = cin ∧ out_channels c = cout ∧ conv_groups c = g.
Proof. unfold Conv2d_init. repeat case_match; by intros [= <-]. Qed.

Lemma ConvBR2d_init_inv (cin cout k p d s g : Z) (act : bool) (c : ConvBR2d.t) :
  ConvBR2d.init cin cout k p d s g act = Ok c →
  in_channels (ConvBR2d.conv c) = cin ∧
  out_channels (ConvBR2d.conv c) = cout ∧
  conv_groups (ConvBR2d.conv c) = g.
Proof.
  unfold ConvBR2d.init. intros (conv & Hconv & H)%bind_Ok_inv.
  apply bind_Ok_inv in H as (bn & _ & [= <-]).
  by apply Conv2d_init_inv in Hconv.
Qed.

(** The channel counts a block was built with can be read off its first
    and last convolution, the group count off the middle one. *)
Lemma bottleneck_init_channels (cin cout stride groups reduction : Z)
    (kind : pool_kind) (has_shortcut : bool) (blk : SENextBottleneck.t) :
  SENextBottleneck.init cin cout stride groups reduction kind has_shortcut
    = Ok blk →
  in_channels (ConvBR2d.conv (SENextBottleneck.conv1 blk)) = cin ∧
  out_channels (ConvBR2d.conv (SENextBottleneck.conv3 blk)) = cout ∧
  conv_groups (ConvBR2d.conv (SENextBottleneck.conv2 blk)) = groups.
Proof.
  unfold SENextBottleneck.init.
  intros (half & _ & H)%bind_Ok_inv.
  apply bind_Ok_inv in H as (per_group & _ & H).
  apply bind_Ok_inv in H as (c1 & H1 & H).
  apply bind_Ok_inv in H as (c2 & H2 & H).
  apply bind_Ok_inv in H as (c3 & H3 & H).
  apply bind_Ok_inv in H as (cse & _ & H).
  apply bind_Ok_inv in H as (sh & _ & [= <-]).
  cbn [SENextBottleneck.conv1 SENextBottleneck.conv2 SENextBottleneck.conv3].
  apply ConvBR2d_init_inv in H1 as (? & _ & _).
  apply ConvBR2d_init_inv in H2 as (_ & _ & ?).
  apply ConvBR2d_init_inv in H3 as (_ & ? & _). done.
Qed.

(** The blocks of a backbone are built on the entries of the schedule, in
    order. *)
Lemma init_follows_schedule (in_channels' out_channels' depth width : Z)
    (m : SEResNeXt.t) :
  SEResNeXt.init in_channels' out_channels' depth width = Ok m →
  Forall2
    (λ entry blk,
       in_channels (ConvBR2d.conv (SENextBottleneck.conv1 blk)) = entry.1.1 ∧
       out_channels (ConvBR2d.conv (SENextBottleneck.conv3 blk)) = entry.1.2 ∧
       conv_groups (ConvBR2d.conv (SENextBottleneck.conv2 blk)) = entry.2)
    (schedule_entry out_channels' depth width <$> seqZ 0 depth)
    (SEResNeXt.layer m).
Proof.
  unfold SEResNeXt.init. intros (c & _ & H)%bind_Ok_inv.
  apply bind_Ok_inv in H as (layer & Hlayer & [= <-]).
  cbn [SEResNeXt.layer]. apply mapM_Ok_Forall2 in Hlayer.
  apply Forall2_fmap_l.
  assert (Hin : Forall (λ i, 0 ≤ i < depth) (seqZ 0 depth))
    by (apply Forall_seqZ; lia).
  induction Hlayer as [|i blk rest blks Hblk _ IH]; [constructor|].
  apply Forall_cons in Hin as [Hi His].
  constructor; [|by apply IH].
  unfold SEResNeXt.make_block in Hblk.
  rewrite block_args_Ok in Hblk by lia.
  unfold schedule_entry in *. rewrite bind_Ok in Hblk.
  by apply bottleneck_init_channels in Hblk.
Qed.

(** C2, at a narrowing configuration.  With [width = 64],
    [out_channels = 32] and [depth = 2] the schedule climbs to 96: the
    last block's [out_channels] is not the configured output width, and
    the backbone is built with that block. *)
Theorem channel_schedule_misses_narrower_target :
  SEResNeXt.channel_schedule 32 2 64 = Ok [(64, 80, 32); (80, 96, 32)] ∧
  (∃ m blk, SEResNeXt.init 3 32 2 64 = Ok m ∧
     last (SEResNeXt.layer m) = Some blk ∧
     out_channels (ConvBR2d.conv (SENextBottleneck.conv3 blk)) = 96) ∧
  96 ≠ 32.
Proof.
  split_and!; [reflexivity | | lia].
  eexists _, _. split_and!; [vm_compute; reflexivity | reflexivity..].
Qed.

(** ** Construction *)

Lemma Conv2d_init_Ok (cin cout k p d s g : Z) (b : bool) :
  0 < g → cin mod g = 0 → cout mod g = 0 → 0 ≤ cin → 0 ≤ cout →
  Conv2d_init cin cout k p d s g b =
    Ok {| in_channels := cin; out_channels := cout; kernel_size := k;
          padding := p; dilation := d; conv_stride := s;
          conv_groups := g; bias := b |}.
Proof.
  intros Hg Hin Hout Hcin Hcout. unfold Conv2d_init.
  destruct (Z.leb_spec g 0); [lia|]. rewrite Hin, Hout. simpl.
  destruct (Z.ltb_spec cin 0); [lia|]. destruct (Z.ltb_spec cout 0); [lia|].
  reflexivity.
Qed.

Lemma ConvBR2d_init_Ok (cin cout k p d s : Z) (act : bool) :
  0 ≤ cin → 0 ≤ cout →
  ∃ c, ConvBR2d.init cin cout k p d s 1 act = Ok c.
Proof.
  intros Hcin Hcout. unfold ConvBR2d.init.
  rewrite Conv2d_init_Ok, bind_Ok by (lia || apply Z.mod_1_r).
  unfold BatchNorm2d_init. destruct (Z.ltb_spec cout 0); [lia|].
  rewrite bind_Ok. eauto.
Qed.

Lemma bottleneck_init_zero_groups (cin cout stride reduction : Z)
    (kind : pool_kind) (sc : bool) :
  SENextBottleneck.init cin cout stride 0 reduction kind sc =
    Raise ZeroDivisionError.
Proof. reflexivity. Qed.

Lemma make_block_zero_groups (out_channels depth width i : Z) :
  depth ≠ 0 → width / depth = 0 →
  SEResNeXt.make_block out_channels depth width i = Raise ZeroDivisionError.
Proof.
  intros Hd Hg. unfold SEResNeXt.make_block.
  rewrite block_args_Ok by done. unfold schedule_entry. rewrite Hg, bind_Ok.
  apply bottleneck_init_zero_groups.
Qed.

(** C7, amended.  A backbone of depth 0 is built, with an empty block
    stack, whenever its input convolution can be built (channel counts
    that are not negative); a configuration of positive depth with
    [width // depth == 0] always fails at construction time, and when the
    input convolution can be built ([in_channels] not negative) the
    failure is the [ZeroDivisionError] of the division by the zero group
    count in the first block. *)
Theorem backbone_construction (in_channels out_channels depth width : Z) :
  (depth = 0 → 0 ≤ in_channels → 0 ≤ width →
     ∃ m, SEResNeXt.init in_channels out_channels depth width = Ok m ∧
          SEResNeXt.layer m = []) ∧
  (0 < depth → width / depth = 0 →
     raises (SEResNeXt.init in_channels out_channels depth width) ∧
     (0 ≤ in_channels →
        SEResNeXt.init in_channels out_channels depth width =
          Raise ZeroDivisionError)).
Proof.
  split.
  - intros -> Hin Hw. unfold SEResNeXt.init.
    destruct (ConvBR2d_init_Ok in_channels width 1 0 1 1 false Hin Hw)
      as [c ->].
    rewrite bind_Ok. eexists. split; reflexivity.
  - intros Hd Hg.
    assert (Hblocks : ∀ c : ConvBR2d.t,
      (layer ← mapM (SEResNeXt.make_block out_channels depth width)
                    (seqZ 0 depth);
       Ok {| SEResNeXt.in_conv := c; SEResNeXt.layer := layer |}) =
      Raise ZeroDivisionError).
    { intros c. rewrite seqZ_cons by lia. cbn [mapM].
      by rewrite make_block_zero_groups by (lia || done). }
    split.
    + unfold SEResNeXt.init, raises.
      destruct (ConvBR2d.init in_channels width 1 0 1 1 1 false) as [c|e];
        [rewrite bind_Ok, Hblocks | ]; eauto.
    + intros Hin. unfold SEResNeXt.init.
      assert (Hw : 0 ≤ width).
      { destruct (Z.le_gt_cases 0 width) as [|Hneg]; [done|].
        pose proof (Z.div_lt_upper_bound width depth 0 Hd). lia. }
      destruct (ConvBR2d_init_Ok in_channels width 1 0 1 1 false Hin Hw)
        as [c ->].
      by rewrite bind_Ok, Hblocks.
Qed.

Lemma backbone_construction_witness :
  (0 = 0 → 0 ≤ 3 → 0 ≤ 32 →
     ∃ m, SEResNeXt.init 3 64 0 32 = Ok m ∧ SEResNeXt.layer m = []) ∧
  (0 < 4 → 3 / 4 = 0 →
     raises (SEResNeXt.init 3 64 4 3) ∧
     (0 ≤ 3 → SEResNeXt.init 3 64 4 3 = Raise ZeroDivisionError)) ∧
  (∃ m, SEResNeXt.init 3 64 0 32 = Ok m ∧ SEResNeXt.layer m = []) ∧
  SEResNeXt.init 3 64 4 3 = Raise ZeroDivisionError.
Proof.
  split_and!.
  - apply (backbone_construction 3 64 0 32).
  - apply (backbone_construction 3 64 4 3).
  - apply (backbone_construction 3 64 0 32); (reflexivity || lia).
  - apply (backbone_construction 3 64 4 3); (reflexivity || lia).
Defined.

(** C7 as stated fails: depth 0 is accepted, and the result is a backbone
    without blocks. *)
Lemma depth_zero_is_accepted :
  ∃ m, SEResNeXt.init 3 64 0 32 = Ok m ∧ SEResNeXt.layer m = [].
Proof. eexists. split; reflexivity. Qed.

Lemma cse_forward_steps `{TorchOps T} (squeeze excite : Conv2d) (x : T) :
  CSEModule.forward
    {| CSEModule.se :=
         [AdaptiveAvgPool2d 1; Conv squeeze; ReLU; Conv excite; Sigmoid] |} x =
    (pooled ← adaptive_avg_pool2d 1 x;
     hidden ← conv2d squeeze pooled;
     weights ← conv2d excite (relu hidden);
     tensor_mul x (sigmoid weights)).
Proof.
  unfold CSEModule.forward. cbn [CSEModule.se sequential layer_forward].
  destruct (adaptive_avg_pool2d 1 x) as [pooled|e]; [|reflexivity].
  rewrite !bind_Ok.
  destruct (conv2d squeeze pooled) as [hidden|e]; [|reflexivity].
  rewrite !bind_Ok.
  destruct (conv2d excite (relu hidden)) as [weights|e]; reflexivity.
Qed.

(** C8, amended.  Construction makes no divisibility check: for every
    channel count [C >= 0] and every [reduction > 0] it succeeds, and the
    module is the sequence global pool, 1x1 convolution
    [C -> C // reduction], rectifier, 1x1 convolution
    [C // reduction -> C], sigmoid, whose output multiplies the input;
    the hidden width is the floor of [C / reduction], which is
    [C / reduction] itself when [reduction] divides [C]. *)
Theorem cse_construction (C reduction : Z) :
  0 ≤ C → 0 < reduction →
  ∃ m, CSEModule.init C reduction = Ok m ∧
    CSEModule.se m =
      [AdaptiveAvgPool2d 1; Conv (conv1x1 C (C / reduction)); ReLU;
       Conv (conv1x1 (C / reduction) C); Sigmoid] ∧
    (C mod reduction = 0 → reduction * (C / reduction) = C) ∧
    ∀ T (ops : TorchOps T) (x : T),
      CSEModule.forward m x =
        (pooled ← adaptive_avg_pool2d 1 x;
         hidden ← conv2d (conv1x1 C (C / reduction)) pooled;
         weights ← conv2d (conv1x1 (C / reduction) C) (relu hidden);
         tensor_mul x (sigmoid weights)).
Proof.
  intros HC Hr.
  assert (0 ≤ C / reduction) by (apply Z.div_pos; lia).
  exists {| CSEModule.se :=
              [AdaptiveAvgPool2d 1; Conv (conv1x1 C (C / reduction)); ReLU;
               Conv (conv1x1 (C / reduction) C); Sigmoid] |}.
  split_and!.
  - unfold CSEModule.init. rewrite floordiv_Ok, bind_Ok by lia.
    rewrite Conv2d_init_Ok, !bind_Ok by (lia || apply Z.mod_1_r).
    rewrite Conv2d_init_Ok, bind_Ok by (lia || apply Z.mod_1_r).
    reflexivity.
  - reflexivity.
  - intros Hdiv. apply Z.div_exact in Hdiv; lia.
  - intros T ops x. apply cse_forward_steps.
Qed.

Lemma cse_construction_witness :
  0 ≤ 20 ∧ 0 < 16 ∧
  ∃ m, CSEModule.init 20 16 = Ok m ∧
    CSEModule.se m =
      [AdaptiveAvgPool2d 1; Conv (conv1x1 20 (20 / 16)); ReLU;
       Conv (conv1x1 (20 / 16) 20); Sigmoid] ∧
    (20 mod 16 = 0 → 16 * (20 / 16) = 20) ∧
    ∀ T (ops : TorchOps T) (x : T),
      CSEModule.forward m x =
        (pooled ← adaptive_avg_pool2d 1 x;
         hidden ← conv2d (conv1x1 20 (20 / 16)) pooled;
         weights ← conv2d (conv1x1 (20 / 16) 20) (relu hidden);
         tensor_mul x (sigmoid weights)).
Proof. split_and!; [lia..|]. apply (cse_construction 20 16); lia. Defined.

(** C8 as stated fails: 16 does not divide 20, and the module is built,
    with hidden width 1. *)
Lemma cse_accepts_indivisible_channels :
  20 mod 16 ≠ 0 ∧
  ∃ m squeeze, CSEModule.init 20 16 = Ok m ∧
    CSEModule.se m !! 1%nat = Some (Conv squeeze) ∧ out_channels squeeze = 1.
Proof.
  split; [discriminate|]. eexists _, _. split_and!; reflexivity.
Qed.

(** ** The bottleneck block *)

(** What a successful [SENextBottleneck.__init__] stored. *)
Lemma bottleneck_init_inv (cin cout stride groups reduction : Z)
    (kind : pool_kind) (has_shortcut : bool) (blk : SENextBottleneck.t) :
  SENextBottleneck.init cin cout stride groups reduction kind has_shortcut
    = Ok blk →
  SENextBottleneck.stride blk = stride ∧
  SENextBottleneck.is_shortcut blk = has_shortcut ∧
  SENextBottleneck.pool blk =
    (if 1 <? stride
     then Some (match kind with
                | PoolMax => MaxPool2d stride stride
                | PoolAvg => AvgPool2d stride stride
                end)
     else None) ∧
  (if has_shortcut
   then ∃ c, ConvBR2d.init cin cout 1 0 1 1 1 false = Ok c ∧
             SENextBottleneck.shortcut blk = Some c
   else SENextBottleneck.shortcut blk = None) ∧
  CSEModule.init cout reduction = Ok (SENextBottleneck.se blk).
Proof.
  unfold SENextBottleneck.init.
  intros (half & _ & H)%bind_Ok_inv.
  apply bind_Ok_inv in H as (per_group & _ & H).
  apply bind_Ok_inv in H as (c1 & _ & H).
  apply bind_Ok_inv in H as (c2 & _ & H).
  apply bind_Ok_inv in H as (c3 & _ & H).
  apply bind_Ok_inv in H as (cse & Hcse & H).
  apply bind_Ok_inv in H as (sh & Hsh & [= <-]).
  cbn [SENextBottleneck.stride SENextBottleneck.is_shortcut
       SENextBottleneck.pool SENextBottleneck.shortcut SENextBottleneck.se].
  split_and!; [done..| |done].
  destruct has_shortcut.
  - destruct (ConvBR2d.init cin cout 1 0 1 1 1 false) as [c|e];
      [|discriminate].
    cbn in Hsh. injection Hsh as <-. by exists c.
  - by injection Hsh as <-.
Qed.

(** On shapes the rectifier changes nothing, so without a shortcut the
    block returns what the broadcast of input and main branch returns. *)
Lemma broadcast_dim_refl (a : Z) : broadcast_dim a a = Ok a.
Proof. unfold broadcast_dim. by rewrite Z.eqb_refl. Qed.

Lemma broadcast_dim_cases (a b : Z) :
  (∃ c, broadcast_dim a b = Ok c ∧ ¬ clash a b) ∨
  (broadcast_dim a b = Raise RuntimeError ∧ clash a b).
Proof.
  unfold clash, broadcast_dim.
  destruct (Z.eqb_spec a b); [left; eexists; split; [done|tauto]|].
  destruct (Z.eqb_spec a 1); [left; eexists; split; [done|tauto]|].
  destruct (Z.eqb_spec b 1); [left; eexists; split; [done|tauto]|].
  right. done.
Qed.

(** Broadcasting fails exactly when some dimension clashes, and then
    with [RuntimeError]. *)
Lemma broadcast_cases (x y : Shape) :
  (∃ z, broadcast x y = Ok z ∧
        ¬ (clash (dimN x) (dimN y) ∨ clash (dimC x) (dimC y) ∨
           clash (dimH x) (dimH y) ∨ clash (dimW x) (dimW y))) ∨
  (broadcast x y = Raise RuntimeError ∧
   (clash (dimN x) (dimN y) ∨ clash (dimC x) (dimC y) ∨
    clash (dimH x) (dimH y) ∨ clash (dimW x) (dimW y))).
Proof.
  unfold broadcast.
  destruct (broadcast_dim_cases (dimN x) (dimN y)) as [(n & -> & Hn)|[-> Hn]];
    [rewrite bind_Ok | right; auto].
  destruct (broadcast_dim_cases (dimC x) (dimC y)) as [(c & -> & Hc)|[-> Hc]];
    [rewrite bind_Ok | right; auto].
  destruct (broadcast_dim_cases (dimH x) (dimH y)) as [(h & -> & Hh)|[-> Hh]];
    [rewrite bind_Ok | right; auto].
  destruct (broadcast_dim_cases (dimW x) (dimW y)) as [(w & -> & Hw)|[-> Hw]];
    [rewrite bind_Ok | right; auto].
  left. eexists. split; [done | tauto].
Qed.

Lemma broadcast_refl (x : Shape) : broadcast x x = Ok x.
Proof.
  unfold broadcast. rewrite !broadcast_dim_refl, !bind_Ok. by destruct x.
Qed.

Lemma pool_step_agrees `{TorchOps T} (cin cout stride groups reduction : Z)
    (kind : pool_kind) (has_shortcut : bool) (blk : SENextBottleneck.t) (s : T) :
  SENextBottleneck.init cin cout stride groups reduction kind has_shortcut
    = Ok blk →
  (if 1 <? stride then SENextBottleneck.call_pool blk s else Ok s) =
  pool_if_stride kind stride s.
Proof.
  intros (_ & _ & Hpool & _)%bottleneck_init_inv.
  unfold SENextBottleneck.call_pool, pool_if_stride. rewrite Hpool.
  by destruct (1 <? stride), kind.
Qed.

(** C1, amended.  For every block that [__init__] built:
    - [forward(x)] is [relu(shortcut_branch + attend(expand(pool(
      transform(compress(x))))))], the pooling applied only when
      [stride > 1];
    - with [has_shortcut] the branch is the 1x1 projection
      [in_channels -> out_channels] of the input, average-pooled by
      [stride] first when [stride > 1]; without it the branch is the raw
      input;
    - without [has_shortcut] the raw input is added to the main branch
      under broadcasting: on shapes the sum is defined unless some
      dimension differs with neither size equal to 1, in which case it
      is a [RuntimeError]; equal shapes always add. *)
Theorem bottleneck_forward (cin cout stride groups reduction : Z)
    (kind : pool_kind) (has_shortcut : bool) (blk : SENextBottleneck.t) :
  SENextBottleneck.init cin cout stride groups reduction kind has_shortcut
    = Ok blk →
  (∀ T (ops : TorchOps T) (x : T),
     SENextBottleneck.forward blk x =
       (s ← main_branch
              (ConvBR2d.forward (SENextBottleneck.conv1 blk))
              (ConvBR2d.forward (SENextBottleneck.conv2 blk))
              (pool_if_stride kind stride)
              (ConvBR2d.forward (SENextBottleneck.conv3 blk))
              (CSEModule.forward (SENextBottleneck.se blk)) x;
        branch ← shortcut_branch has_shortcut stride
                   (SENextBottleneck.call_shortcut blk) x;
        residual_merge branch s)) ∧
  (has_shortcut = true →
     ∃ c, ConvBR2d.init cin cout 1 0 1 1 1 false = Ok c ∧
       ∀ T (ops : TorchOps T) (x : T),
         SENextBottleneck.call_shortcut blk x = ConvBR2d.forward c x) ∧
  (has_shortcut = false →
     ∀ x s : Shape,
       main_branch
         (ConvBR2d.forward (SENextBottleneck.conv1 blk))
         (ConvBR2d.forward (SENextBottleneck.conv2 blk))
         (pool_if_stride kind stride)
         (ConvBR2d.forward (SENextBottleneck.conv3 blk))
         (CSEModule.forward (SENextBottleneck.se blk)) x = Ok s →
       SENextBottleneck.forward blk x = broadcast x s ∧
       (broadcast x s = Raise RuntimeError ↔
          clash (dimN x) (dimN s) ∨ clash (dimC x) (dimC s) ∨
          clash (dimH x) (dimH s) ∨ clash (dimW x) (dimW s)) ∧
       (¬ (clash (dimN x) (dimN s) ∨ clash (dimC x) (dimC s) ∨
           clash (dimH x) (dimH s) ∨ clash (dimW x) (dimW s)) →
          ∃ y, broadcast x s = Ok y) ∧
       (x = s → broadcast x s = Ok x)).
Proof.
  intros Hinit.
  pose proof (bottleneck_init_inv _ _ _ _ _ _ _ _ Hinit)
    as (Hstride & Hsc & Hpool & Hshort & _).
  assert (Hfwd : ∀ T (ops : TorchOps T) (x : T),
     SENextBottleneck.forward blk x =
       (s ← main_branch
              (ConvBR2d.forward (SENextBottleneck.conv1 blk))
              (ConvBR2d.forward (SENextBottleneck.conv2 blk))
              (pool_if_stride kind stride)
              (ConvBR2d.forward (SENextBottleneck.conv3 blk))
              (CSEModule.forward (SENextBottleneck.se blk)) x;
        branch ← shortcut_branch has_shortcut stride
                   (SENextBottleneck.call_shortcut blk) x;
        residual_merge branch s)).
  { intros T ops x.
    unfold SENextBottleneck.forward, main_branch, shortcut_branch,
      residual_merge.
    rewrite Hstride, Hsc.
    destruct (ConvBR2d.forward (SENextBottleneck.conv1 blk) x) as [s1|e];
      [rewrite !bind_Ok | reflexivity].
    destruct (ConvBR2d.forward (SENextBottleneck.conv2 blk) s1) as [s2|e];
      [rewrite !bind_Ok | reflexivity].
    rewrite (pool_step_agrees _ _ _ _ _ _ _ _ s2 Hinit).
    destruct (pool_if_stride kind stride s2) as [s3|e];
      [rewrite !bind_Ok | reflexivity].
    destruct (ConvBR2d.forward (SENextBottleneck.conv3 blk) s3) as [s4|e];
      [rewrite !bind_Ok | reflexivity].
    destruct (CSEModule.forward (SENextBottleneck.se blk) s4) as [s5|e];
      [rewrite !bind_Ok | reflexivity].
    destruct has_shortcut.
    - destruct (if 1 <? stride then avg_pool2d stride stride x else Ok x)
        as [xa|e]; [rewrite !bind_Ok | reflexivity].
      destruct (SENextBottleneck.call_shortcut blk xa) as [xp|e];
        [rewrite !bind_Ok | reflexivity].
      by destruct (tensor_add xp s5).
    - rewrite !bind_Ok. by destruct (tensor_add x s5). }
  split_and!.
  - exact Hfwd.
  - intros ->. destruct Hshort as (c & Hc & Hsome). exists c.
    split; [done|]. intros T ops x.
    unfold SENextBottleneck.call_shortcut. by rewrite Hsome.
  - intros -> x s Hmain. split_and!.
    + rewrite Hfwd, Hmain, bind_Ok.
      unfold shortcut_branch, residual_merge. rewrite bind_Ok.
      cbn [tensor_add shape_ops relu]. by destruct (broadcast x s).
    + destruct (broadcast_cases x s) as [(z & Hz & Hno)|[Hr Hyes]];
        rewrite ?Hz, ?Hr; split; (done || tauto).
    + intros Hno.
      destruct (broadcast_cases x s) as [(z & Hz & _)|[_ Hyes]];
        [eauto | tauto].
    + intros <-. apply broadcast_refl.
Qed.

Lemma bottleneck_forward_witness :
  ∃ blk, SENextBottleneck.init 64 64 1 32 16 PoolMax false = Ok blk ∧
  (∀ T (ops : TorchOps T) (x : T),
     SENextBottleneck.forward blk x =
       (s ← main_branch
              (ConvBR2d.forward (SENextBottleneck.conv1 blk))
              (ConvBR2d.forward (SENextBottleneck.conv2 blk))
              (pool_if_stride PoolMax 1)
              (ConvBR2d.forward (SENextBottleneck.conv3 blk))
              (CSEModule.forward (SENextBottleneck.se blk)) x;
        branch ← shortcut_branch false 1
                   (SENextBottleneck.call_shortcut blk) x;
        residual_merge branch s)) ∧
  (false = true →
     ∃ c, ConvBR2d.init 64 64 1 0 1 1 1 false = Ok c ∧
       ∀ T (ops : TorchOps T) (x : T),
         SENextBottleneck.call_shortcut blk x = ConvBR2d.forward c x) ∧
  (false = false →
     ∀ x s : Shape,
       main_branch
         (ConvBR2d.forward (SENextBottleneck.conv1 blk))
         (ConvBR2d.forward (SENextBottleneck.conv2 blk))
         (pool_if_stride PoolMax 1)
         (ConvBR2d.forward (SENextBottleneck.conv3 blk))
         (CSEModule.forward (SENextBottleneck.se blk)) x = Ok s →
       SENextBottleneck.forward blk x = broadcast x s ∧
       (broadcast x s = Raise RuntimeError ↔
          clash (dimN x) (dimN s) ∨ clash (dimC x) (dimC s) ∨
          clash (dimH x) (dimH s) ∨ clash (dimW x) (dimW s)) ∧
       (¬ (clash (dimN x) (dimN s) ∨ clash (dimC x) (dimC s) ∨
           clash (dimH x) (dimH s) ∨ clash (dimW x) (dimW s)) →
          ∃ y, broadcast x s = Ok y) ∧
       (x = s → broadcast x s = Ok x)).
Proof.
  eexists. split; [vm_compute; reflexivity|].
  apply (bottleneck_forward 64 64 1 32 16 PoolMax false).
  vm_compute; reflexivity.
Defined.

(** C1 as stated fails: without a shortcut, a block from 1 to 64 channels
    adds its one-channel input to the 64-channel main branch, and a block
    of stride 2 adds its 2x2 input to the 1x1 main branch; neither raises. *)
Lemma residual_add_broadcasts :
  (∃ blk, SENextBottleneck.init 1 64 1 32 16 PoolMax false = Ok blk ∧
     1 ≠ 64 ∧
     SENextBottleneck.forward blk
       {| dimN := 2; dimC := 1; dimH := 4; dimW := 4 |} =
       Ok {| dimN := 2; dimC := 64; dimH := 4; dimW := 4 |}) ∧
  (∃ blk, SENextBottleneck.init 64 64 2 32 16 PoolMax false = Ok blk ∧
     main_branch
       (ConvBR2d.forward (SENextBottleneck.conv1 blk))
       (ConvBR2d.forward (SENextBottleneck.conv2 blk))
       (pool_if_stride PoolMax 2)
       (ConvBR2d.forward (SENextBottleneck.conv3 blk))
       (CSEModule.forward (SENextBottleneck.se blk))
       {| dimN := 2; dimC := 64; dimH := 2; dimW := 2 |} =
       Ok {| dimN := 2; dimC := 64; dimH := 1; dimW := 1 |} ∧
     SENextBottleneck.forward blk
       {| dimN := 2; dimC := 64; dimH := 2; dimW := 2 |} =
       Ok {| dimN := 2; dimC := 64; dimH := 2; dimW := 2 |}).
Proof.
  split; eexists; (split; [vm_compute; reflexivity|]);
    split; (lia || (vm_compute; reflexivity)).
Qed.

(** * Further properties of app/models.py *)

(** ** Shapes through the primitive layers *)

Lemma window_out_stride_1 (h k p d : Z) :
  window_out h k p d 1 = h + 2 * p - d * (k - 1).
Proof. unfold window_out. rewrite Z.div_1_r. lia. Qed.

Lemma window_out_pool (h s : Z) : 0 < s → window_out h s 0 1 s = h / s.
Proof.
  intros Hs. unfold window_out.
  replace (h + 2 * 0 - 1 * (s - 1) - 1) with (h + (-1) * s) by lia.
  rewrite Z.div_add by lia. lia.
Qed.

Lemma Conv2d_init_fields (cin cout k p d s g : Z) (b : bool) (c : Conv2d) :
  Conv2d_init cin cout k p d s g b = Ok c →
  c = {| in_channels := cin; out_channels := cout; kernel_size := k;
         padding := p; dilation := d; conv_stride := s;
         conv_groups := g; bias := b |}.
Proof. unfold Conv2d_init. repeat case_match; by intros [= <-]. Qed.

Lemma shape_conv2d_inv (c : Conv2d) (x y : Shape) :
  shape_conv2d c x = Ok y →
  dimC x = in_channels c ∧ 0 < conv_stride c ∧
  y = {| dimN := dimN x; dimC := out_channels c;
         dimH := window_out (dimH x) (kernel_size c) (padding c) (dilation c)
                            (conv_stride c);
         dimW := window_out (dimW x) (kernel_size c) (padding c) (dilation c)
                            (conv_stride c) |} ∧
  0 < dimH y ∧ 0 < dimW y.
Proof.
  unfold shape_conv2d.
  destruct (Z.eqb_spec (dimC x) (in_channels c)); [|discriminate].
  destruct (Z.leb_spec (out_channels c) 0); [discriminate|].
  destruct (Z.leb_spec (conv_stride c) 0); [discriminate|]. cbn [negb].
  destruct (Z.leb_spec (window_out (dimH x) (kernel_size c) (padding c)
                          (dilation c) (conv_stride c)) 0); [discriminate|].
  destruct (Z.leb_spec (window_out (dimW x) (kernel_size c) (padding c)
                          (dilation c) (conv_stride c)) 0); [discriminate|].
  cbn [orb]. intros [= <-]. cbn. done.
Qed.

Lemma shape_conv2d_Ok (c : Conv2d) (x : Shape) :
  dimC x = in_channels c → 0 < out_channels c → 0 < conv_stride c →
  0 < window_out (dimH x) (kernel_size c) (padding c) (dilation c)
                 (conv_stride c) →
  0 < window_out (dimW x) (kernel_size c) (padding c) (dilation c)
                 (conv_stride c) →
  shape_conv2d c x =
    Ok {| dimN := dimN x; dimC := out_channels c;
          dimH := window_out (dimH x) (kernel_size c) (padding c) (dilation c)
                             (conv_stride c);
          dimW := window_out (dimW x) (kernel_size c) (padding c) (dilation c)
                             (conv_stride c) |}.
Proof.
  intros HC Hout Hs Hh Hw. unfold shape_conv2d.
  destruct (Z.eqb_spec (dimC x) (in_channels c)); [|done].
  destruct (Z.leb_spec (out_channels c) 0); [lia|].
  destruct (Z.leb_spec (conv_stride c) 0); [lia|]. cbn [negb].
  destruct (Z.leb_spec (window_out (dimH x) (kernel_size c) (padding c)
                          (dilation c) (conv_stride c)) 0); [lia|].
  destruct (Z.leb_spec (window_out (dimW x) (kernel_size c) (padding c)
                          (dilation c) (conv_stride c)) 0); [lia|].
  reflexivity.
Qed.

Lemma shape_conv2d_wrong_channels (c : Conv2d) (x : Shape) :
  dimC x ≠ in_channels c → shape_conv2d c x = Raise RuntimeError.
Proof.
  intros HC. unfold shape_conv2d.
  by destruct (Z.eqb_spec (dimC x) (in_channels c)).
Qed.

Lemma shape_batch_norm_inv (b : BatchNorm2d) (x y : Shape) :
  shape_batch_norm b x = Ok y →
  y = x ∧ dimC x = num_features b ∧ dimN x * dimH x * dimW x ≠ 1.
Proof.
  unfold shape_batch_norm.
  destruct (Z.eqb_spec (dimC x) (num_features b)); [|discriminate].
  destruct (Z.eqb_spec (dimN x * dimH x * dimW x) 1); [discriminate|].
  cbn [negb]. by intros [= <-].
Qed.

Lemma shape_batch_norm_Ok (b : BatchNorm2d) (x : Shape) :
  dimC x = num_features b → 1 < dimN x * dimH x * dimW x →
  shape_batch_norm b x = Ok x.
Proof.
  intros HC Hn. unfold shape_batch_norm.
  destruct (Z.eqb_spec (dimC x) (num_features b)); [|done].
  destruct (Z.eqb_spec (dimN x * dimH x * dimW x) 1); [lia|]. reflexivity.
Qed.

Lemma shape_pool2d_inv (k s : Z) (x y : Shape) :
  shape_pool2d k s x = Ok y →
  0 < k ∧ 0 < s ∧
  y = {| dimN := dimN x; dimC := dimC x;
         dimH := window_out (dimH x) k 0 1 s;
         dimW := window_out (dimW x) k 0 1 s |} ∧
  0 < dimH y ∧ 0 < dimW y.
Proof.
  unfold shape_pool2d.
  destruct (Z.leb_spec k 0); [discriminate|].
  destruct (Z.leb_spec s 0); [discriminate|]. cbn [orb].
  destruct (Z.leb_spec (window_out (dimH x) k 0 1 s) 0); [discriminate|].
  destruct (Z.leb_spec (window_out (dimW x) k 0 1 s) 0); [discriminate|].
  cbn [orb]. intros [= <-]. cbn. done.
Qed.

Lemma shape_pool2d_Ok (s : Z) (x : Shape) :
  0 < s → s ≤ dimH x → s ≤ dimW x →
  shape_pool2d s s x =
    Ok {| dimN := dimN x; dimC := dimC x;
          dimH := dimH x / s; dimW := dimW x / s |}.
Proof.
  intros Hs Hh Hw. unfold shape_pool2d. rewrite !window_out_pool by done.
  destruct (Z.leb_spec s 0); [lia|]. cbn [orb].
  assert (0 < dimH x / s) by (apply Z.div_str_pos; lia).
  assert (0 < dimW x / s) by (apply Z.div_str_pos; lia).
  destruct (Z.leb_spec (dimH x / s) 0); [lia|].
  destruct (Z.leb_spec (dimW x / s) 0); [lia|]. reflexivity.
Qed.

(** ** Shapes through [ConvBR2d] *)

Lemma ConvBR2d_init_fields (cin cout k p d s g : Z) (act : bool)
    (c : ConvBR2d.t) :
  ConvBR2d.init cin cout k p d s g act = Ok c →
  c = {| ConvBR2d.conv :=
           {| in_channels := cin; out_channels := cout; kernel_size := k;
              padding := p; dilation := d; conv_stride := s;
              conv_groups := g; bias := false |};
         ConvBR2d.bn := {| num_features := cout |};
         ConvBR2d.is_activation := act |}.
Proof.
  unfold ConvBR2d.init. intros (conv & Hconv & H)%bind_Ok_inv.
  apply bind_Ok_inv in H as (bn & Hbn & [= <-]).
  apply Conv2d_init_fields in Hconv as ->.
  unfold BatchNorm2d_init in Hbn. case_match; [discriminate|].
  by injection Hbn as <-.
Qed.

Lemma ConvBR2d_shape_inv (cin cout k p d s g : Z) (act : bool)
    (c : ConvBR2d.t) (x y : Shape) :
  ConvBR2d.init cin cout k p d s g act = Ok c →
  ConvBR2d.forward c x = Ok y →
  dimC x = cin ∧ y = conv_shape cout k p d s x ∧
  0 < dimH y ∧ 0 < dimW y ∧ dimN y * dimH y * dimW y ≠ 1.
Proof.
  intros ->%ConvBR2d_init_fields. unfold ConvBR2d.forward.
  cbn [ConvBR2d.conv ConvBR2d.bn ConvBR2d.is_activation conv2d batch_norm
       relu shape_ops].
  intros (y1 & Hconv & H)%bind_Ok_inv.
  apply bind_Ok_inv in H as (y2 & Hbn & H).
  apply shape_conv2d_inv in Hconv as (HC & _ & -> & Hh & Hw).
  apply shape_batch_norm_inv in Hbn as (-> & _ & Hn).
  cbn in *. assert (y = conv_shape cout k p d s x) as ->.
  { by destruct act; injection H as <-. }
  done.
Qed.

Lemma ConvBR2d_shape_Ok (cin cout k p d g : Z) (act : bool)
    (c : ConvBR2d.t) (x : Shape) :
  ConvBR2d.init cin cout k p d 1 g act = Ok c →
  dimC x = cin → 0 < cout →
  0 < window_out (dimH x) k p d 1 → 0 < window_out (dimW x) k p d 1 →
  1 < dimN x * window_out (dimH x) k p d 1 * window_out (dimW x) k p d 1 →
  ConvBR2d.forward c x = Ok (conv_shape cout k p d 1 x).
Proof.
  intros ->%ConvBR2d_init_fields HC Hout Hh Hw Hn. unfold ConvBR2d.forward.
  cbn [ConvBR2d.conv ConvBR2d.bn ConvBR2d.is_activation conv2d batch_norm
       relu shape_ops].
  rewrite shape_conv2d_Ok by (cbn; (done || lia)).
  rewrite bind_Ok. cbn [in_channels out_channels kernel_size padding dilation
                         conv_stride].
  rewrite shape_batch_norm_Ok by (cbn; (done || lia)).
  rewrite bind_Ok. by destruct act.
Qed.

Lemma ConvBR2d_shape_wrong_channels (cin cout k p d s g : Z) (act : bool)
    (c : ConvBR2d.t) (x : Shape) :
  ConvBR2d.init cin cout k p d s g act = Ok c →
  dimC x ≠ cin → ConvBR2d.forward c x = Raise RuntimeError.
Proof.
  intros ->%ConvBR2d_init_fields HC. unfold ConvBR2d.forward.
  cbn [ConvBR2d.conv conv2d shape_ops].
  by rewrite shape_conv2d_wrong_channels.
Qed.

(** ** Shapes through the attention modules *)

Lemma cse_init_inv (C reduction : Z) (m : CSEModule.t) :
  CSEModule.init C reduction = Ok m →
  m = {| CSEModule.se :=
           [AdaptiveAvgPool2d 1; Conv (conv1x1 C (C / reduction)); ReLU;
            Conv (conv1x1 (C / reduction) C); Sigmoid] |}.
Proof.
  unfold CSEModule.init. intros (h1 & Hh1 & H)%bind_Ok_inv.
  apply bind_Ok_inv in H as (c1 & Hc1 & H).
  apply bind_Ok_inv in H as (h2 & Hh2 & H).
  apply bind_Ok_inv in H as (c2 & Hc2 & [= <-]).
  unfold floordiv in *. destruct (reduction =? 0); [discriminate|].
  injection Hh1 as <-. injection Hh2 as <-.
  apply Conv2d_init_fields in Hc1 as ->.
  by apply Conv2d_init_fields in Hc2 as ->.
Qed.

Lemma broadcast_dim_1_r (a : Z) : broadcast_dim a 1 = Ok a.
Proof.
  unfold broadcast_dim. destruct (Z.eqb_spec a 1) as [->|]; [done|].
  by rewrite Z.eqb_refl.
Qed.

(** The gate of channel attention has one value per channel and
    broadcasts over the input it gates. *)
Lemma broadcast_channel_gate (x : Shape) :
  broadcast x {| dimN := dimN x; dimC := dimC x; dimH := 1; dimW := 1 |} = Ok x.
Proof.
  unfold broadcast. cbn. rewrite !broadcast_dim_refl, !broadcast_dim_1_r.
  by destruct x.
Qed.

(** The gate of spatial attention has one value per position. *)
Lemma broadcast_spatial_gate (x : Shape) :
  broadcast x {| dimN := dimN x; dimC := 1; dimH := dimH x; dimW := dimW x |}
    = Ok x.
Proof.
  unfold broadcast. cbn. rewrite !broadcast_dim_refl, !broadcast_dim_1_r.
  by destruct x.
Qed.

Lemma cse_shape (C reduction : Z) (m : CSEModule.t) (x : Shape) :
  CSEModule.init C reduction = Ok m →
  (dimC x = C → 0 < C → 0 < C / reduction → CSEModule.forward m x = Ok x) ∧
  (dimC x ≠ C → CSEModule.forward m x = Raise RuntimeError).
Proof.
  intros ->%cse_init_inv. rewrite cse_forward_steps.
  cbn [adaptive_avg_pool2d conv2d relu sigmoid tensor_mul shape_ops].
  unfold shape_adaptive_avg_pool2d. rewrite bind_Ok. split.
  - intros HC Hpos Hhidden.
    rewrite shape_conv2d_Ok by (cbn; (done || lia)). rewrite bind_Ok.
    rewrite shape_conv2d_Ok by (cbn; (done || lia)). rewrite bind_Ok.
    cbn. rewrite <- HC. apply broadcast_channel_gate.
  - intros HC. by rewrite shape_conv2d_wrong_channels.
Qed.

(** Channel attention returns its input or raises. *)
Lemma cse_shape_inv (C reduction : Z) (m : CSEModule.t) (x y : Shape) :
  CSEModule.init C reduction = Ok m →
  CSEModule.forward m x = Ok y → y = x.
Proof.
  intros ->%cse_init_inv. rewrite cse_forward_steps.
  cbn [adaptive_avg_pool2d conv2d relu sigmoid tensor_mul shape_ops].
  unfold shape_adaptive_avg_pool2d. rewrite bind_Ok.
  intros (hidden & Hhidden & H)%bind_Ok_inv.
  apply bind_Ok_inv in H as (weights & Hweights & H).
  apply shape_conv2d_inv in Hhidden as (HC & _ & -> & _).
  apply shape_conv2d_inv in Hweights as (_ & _ & -> & _).
  cbn in HC, H.
  change (window_out (window_out 1 1 0 1 1) 1 0 1 1) with 1 in H.
  rewrite <- HC, broadcast_channel_gate in H. by injection H as <-.
Qed.

Lemma BatchNorm2d_init_Ok (n : Z) :
  0 ≤ n → BatchNorm2d_init n = Ok {| num_features := n |}.
Proof.
  intros Hn. unfold BatchNorm2d_init. by destruct (Z.ltb_spec n 0); [lia|].
Qed.

Lemma cse_init_Ok (C reduction : Z) :
  0 ≤ C → 0 < reduction → ∃ m, CSEModule.init C reduction = Ok m.
Proof.
  intros HC Hr. assert (0 ≤ C / reduction) by (apply Z.div_pos; lia).
  unfold CSEModule.init. rewrite floordiv_Ok, bind_Ok by lia.
  rewrite Conv2d_init_Ok, !bind_Ok by (lia || apply Z.mod_1_r).
  rewrite Conv2d_init_Ok, bind_Ok by (lia || apply Z.mod_1_r). eauto.
Qed.

Lemma sse_init_Ok (C : Z) :
  0 ≤ C →
  SSEModule.init C = Ok {| SSEModule.se := [Conv (conv1x1 C 1); Sigmoid] |}.
Proof.
  intros HC. unfold SSEModule.init.
  by rewrite Conv2d_init_Ok, bind_Ok by (lia || apply Z.mod_1_r).
Qed.

Lemma sse_shape (C : Z) (x : Shape) :
  (dimC x = C → 0 < dimH x → 0 < dimW x →
     SSEModule.forward
       {| SSEModule.se := [Conv (conv1x1 C 1); Sigmoid] |} x = Ok x) ∧
  (dimC x ≠ C →
     SSEModule.forward
       {| SSEModule.se := [Conv (conv1x1 C 1); Sigmoid] |} x
       = Raise RuntimeError).
Proof.
  unfold SSEModule.forward.
  cbn [SSEModule.se sequential layer_forward conv2d sigmoid tensor_mul
       shape_ops].
  split.
  - intros HC Hh Hw.
    rewrite shape_conv2d_Ok
      by (cbn; rewrite ?window_out_stride_1; (done || lia)).
    rewrite !bind_Ok. cbn. rewrite !window_out_stride_1.
    replace (dimH x + 2 * 0 - 1 * (1 - 1)) with (dimH x) by lia.
    replace (dimW x + 2 * 0 - 1 * (1 - 1)) with (dimW x) by lia.
    apply broadcast_spatial_gate.
  - intros HC. by rewrite shape_conv2d_wrong_channels.
Qed.

(** X1.  Channel attention built for [C] channels with
    [0 < reduction <= C] returns a tensor of the shape of its input
    whenever the input has [C] channels, whatever the batch and spatial
    sizes, and fails on an input with any other channel count. *)
Theorem channel_attention_keeps_shape (C reduction : Z) :
  0 < reduction ≤ C →
  ∃ m, CSEModule.init C reduction = Ok m ∧
    ∀ x : Shape,
      (dimC x = C → CSEModule.forward m x = Ok x) ∧
      (dimC x ≠ C → CSEModule.forward m x = Raise RuntimeError).
Proof.
  intros Hr. destruct (cse_init_Ok C reduction) as [m Hm]; [lia..|].
  exists m. split; [done|]. intros x.
  destruct (cse_shape C reduction m x Hm) as [Hok Hbad]. split; [|done].
  intros HC. apply Hok; [done | lia | apply Z.div_str_pos; lia].
Qed.

Lemma channel_attention_keeps_shape_witness :
  0 < 16 ≤ 1039 ∧
  ∃ m, CSEModule.init 1039 16 = Ok m ∧
    ∀ x : Shape,
      (dimC x = 1039 → CSEModule.forward m x = Ok x) ∧
      (dimC x ≠ 1039 → CSEModule.forward m x = Raise RuntimeError).
Proof. split; [lia | apply (channel_attention_keeps_shape 1039 16); lia]. Defined.

(** X2.  Spatial attention built for [C >= 1] channels returns a tensor of
    the shape of its input whenever the input has [C] channels and a
    non-empty spatial extent, and fails on any other channel count. *)
Theorem spatial_attention_keeps_shape (C : Z) :
  1 ≤ C →
  ∃ m, SSEModule.init C = Ok m ∧
    ∀ x : Shape,
      (dimC x = C → 0 < dimH x → 0 < dimW x → SSEModule.forward m x = Ok x) ∧
      (dimC x ≠ C → SSEModule.forward m x = Raise RuntimeError).
Proof.
  intros HC. eexists. split; [apply sse_init_Ok; lia|].
  intros x. apply sse_shape.
Qed.

Lemma spatial_attention_keeps_shape_witness :
  1 ≤ 64 ∧
  ∃ m, SSEModule.init 64 = Ok m ∧
    ∀ x : Shape,
      (dimC x = 64 → 0 < dimH x → 0 < dimW x → SSEModule.forward m x = Ok x) ∧
      (dimC x ≠ 64 → SSEModule.forward m x = Raise RuntimeError).
Proof. split; [lia | apply (spatial_attention_keeps_shape 64); lia]. Defined.

(** X3.  Combined attention built for [C] channels with
    [0 < reduction <= C] is built, and on every input with [C] channels
    and a non-empty spatial extent ([H, W >= 1]) it returns a tensor of
    the shape of its input: the two gated copies have the same shape and
    add without broadcasting.  An input with another channel count is a
    shape error. *)
Theorem combined_attention_keeps_shape (C reduction : Z) :
  0 < reduction ≤ C →
  ∃ m, SCSEModule.init C reduction = Ok m ∧
    ∀ x : Shape,
      (dimC x = C → 0 < dimH x → 0 < dimW x → SCSEModule.forward m x = Ok x) ∧
      (dimC x ≠ C → SCSEModule.forward m x = Raise RuntimeError).
Proof.
  intros Hr. destruct (cse_init_Ok C reduction) as [c Hc]; [lia..|].
  eexists. split.
  - unfold SCSEModule.init. rewrite Hc, bind_Ok.
    rewrite sse_init_Ok, bind_Ok by lia. reflexivity.
  - intros x. unfold SCSEModule.forward.
    cbn [SCSEModule.c_se SCSEModule.s_se].
    destruct (cse_shape C reduction c x Hc) as [Hok Hbad].
    destruct (sse_shape C x) as [Hsok _]. split.
    + intros HC Hh Hw.
      rewrite Hok, bind_Ok by (done || lia || apply Z.div_str_pos; lia).
      rewrite Hsok, bind_Ok by done. apply broadcast_refl.
    + intros HC. by rewrite Hbad.
Qed.

Lemma combined_attention_keeps_shape_witness :
  0 < 16 ≤ 64 ∧
  ∃ m, SCSEModule.init 64 16 = Ok m ∧
    ∀ x : Shape,
      (dimC x = 64 → 0 < dimH x → 0 < dimW x → SCSEModule.forward m x = Ok x) ∧
      (dimC x ≠ 64 → SCSEModule.forward m x = Raise RuntimeError).
Proof. split; [lia | apply (combined_attention_keeps_shape 64 16); lia]. Defined.

(** X4.  [DoubleConv] from [cin >= 1] to [cout >= 1] channels maps an
    input of shape [(N, cin, H, W)] holding more than one value per
    channel to the shape [(N, cout, H, W)]: both 3x3 convolutions pad by
    1 and keep the spatial extent. *)
Theorem double_conv_shape (cin cout : Z) :
  1 ≤ cin → 1 ≤ cout →
  ∃ m, DoubleConv.init cin cout = Ok m ∧
    ∀ x : Shape,
      dimC x = cin → 0 < dimH x → 0 < dimW x →
      1 < dimN x * dimH x * dimW x →
      DoubleConv.forward m x =
        Ok {| dimN := dimN x; dimC := cout; dimH := dimH x; dimW := dimW x |}.
Proof.
  intros Hcin Hcout. eexists. split.
  - unfold DoubleConv.init.
    rewrite (Conv2d_init_Ok cin cout), bind_Ok by (lia || apply Z.mod_1_r).
    rewrite BatchNorm2d_init_Ok, bind_Ok by lia.
    rewrite (Conv2d_init_Ok cout cout), !bind_Ok by (lia || apply Z.mod_1_r).
    reflexivity.
  - intros x HC Hh Hw Hn. unfold DoubleConv.forward.
    cbn [DoubleConv.conv_a DoubleConv.bn_a DoubleConv.conv_b DoubleConv.bn_b
         conv2d batch_norm relu shape_ops].
    rewrite shape_conv2d_Ok
      by (cbn; rewrite ?window_out_stride_1; (done || lia)).
    rewrite bind_Ok. cbn [in_channels out_channels kernel_size padding
                           dilation conv_stride].
    rewrite !window_out_stride_1.
    replace (dimH x + 2 * 1 - 1 * (3 - 1)) with (dimH x) by lia.
    replace (dimW x + 2 * 1 - 1 * (3 - 1)) with (dimW x) by lia.
    rewrite shape_batch_norm_Ok by (cbn; (done || lia)). rewrite bind_Ok.
    rewrite shape_conv2d_Ok
      by (cbn; rewrite ?window_out_stride_1; (done || lia)).
    rewrite bind_Ok. cbn [in_channels out_channels kernel_size padding
                           dilation conv_stride dimN dimC dimH dimW].
    rewrite !window_out_stride_1.
    replace (dimH x + 2 * 1 - 1 * (3 - 1)) with (dimH x) by lia.
    replace (dimW x + 2 * 1 - 1 * (3 - 1)) with (dimW x) by lia.
    rewrite shape_batch_norm_Ok by (cbn; (done || lia)). by rewrite bind_Ok.
Qed.

Lemma double_conv_shape_witness :
  1 ≤ 3 ∧ 1 ≤ 64 ∧
  ∃ m, DoubleConv.init 3 64 = Ok m ∧
    ∀ x : Shape,
      dimC x = 3 → 0 < dimH x → 0 < dimW x →
      1 < dimN x * dimH x * dimW x →
      DoubleConv.forward m x =
        Ok {| dimN := dimN x; dimC := 64; dimH := dimH x; dimW := dimW x |}.
Proof. split_and!; [lia..|]. apply (double_conv_shape 3 64); lia. Defined.

(** ** Shapes through the bottleneck block *)

(** The forward pass in steps, for any tensor implementation. *)
Lemma bottleneck_forward_steps `{TorchOps T} (cin cout stride groups reduction : Z)
    (kind : pool_kind) (has_shortcut : bool) (blk : SENextBottleneck.t) (x : T) :
  SENextBottleneck.init cin cout stride groups reduction kind has_shortcut
    = Ok blk →
  SENextBottleneck.forward blk x =
    (s ← main_branch
           (ConvBR2d.forward (SENextBottleneck.conv1 blk))
           (ConvBR2d.forward (SENextBottleneck.conv2 blk))
           (pool_if_stride kind stride)
           (ConvBR2d.forward (SENextBottleneck.conv3 blk))
           (CSEModule.forward (SENextBottleneck.se blk)) x;
     branch ← shortcut_branch has_shortcut stride
                (SENextBottleneck.call_shortcut blk) x;
     residual_merge branch s).
Proof.
  intros Hinit.
  pose proof (bottleneck_init_inv _ _ _ _ _ _ _ _ Hinit)
    as (Hstride & Hsc & _).
  unfold SENextBottleneck.forward, main_branch, shortcut_branch,
    residual_merge.
  rewrite Hstride, Hsc.
  destruct (ConvBR2d.forward (SENextBottleneck.conv1 blk) x) as [s1|e];
    [rewrite !bind_Ok | reflexivity].
  destruct (ConvBR2d.forward (SENextBottleneck.conv2 blk) s1) as [s2|e];
    [rewrite !bind_Ok | reflexivity].
  rewrite (pool_step_agrees _ _ _ _ _ _ _ _ s2 Hinit).
  destruct (pool_if_stride kind stride s2) as [s3|e];
    [rewrite !bind_Ok | reflexivity].
  destruct (ConvBR2d.forward (SENextBottleneck.conv3 blk) s3) as [s4|e];
    [rewrite !bind_Ok | reflexivity].
  destruct (CSEModule.forward (SENextBottleneck.se blk) s4) as [s5|e];
    [rewrite !bind_Ok | reflexivity].
  destruct has_shortcut.
  - destruct (if 1 <? stride then avg_pool2d stride stride x else Ok x)
      as [xa|e]; [rewrite !bind_Ok | reflexivity].
    destruct (SENextBottleneck.call_shortcut blk xa) as [xp|e];
      [rewrite !bind_Ok | reflexivity].
    by destruct (tensor_add xp s5).
  - rewrite !bind_Ok. by destruct (tensor_add x s5).
Qed.

(** The sub-modules a successful [__init__] built. *)
Lemma bottleneck_init_fields (cin cout stride groups reduction : Z)
    (kind : pool_kind) (has_shortcut : bool) (blk : SENextBottleneck.t) :
  SENextBottleneck.init cin cout stride groups reduction kind has_shortcut
    = Ok blk →
  groups ≠ 0 ∧
  ConvBR2d.init cin (mid_channels cout groups) 1 0 1 1 1 true
    = Ok (SENextBottleneck.conv1 blk) ∧
  ConvBR2d.init (mid_channels cout groups) (mid_channels cout groups)
                3 1 1 1 groups true
    = Ok (SENextBottleneck.conv2 blk) ∧
  ConvBR2d.init (mid_channels cout groups) cout 1 0 1 1 1 false
    = Ok (SENextBottleneck.conv3 blk) ∧
  CSEModule.init cout reduction = Ok (SENextBottleneck.se blk).
Proof.
  unfold SENextBottleneck.init, mid_channels.
  intros (half & Hhalf & H)%bind_Ok_inv.
  apply bind_Ok_inv in H as (per_group & Hper & H).
  apply bind_Ok_inv in H as (c1 & H1 & H).
  apply bind_Ok_inv in H as (c2 & H2 & H).
  apply bind_Ok_inv in H as (c3 & H3 & H).
  apply bind_Ok_inv in H as (cse & Hcse & H).
  apply bind_Ok_inv in H as (sh & _ & [= <-]).
  injection Hhalf as <-. unfold floordiv in Hper.
  destruct (Z.eqb_spec groups 0); [discriminate|]. injection Hper as <-.
  cbn [SENextBottleneck.conv1 SENextBottleneck.conv2 SENextBottleneck.conv3
       SENextBottleneck.se].
  done.
Qed.

Lemma mid_channels_bounds (cout groups : Z) :
  0 < groups → groups ≤ cout / 2 →
  groups ≤ mid_channels cout groups ≤ cout / 2 ∧
  cout / 2 - groups < mid_channels cout groups ∧
  mid_channels cout groups mod groups = 0.
Proof.
  intros Hg Hc. unfold mid_channels.
  pose proof (Z.mul_div_le (cout / 2) groups Hg).
  pose proof (Z.mul_succ_div_gt (cout / 2) groups Hg).
  assert (1 ≤ cout / 2 / groups) by (apply Z.div_le_lower_bound; lia).
  split_and!; [nia | lia | lia |].
  rewrite Z.mul_comm. by apply Z.mod_mul; lia.
Qed.

Lemma ConvBR2d_init_grouped (cin cout k p d s g : Z) (act : bool) :
  0 < g → cin mod g = 0 → cout mod g = 0 → 0 ≤ cin → 0 ≤ cout →
  ConvBR2d.init cin cout k p d s g act =
    Ok {| ConvBR2d.conv :=
            {| in_channels := cin; out_channels := cout; kernel_size := k;
               padding := p; dilation := d; conv_stride := s;
               conv_groups := g; bias := false |};
          ConvBR2d.bn := {| num_features := cout |};
          ConvBR2d.is_activation := act |}.
Proof.
  intros. unfold ConvBR2d.init.
  rewrite Conv2d_init_Ok, bind_Ok by done.
  by rewrite BatchNorm2d_init_Ok, bind_Ok by done.
Qed.

(** Construction succeeds whenever no channel count degenerates. *)
Lemma bottleneck_init_Ok (cin cout stride groups reduction : Z)
    (kind : pool_kind) (has_shortcut : bool) :
  0 ≤ cin → 0 < groups → groups ≤ cout / 2 → 0 < reduction →
  ∃ blk, SENextBottleneck.init cin cout stride groups reduction kind
           has_shortcut = Ok blk.
Proof.
  intros Hcin Hg Hc Hr.
  destruct (mid_channels_bounds cout groups Hg Hc) as ([Hm1 Hm2] & _ & Hmod).
  assert (0 ≤ cout) by (pose proof (Z.mul_div_le cout 2); lia).
  unfold SENextBottleneck.init.
  rewrite (floordiv_Ok cout 2), bind_Ok by lia.
  rewrite (floordiv_Ok (cout / 2) groups), bind_Ok by lia.
  cbv zeta. fold (mid_channels cout groups).
  rewrite (ConvBR2d_init_grouped cin (mid_channels cout groups) 1 0 1 1 1),
    bind_Ok by (lia || apply Z.mod_1_r).
  rewrite (ConvBR2d_init_grouped (mid_channels cout groups)
             (mid_channels cout groups) 3 1 1 1 groups), bind_Ok
    by (lia || done).
  rewrite (ConvBR2d_init_grouped (mid_channels cout groups) cout 1 0 1 1 1),
    bind_Ok by (lia || apply Z.mod_1_r).
  destruct (cse_init_Ok cout reduction) as [cse ->]; [lia..|].
  rewrite bind_Ok.
  destruct has_shortcut.
  - rewrite (ConvBR2d_init_grouped cin cout 1 0 1 1 1)
      by (lia || apply Z.mod_1_r).
    cbn [fmap result_fmap]. rewrite bind_Ok. eauto.
  - rewrite bind_Ok. eauto.
Qed.

Lemma conv_shape_1x1 (cout : Z) (x : Shape) :
  conv_shape cout 1 0 1 1 x =
    {| dimN := dimN x; dimC := cout; dimH := dimH x; dimW := dimW x |}.
Proof. unfold conv_shape. rewrite !window_out_stride_1. f_equal; lia. Qed.

Lemma conv_shape_3x3 (cout : Z) (x : Shape) :
  conv_shape cout 3 1 1 1 x =
    {| dimN := dimN x; dimC := cout; dimH := dimH x; dimW := dimW x |}.
Proof. unfold conv_shape. rewrite !window_out_stride_1. f_equal; lia. Qed.

Lemma pool_if_stride_shape_inv (kind : pool_kind) (stride : Z) (x y : Shape) :
  pool_if_stride kind stride x = Ok y →
  y = {| dimN := dimN x; dimC := dimC x;
         dimH := pooled stride (dimH x); dimW := pooled stride (dimW x) |}.
Proof.
  unfold pool_if_stride, pooled. destruct (Z.ltb_spec 1 stride).
  - intros Hp. assert (shape_pool2d stride stride x = Ok y) as Hy
      by (by destruct kind).
    apply shape_pool2d_inv in Hy as (_ & _ & -> & _).
    by rewrite !window_out_pool by lia.
  - intros [= <-]. by destruct x.
Qed.

Lemma pool_if_stride_shape_Ok (kind : pool_kind) (stride : Z) (x : Shape) :
  stride ≤ 1 ∨ (stride ≤ dimH x ∧ stride ≤ dimW x) →
  pool_if_stride kind stride x =
    Ok {| dimN := dimN x; dimC := dimC x;
          dimH := pooled stride (dimH x); dimW := pooled stride (dimW x) |}.
Proof.
  unfold pool_if_stride, pooled. intros Hs. destruct (Z.ltb_spec 1 stride).
  - assert (shape_pool2d stride stride x =
            Ok {| dimN := dimN x; dimC := dimC x;
                  dimH := dimH x / stride; dimW := dimW x / stride |}) as Hy
      by (apply shape_pool2d_Ok; lia).
    by destruct kind.
  - by destruct x.
Qed.

Lemma main_branch_shape_inv (cin cout stride groups reduction : Z)
    (kind : pool_kind) (has_shortcut : bool) (blk : SENextBottleneck.t)
    (x s : Shape) :
  SENextBottleneck.init cin cout stride groups reduction kind has_shortcut
    = Ok blk →
  main_branch
    (ConvBR2d.forward (SENextBottleneck.conv1 blk))
    (ConvBR2d.forward (SENextBottleneck.conv2 blk))
    (pool_if_stride kind stride)
    (ConvBR2d.forward (SENextBottleneck.conv3 blk))
    (CSEModule.forward (SENextBottleneck.se blk)) x = Ok s →
  dimC x = cin ∧ s = main_shape cout stride x.
Proof.
  intros (_ & H1 & H2 & H3 & Hse)%bottleneck_init_fields.
  unfold main_branch. intros (s1 & Hs1 & H)%bind_Ok_inv.
  apply bind_Ok_inv in H as (s2 & Hs2 & H).
  apply bind_Ok_inv in H as (s3 & Hs3 & H).
  apply bind_Ok_inv in H as (s4 & Hs4 & Hs5).
  apply (ConvBR2d_shape_inv _ _ _ _ _ _ _ _ _ _ _ H1) in Hs1 as (HC & -> & _).
  apply (ConvBR2d_shape_inv _ _ _ _ _ _ _ _ _ _ _ H2) in Hs2 as (_ & -> & _).
  apply pool_if_stride_shape_inv in Hs3 as ->.
  apply (ConvBR2d_shape_inv _ _ _ _ _ _ _ _ _ _ _ H3) in Hs4 as (_ & -> & _).
  rewrite conv_shape_1x1, conv_shape_3x3 in Hs5. rewrite conv_shape_1x1 in Hs5.
  cbn [dimN dimC dimH dimW] in Hs5.
  by apply (cse_shape_inv _ _ _ _ _ Hse) in Hs5 as ->.
Qed.

Lemma main_branch_shape_Ok (cin cout stride groups reduction : Z)
    (kind : pool_kind) (has_shortcut : bool) (blk : SENextBottleneck.t)
    (x : Shape) :
  SENextBottleneck.init cin cout stride groups reduction kind has_shortcut
    = Ok blk →
  0 < groups ≤ cout / 2 → 0 < reduction ≤ cout →
  dimC x = cin → 0 < dimH x → 0 < dimW x →
  stride ≤ 1 ∨ (stride ≤ dimH x ∧ stride ≤ dimW x) →
  1 < dimN x * pooled stride (dimH x) * pooled stride (dimW x) →
  main_branch
    (ConvBR2d.forward (SENextBottleneck.conv1 blk))
    (ConvBR2d.forward (SENextBottleneck.conv2 blk))
    (pool_if_stride kind stride)
    (ConvBR2d.forward (SENextBottleneck.conv3 blk))
    (CSEModule.forward (SENextBottleneck.se blk)) x
    = Ok (main_shape cout stride x).
Proof.
  intros (_ & H1 & H2 & H3 & Hse)%bottleneck_init_fields Hg Hr HC Hh Hw Hs Hn.
  destruct (mid_channels_bounds cout groups) as [Hmid _]; [lia..|].
  assert (Hhidden : 0 < cout / reduction) by (apply Z.div_str_pos; lia).
  assert (Hph : 0 < pooled stride (dimH x) ≤ dimH x).
  { unfold pooled. destruct (Z.ltb_spec 1 stride); [|lia]. split.
    - apply Z.div_str_pos; lia.
    - apply Z.div_le_upper_bound; nia. }
  assert (Hpw : 0 < pooled stride (dimW x) ≤ dimW x).
  { unfold pooled. destruct (Z.ltb_spec 1 stride); [|lia]. split.
    - apply Z.div_str_pos; lia.
    - apply Z.div_le_upper_bound; nia. }
  assert (HN : 0 < dimN x) by nia.
  assert (Hfull : 1 < dimN x * dimH x * dimW x).
  { assert (dimN x * pooled stride (dimH x) ≤ dimN x * dimH x) by nia.
    assert (0 < dimN x * pooled stride (dimH x)) by nia.
    nia. }
  unfold main_branch.
  rewrite (ConvBR2d_shape_Ok _ _ _ _ _ _ _ _ x H1)
    by (rewrite ?window_out_stride_1; lia).
  rewrite bind_Ok, conv_shape_1x1.
  rewrite (ConvBR2d_shape_Ok _ _ _ _ _ _ _ _ _ H2)
    by (cbn [dimN dimC dimH dimW]; rewrite ?window_out_stride_1; (done || lia)).
  rewrite bind_Ok, conv_shape_3x3. cbn [dimN dimC dimH dimW].
  rewrite pool_if_stride_shape_Ok by (cbn [dimH dimW]; lia).
  rewrite bind_Ok. cbn [dimN dimC dimH dimW].
  rewrite (ConvBR2d_shape_Ok _ _ _ _ _ _ _ _ _ H3)
    by (cbn [dimN dimC dimH dimW]; rewrite ?window_out_stride_1; (done || lia)).
  rewrite bind_Ok, conv_shape_1x1. cbn [dimN dimC dimH dimW].
  destruct (cse_shape cout reduction (SENextBottleneck.se blk)
              {| dimN := dimN x; dimC := cout;
                 dimH := pooled stride (dimH x);
                 dimW := pooled stride (dimW x) |} Hse) as [Hok _].
  rewrite Hok by (done || lia). done.
Qed.

(** Without a shortcut the block adds its input to the main branch. *)
Lemma no_shortcut_forward (cin cout stride groups reduction : Z)
    (kind : pool_kind) (blk : SENextBottleneck.t) (x : Shape) :
  SENextBottleneck.init cin cout stride groups reduction kind false = Ok blk →
  SENextBottleneck.forward blk x =
    (s ← main_branch
           (ConvBR2d.forward (SENextBottleneck.conv1 blk))
           (ConvBR2d.forward (SENextBottleneck.conv2 blk))
           (pool_if_stride kind stride)
           (ConvBR2d.forward (SENextBottleneck.conv3 blk))
           (CSEModule.forward (SENextBottleneck.se blk)) x;
     broadcast x s).
Proof.
  intros Hinit. rewrite (bottleneck_forward_steps _ _ _ _ _ _ _ _ x Hinit).
  destruct (main_branch _ _ _ _ _ x) as [s|e]; [|reflexivity].
  rewrite !bind_Ok. unfold shortcut_branch, residual_merge.
  rewrite bind_Ok. cbn [tensor_add relu shape_ops].
  by destruct (broadcast x s).
Qed.

Lemma no_shortcut_raises (cin cout stride groups reduction : Z)
    (kind : pool_kind) (blk : SENextBottleneck.t) (x : Shape) :
  SENextBottleneck.init cin cout stride groups reduction kind false = Ok blk →
  clash cin cout ∨
  clash (dimH x) (pooled stride (dimH x)) ∨
  clash (dimW x) (pooled stride (dimW x)) →
  raises (SENextBottleneck.forward blk x).
Proof.
  intros Hinit Hclash. rewrite (no_shortcut_forward _ _ _ _ _ _ _ _ Hinit).
  destruct (main_branch _ _ _ _ _ x) as [s|e] eqn:Hmain;
    [rewrite bind_Ok | by eexists].
  apply (main_branch_shape_inv _ _ _ _ _ _ _ _ _ _ Hinit) in Hmain
    as [HC ->].
  destruct (broadcast_cases x (main_shape cout stride x))
    as [(z & _ & Hno)|[-> _]]; [|by eexists].
  exfalso. apply Hno. cbn [main_shape dimN dimC dimH dimW]. rewrite HC. tauto.
Qed.

Lemma no_shortcut_same_shape (c stride groups reduction : Z)
    (kind : pool_kind) (blk : SENextBottleneck.t) (x : Shape) :
  SENextBottleneck.init c c stride groups reduction kind false = Ok blk →
  0 < groups ≤ c / 2 → 0 < reduction ≤ c →
  stride ≤ 1 →
  dimC x = c → 0 < dimH x → 0 < dimW x → 1 < dimN x * dimH x * dimW x →
  SENextBottleneck.forward blk x = Ok x.
Proof.
  intros Hblk Hg Hr Hs HC Hh Hw Hn.
  assert (Hp : ∀ h, pooled stride h = h).
  { intros h. unfold pooled. by destruct (Z.ltb_spec 1 stride); [lia|]. }
  rewrite (no_shortcut_forward _ _ _ _ _ _ _ _ Hblk).
  rewrite (main_branch_shape_Ok _ _ _ _ _ _ _ _ x Hblk)
    by (rewrite ?Hp; (done || lia)).
  rewrite bind_Ok. unfold main_shape. rewrite !Hp, <- HC.
  replace {| dimN := dimN x; dimC := dimC x; dimH := dimH x; dimW := dimW x |}
    with x by (by destruct x).
  apply broadcast_refl.
Qed.

(** X5.  A block without shortcut, with stride 1 and as many output as
    input channels ([0 < groups <= c // 2], [0 < reduction <= c]) is
    built, and returns a tensor of the shape of its input for every input
    with [c] channels, a non-empty spatial extent and more than one value
    per channel. *)
Theorem bottleneck_keeps_shape (c stride groups reduction : Z)
    (kind : pool_kind) :
  stride ≤ 1 → 0 < groups ≤ c / 2 → 0 < reduction ≤ c →
  ∃ blk, SENextBottleneck.init c c stride groups reduction kind false = Ok blk ∧
    ∀ x : Shape,
      dimC x = c → 0 < dimH x → 0 < dimW x →
      1 < dimN x * dimH x * dimW x →
      SENextBottleneck.forward blk x = Ok x.
Proof.
  intros Hs Hg Hr.
  destruct (bottleneck_init_Ok c c stride groups reduction kind false)
    as [blk Hblk]; [lia..|].
  exists blk. split; [done|]. intros x HC Hh Hw Hn.
  by eapply no_shortcut_same_shape.
Qed.

Lemma bottleneck_keeps_shape_witness :
  1 ≤ 1 ∧ 0 < 32 ≤ 64 / 2 ∧ 0 < 16 ≤ 64 ∧
  ∃ blk, SENextBottleneck.init 64 64 1 32 16 PoolMax false = Ok blk ∧
    ∀ x : Shape,
      dimC x = 64 → 0 < dimH x → 0 < dimW x →
      1 < dimN x * dimH x * dimW x →
      SENextBottleneck.forward blk x = Ok x.
Proof.
  assert (64 / 2 = 32) as H by reflexivity.
  split_and!; [lia..|].
  apply (bottleneck_keeps_shape 64 1 32 16 PoolMax); lia.
Defined.

(** X6.  A block with shortcut ([cin >= 1], [0 < groups <= cout // 2],
    [0 < reduction <= cout]) is built.  Write [H'] and [W'] for the
    extent after pooling: [H, W] when [stride <= 1], and
    [H // stride, W // stride] when [1 < stride].  For every input of
    shape [(N, cin, H, W)] with [H, W >= 1], with [stride <= 1] or
    [stride <= H, W], and with more than one value per channel left
    after pooling ([N * H' * W' > 1], which batch normalisation in
    training mode asks for), the block returns the shape
    [(N, cout, H', W')]: both branches pool alike, so their shapes
    agree. *)
Theorem bottleneck_with_shortcut_shape (cin cout stride groups reduction : Z)
    (kind : pool_kind) :
  1 ≤ cin → 0 < groups ≤ cout / 2 → 0 < reduction ≤ cout →
  ∃ blk, SENextBottleneck.init cin cout stride groups reduction kind true
           = Ok blk ∧
    ∀ x : Shape,
      dimC x = cin → 0 < dimH x → 0 < dimW x →
      stride ≤ 1 ∨ (stride ≤ dimH x ∧ stride ≤ dimW x) →
      1 < dimN x * pooled stride (dimH x) * pooled stride (dimW x) →
      SENextBottleneck.forward blk x =
        Ok {| dimN := dimN x; dimC := cout;
              dimH := pooled stride (dimH x);
              dimW := pooled stride (dimW x) |}.
Proof.
  intros Hcin Hg Hr.
  destruct (bottleneck_init_Ok cin cout stride groups reduction kind true)
    as [blk Hblk]; [lia..|].
  exists blk. split; [done|]. intros x HC Hh Hw Hs Hn.
  rewrite (bottleneck_forward_steps _ _ _ _ _ _ _ _ x Hblk).
  rewrite (main_branch_shape_Ok _ _ _ _ _ _ _ _ x Hblk) by done.
  rewrite bind_Ok.
  destruct (bottleneck_init_inv _ _ _ _ _ _ _ _ Hblk)
    as (_ & _ & _ & (c & Hc & Hsome) & _).
  unfold shortcut_branch, SENextBottleneck.call_shortcut. rewrite Hsome.
  assert (Hpool :
    (if 1 <? stride then avg_pool2d stride stride x else Ok x) =
    Ok {| dimN := dimN x; dimC := dimC x;
          dimH := pooled stride (dimH x); dimW := pooled stride (dimW x) |}).
  { unfold pooled. destruct (Z.ltb_spec 1 stride).
    - cbn [avg_pool2d shape_ops]. apply shape_pool2d_Ok; lia.
    - by destruct x. }
  rewrite Hpool, bind_Ok.
  assert (Hph : 0 < pooled stride (dimH x)).
  { unfold pooled. destruct (Z.ltb_spec 1 stride); [|lia].
    apply Z.div_str_pos; lia. }
  assert (Hpw : 0 < pooled stride (dimW x)).
  { unfold pooled. destruct (Z.ltb_spec 1 stride); [|lia].
    apply Z.div_str_pos; lia. }
  rewrite (ConvBR2d_shape_Ok _ _ _ _ _ _ _ _ _ Hc)
    by (cbn [dimN dimC dimH dimW]; rewrite ?window_out_stride_1; (done || lia)).
  rewrite bind_Ok, conv_shape_1x1. cbn [dimN dimC dimH dimW].
  unfold residual_merge, main_shape. cbn [tensor_add relu shape_ops].
  by rewrite broadcast_refl.
Qed.

Lemma bottleneck_with_shortcut_shape_witness :
  1 ≤ 3 ∧ 0 < 32 ≤ 64 / 2 ∧ 0 < 16 ≤ 64 ∧
  ∃ blk, SENextBottleneck.init 3 64 2 32 16 PoolAvg true = Ok blk ∧
    ∀ x : Shape,
      dimC x = 3 → 0 < dimH x → 0 < dimW x →
      2 ≤ 1 ∨ (2 ≤ dimH x ∧ 2 ≤ dimW x) →
      1 < dimN x * pooled 2 (dimH x) * pooled 2 (dimW x) →
      SENextBottleneck.forward blk x =
        Ok {| dimN := dimN x; dimC := 64;
              dimH := pooled 2 (dimH x); dimW := pooled 2 (dimW x) |}.
Proof.
  assert (64 / 2 = 32) as H by reflexivity.
  split_and!; [lia..|].
  apply (bottleneck_with_shortcut_shape 3 64 2 32 16 PoolAvg); lia.
Defined.

(** X7.  A block without shortcut whose output width differs from its
    input width, neither being 1, fails on every input: the input either
    does not fit the first convolution or cannot be added to the main
    branch. *)
Theorem bottleneck_without_shortcut_cannot_widen
    (cin cout stride groups reduction : Z) (kind : pool_kind)
    (blk : SENextBottleneck.t) :
  SENextBottleneck.init cin cout stride groups reduction kind false = Ok blk →
  cin ≠ cout → cin ≠ 1 → cout ≠ 1 →
  ∀ x : Shape, raises (SENextBottleneck.forward blk x).
Proof.
  intros Hinit H1 H2 H3 x. eapply no_shortcut_raises; [exact Hinit|].
  left. done.
Qed.

Lemma bottleneck_without_shortcut_cannot_widen_witness :
  ∃ blk, SENextBottleneck.init 1024 1840 1 341 16 PoolMax false = Ok blk ∧
    1024 ≠ 1840 ∧ 1024 ≠ 1 ∧ 1840 ≠ 1 ∧
    ∀ x : Shape, raises (SENextBottleneck.forward blk x).
Proof.
  eexists. split; [vm_compute; reflexivity|].
  split_and!; [lia..|].
  apply (bottleneck_without_shortcut_cannot_widen 1024 1840 1 341 16 PoolMax);
    [vm_compute; reflexivity | lia..].
Defined.

(** X8.  A block without shortcut and with [stride > 1] fails on every
    input whose height or width is at least [2 * stride]: the main branch
    is pooled to an extent that is neither the input's nor 1. *)
Theorem bottleneck_without_shortcut_cannot_stride
    (cin cout stride groups reduction : Z) (kind : pool_kind)
    (blk : SENextBottleneck.t) (x : Shape) :
  SENextBottleneck.init cin cout stride groups reduction kind false = Ok blk →
  1 < stride → 2 * stride ≤ dimH x ∨ 2 * stride ≤ dimW x →
  raises (SENextBottleneck.forward blk x).
Proof.
  intros Hinit Hs Hx. eapply no_shortcut_raises; [exact Hinit|].
  assert (Hp : ∀ h, 2 * stride ≤ h → clash h (pooled stride h)).
  { intros h Hh. unfold pooled, clash.
    destruct (Z.ltb_spec 1 stride); [|lia].
    assert (2 ≤ h / stride) by (apply Z.div_le_lower_bound; lia).
    assert (h / stride < h) by (apply Z.div_lt; lia). lia. }
  destruct Hx; [right; left | right; right]; by apply Hp.
Qed.

Lemma bottleneck_without_shortcut_cannot_stride_witness :
  ∃ blk, SENextBottleneck.init 64 64 2 32 16 PoolMax false = Ok blk ∧
    1 < 2 ∧ (2 * 2 ≤ 8 ∨ 2 * 2 ≤ 8) ∧
    raises (SENextBottleneck.forward blk
              {| dimN := 4; dimC := 64; dimH := 8; dimW := 8 |}).
Proof.
  eexists. split; [vm_compute; reflexivity|].
  split_and!; [lia | left; lia |].
  apply (bottleneck_without_shortcut_cannot_stride 64 64 2 32 16 PoolMax);
    [vm_compute; reflexivity | lia | left; cbn; lia].
Defined.

(** ** The backbone *)

Lemma backbone_init_inv (in_channels' out_channels' depth width : Z)
    (m : SEResNeXt.t) :
  SEResNeXt.init in_channels' out_channels' depth width = Ok m →
  ConvBR2d.init in_channels' width 1 0 1 1 1 false = Ok (SEResNeXt.in_conv m) ∧
  Forall2 (λ i blk, SEResNeXt.make_block out_channels' depth width i = Ok blk)
          (seqZ 0 depth) (SEResNeXt.layer m).
Proof.
  unfold SEResNeXt.init. intros (c & Hc & H)%bind_Ok_inv.
  apply bind_Ok_inv in H as (layer & Hlayer & [= <-]).
  cbn [SEResNeXt.in_conv SEResNeXt.layer]. split; [done|].
  by apply mapM_Ok_Forall2.
Qed.

Lemma make_block_Ok_inv (out_channels' depth width i : Z)
    (blk : SENextBottleneck.t) :
  depth ≠ 0 →
  SEResNeXt.make_block out_channels' depth width i = Ok blk →
  SENextBottleneck.init
    (width + SEResNeXt.diff out_channels' width * i / depth)
    (width + SEResNeXt.diff out_channels' width * (i + 1) / depth)
    1 (width / depth) 16 PoolMax false = Ok blk.
Proof.
  intros Hd. unfold SEResNeXt.make_block.
  rewrite block_args_Ok by done. unfold schedule_entry.
  by rewrite bind_Ok.
Qed.

(** X9.  A backbone that was built with [width > 1] and
    [0 < depth <= |out_channels - width|] fails on every input: its first
    block widens the tensor without a shortcut, so the residual add has
    [width] channels on one side and more on the other. *)
Theorem backbone_cannot_widen (in_channels' out_channels' depth width : Z)
    (m : SEResNeXt.t) :
  SEResNeXt.init in_channels' out_channels' depth width = Ok m →
  1 < width → 0 < depth ≤ Z.abs (out_channels' - width) →
  ∀ x : Shape, raises (SEResNeXt.forward m x).
Proof.
  intros (_ & Hblocks)%backbone_init_inv Hw Hd x.
  rewrite seqZ_cons in Hblocks by lia.
  inversion Hblocks as [|i blk rest blks Hblk Hrest Heq1 Heq2]; subst.
  apply make_block_Ok_inv in Hblk; [|lia].
  unfold SEResNeXt.forward.
  destruct (ConvBR2d.forward (SEResNeXt.in_conv m) x) as [y|e];
    [rewrite bind_Ok | by eexists].
  rewrite <- Heq2. cbn [SEResNeXt.blocks_forward].
  assert (Hstep : 1 ≤ SEResNeXt.diff out_channels' width * (0 + 1) / depth).
  { unfold SEResNeXt.diff. apply Z.div_le_lower_bound; lia. }
  rewrite Z.mul_0_r, Z.div_0_l, Z.add_0_r in Hblk by lia.
  destruct (no_shortcut_raises _ _ _ _ _ _ _ y Hblk) as [e He].
  { left. unfold clash. lia. }
  rewrite He. by eexists.
Qed.

Lemma backbone_cannot_widen_witness :
  ∃ m, SEResNeXt.init 3 128 2 64 = Ok m ∧
    1 < 64 ∧ 0 < 2 ≤ Z.abs (128 - 64) ∧
    ∀ x : Shape, raises (SEResNeXt.forward m x).
Proof.
  eexists. split; [vm_compute; reflexivity|].
  split_and!; [lia..|].
  apply (backbone_cannot_widen 3 128 2 64);
    [vm_compute; reflexivity | lia..].
Defined.

Lemma schedule_entry_bounds (out_channels' depth width i : Z) :
  0 < depth → 0 ≤ i →
  width ≤ width + SEResNeXt.diff out_channels' width * i / depth.
Proof.
  intros Hd Hi. unfold SEResNeXt.diff.
  assert (0 ≤ Z.abs (out_channels' - width) * i / depth)
    by (apply Z.div_pos; nia).
  lia.
Qed.

Lemma make_block_Ok (out_channels' depth width i : Z) :
  2 ≤ depth ≤ width → 0 ≤ i →
  ∃ blk, SEResNeXt.make_block out_channels' depth width i = Ok blk.
Proof.
  intros Hd Hi. unfold SEResNeXt.make_block.
  rewrite block_args_Ok by lia. unfold schedule_entry. rewrite bind_Ok.
  pose proof (schedule_entry_bounds out_channels' depth width i) as Hin.
  pose proof (schedule_entry_bounds out_channels' depth width (i + 1)) as Hout.
  apply bottleneck_init_Ok; [lia | | | lia].
  - apply Z.div_str_pos. lia.
  - transitivity (width / 2).
    + apply Z.div_le_compat_l; lia.
    + apply Z.div_le_mono; lia.
Qed.

Lemma backbone_init_Ok (in_channels' out_channels' depth width : Z) :
  0 ≤ in_channels' → 2 ≤ depth ≤ width →
  ∃ m, SEResNeXt.init in_channels' out_channels' depth width = Ok m ∧
       length (SEResNeXt.layer m) = Z.to_nat depth.
Proof.
  intros Hin Hd. unfold SEResNeXt.init.
  rewrite (ConvBR2d_init_grouped in_channels' width 1 0 1 1 1), bind_Ok
    by (lia || apply Z.mod_1_r).
  destruct (mapM_total (SEResNeXt.make_block out_channels' depth width)
              (seqZ 0 depth)) as [layer Hlayer].
  { apply Forall_seqZ. intros i Hi. apply make_block_Ok; lia. }
  rewrite Hlayer, bind_Ok. eexists. split; [reflexivity|].
  cbn [SEResNeXt.layer]. apply mapM_Ok_Forall2, Forall2_length in Hlayer.
  by rewrite <- Hlayer, length_seqZ.
Qed.

(** X10.  For [2 <= depth <= width], [16 <= width] and at least one input
    channel the backbone is built, whatever [out_channels], and holds
    exactly [depth] blocks. *)
Theorem backbone_has_depth_blocks (in_channels' out_channels' depth width : Z) :
  1 ≤ in_channels' → 2 ≤ depth ≤ width → 16 ≤ width →
  ∃ m, SEResNeXt.init in_channels' out_channels' depth width = Ok m ∧
       length (SEResNeXt.layer m) = Z.to_nat depth.
Proof. intros Hin Hd _. apply backbone_init_Ok; lia. Qed.

Lemma backbone_has_depth_blocks_witness :
  1 ≤ 3 ∧ 2 ≤ 3 ≤ 1024 ∧ 16 ≤ 1024 ∧
  ∃ m, SEResNeXt.init 3 3474 3 1024 = Ok m ∧
       length (SEResNeXt.layer m) = Z.to_nat 3.
Proof.
  split_and!; [lia..|]. apply (backbone_has_depth_blocks 3 3474 3 1024); lia.
Defined.

Lemma blocks_forward_same_shape (bs : list SENextBottleneck.t) (x : Shape) :
  Forall (λ blk, SENextBottleneck.forward blk x = Ok x) bs →
  SEResNeXt.blocks_forward bs x = Ok x.
Proof.
  induction 1 as [|blk bs Hblk _ IH]; [done|].
  cbn [SEResNeXt.blocks_forward]. by rewrite Hblk, bind_Ok.
Qed.

(** X11.  A backbone whose output width equals its start width
    ([2 <= depth <= width], [16 <= width]) is built, and maps every input
    of shape [(N, in_channels, H, W)] with more than one value per channel
    to the shape [(N, width, H, W)]: no block changes the shape. *)
Theorem backbone_constant_width_shape (in_channels' depth width : Z) :
  1 ≤ in_channels' → 2 ≤ depth ≤ width → 16 ≤ width →
  ∃ m, SEResNeXt.init in_channels' width depth width = Ok m ∧
    ∀ x : Shape,
      dimC x = in_channels' → 0 < dimH x → 0 < dimW x →
      1 < dimN x * dimH x * dimW x →
      SEResNeXt.forward m x =
        Ok {| dimN := dimN x; dimC := width; dimH := dimH x; dimW := dimW x |}.
Proof.
  intros Hin Hd Hw.
  destruct (backbone_init_Ok in_channels' width depth width)
    as (m & Hm & _); [lia..|].
  exists m. split; [done|]. intros x HC Hh Hwd Hn.
  destruct (backbone_init_inv _ _ _ _ _ Hm) as [Hconv Hblocks].
  unfold SEResNeXt.forward.
  rewrite (ConvBR2d_shape_Ok _ _ _ _ _ _ _ _ x Hconv)
    by (rewrite ?window_out_stride_1; (done || lia)).
  rewrite bind_Ok, conv_shape_1x1.
  apply blocks_forward_same_shape.
  apply Forall_forall. intros blk Hblk.
  apply list_elem_of_lookup in Hblk as [n Hn'].
  destruct (Forall2_lookup_r _ _ _ _ _ Hblocks Hn') as (i & Hi & Hmk).
  apply make_block_Ok_inv in Hmk; [|lia].
  unfold SEResNeXt.diff in Hmk.
  rewrite Z.sub_diag in Hmk. cbn [Z.abs] in Hmk.
  rewrite !Z.mul_0_l, !Z.div_0_l, !Z.add_0_r in Hmk by lia.
  assert (Hg : 0 < width / depth ≤ width / 2).
  { split; [apply Z.div_str_pos; lia | apply Z.div_le_compat_l; lia]. }
  eapply no_shortcut_same_shape; [exact Hmk | exact Hg | lia | lia | done..].
Qed.

Lemma backbone_constant_width_shape_witness :
  1 ≤ 3 ∧ 2 ≤ 2 ≤ 64 ∧ 16 ≤ 64 ∧
  ∃ m, SEResNeXt.init 3 64 2 64 = Ok m ∧
    ∀ x : Shape,
      dimC x = 3 → 0 < dimH x → 0 < dimW x →
      1 < dimN x * dimH x * dimW x →
      SEResNeXt.forward m x =
        Ok {| dimN := dimN x; dimC := 64; dimH := dimH x; dimW := dimW x |}.
Proof.
  split_and!; [lia..|]. apply (backbone_constant_width_shape 3 2 64); lia.
Defined.

(** * Further properties of app/preprocess.py *)

(** ** Splitting an attribute name *)

Lemma append_cons (c : Ascii.ascii) (s t : string) :
  String c s +:+ t = String c (s +:+ t).
Proof. reflexivity. Qed.

Lemma append_nil_l (t : string) : "" +:+ t = t.
Proof. reflexivity. Qed.

Lemma append_nil_r (s : string) : s +:+ "" = s.
Proof.
  induction s as [|c s IH]; [done|]. by rewrite append_cons, IH.
Qed.

Lemma append_assoc (a b c : string) : (a +:+ b) +:+ c = a +:+ (b +:+ c).
Proof.
  induction a as [|x a IH]; [done|]. by rewrite !append_cons, IH.
Qed.

Lemma append_snoc (acc : string) (c : Ascii.ascii) (s : string) :
  (acc +:+ String c "") +:+ s = acc +:+ String c s.
Proof. by rewrite append_assoc. Qed.

(** Without an occurrence of the separator there is one piece, the whole
    string. *)
Lemma split_go_no_occurrence (sep : string) (s : string) : ∀ acc,
  occurs sep s = false → Loaders.split_go sep 0 acc s = [acc +:+ s].
Proof.
  induction s as [|c s IH]; intros acc Hocc.
  - cbn. by rewrite append_nil_r.
  - cbn [occurs] in Hocc. apply orb_false_iff in Hocc as [Hpre Hocc].
    cbn [Loaders.split_go]. rewrite Hpre, IH by done.
    by rewrite append_snoc.
Qed.

Lemma split_go_not_nil (sep : string) (s : string) : ∀ skip acc,
  Loaders.split_go sep skip acc s ≠ [].
Proof.
  induction s as [|c s IH]; intros skip acc; cbn [Loaders.split_go]; [done|].
  destruct skip; [|apply IH]. destruct (String.prefix sep (String c s));
    [done | apply IH].
Qed.

(** With an occurrence there are at least two pieces. *)
Lemma split_go_occurrence (a : Ascii.ascii) (sep' : string) (s : string) :
  ∀ acc, occurs (String a sep') s = true →
  ∃ x y rest, Loaders.split_go (String a sep') 0 acc s = x :: y :: rest.
Proof.
  induction s as [|c s IH]; intros acc Hocc; [discriminate|].
  cbn [occurs] in Hocc. cbn [Loaders.split_go].
  destruct (String.prefix (String a sep') (String c s)) eqn:Hpre.
  - destruct (Loaders.split_go (String a sep')
                (String.length (String a sep') - 1) "" s) as [|y rest] eqn:Hgo.
    + by apply split_go_not_nil in Hgo.
    + eauto.
  - apply IH. by rewrite orb_false_l in Hocc.
Qed.

Lemma prefix_nil (s : string) : String.prefix "" s = true.
Proof. by destruct s. Qed.

Lemma prefix_colons (t : string) :
  String.prefix "::" (String ":" (String ":" t)) = true.
Proof.
  cbn [String.prefix]. destruct (Ascii.ascii_dec ":" ":"); [|done].
  by destruct t.
Qed.

(** The first piece ends at the first ["::"]: when ["::"] does not occur
    in [c] followed by a colon, splitting [c::t] gives [c] and then the
    pieces of [t]. *)
Lemma split_go_first_piece (c : string) : ∀ acc t,
  occurs "::" (c +:+ ":") = false →
  Loaders.split_go "::" 0 acc (c +:+ "::" +:+ t) =
    (acc +:+ c) :: Loaders.split_go "::" 0 "" t.
Proof.
  induction c as [|ch c IH]; intros acc t Hocc.
  - rewrite !append_nil_l, append_nil_r. rewrite !append_cons, append_nil_l.
    cbn [Loaders.split_go]. rewrite prefix_colons.
    reflexivity.
  - rewrite append_cons in Hocc. cbn [occurs] in Hocc.
    apply orb_false_iff in Hocc as [Hpre Hocc].
    rewrite append_cons. cbn [Loaders.split_go].
    assert (Hpre' : String.prefix "::" (String ch (c +:+ "::" +:+ t)) = false).
    { revert Hpre. cbn [String.prefix].
      destruct (Ascii.ascii_dec ":" ch); [|done].
      destruct c as [|ch' c].
      - rewrite !append_nil_l, !append_cons. cbn [String.prefix].
        destruct (Ascii.ascii_dec ":" ":"); done.
      - rewrite !append_cons. cbn [String.prefix].
        destruct (Ascii.ascii_dec ":" ch'); [|done].
        by rewrite !prefix_nil. }
    rewrite Hpre', IH by done. by rewrite append_snoc.
Qed.

Lemma getitem_0 {A} (x : A) (l : list A) : getitem (x :: l) 0 = Ok x.
Proof.
  unfold getitem. cbn [Z.ltb Z.compare].
  destruct (Z.ltb_spec 0 (Z.of_nat (length (x :: l)))); [done|].
  cbn [length] in *. lia.
Qed.

Lemma getitem_1 {A} (x y : A) (l : list A) : getitem (x :: y :: l) 1 = Ok y.
Proof.
  unfold getitem. cbn [Z.ltb Z.compare Z.leb].
  destruct (Z.ltb_spec 1 (Z.of_nat (length (x :: y :: l)))); [done|].
  cbn [length] in *. lia.
Qed.

Lemma encode_attribute_pieces (name x y : string) (rest : list string) :
  Loaders.split_go "::" 0 "" name = x :: y :: rest →
  Loaders.encode_attribute name = Ok (x, y).
Proof.
  intros H. unfold Loaders.encode_attribute, Loaders.split.
  rewrite bind_Ok, H. by rewrite getitem_0, bind_Ok, getitem_1, bind_Ok.
Qed.

(** X13.  [encode_attribute] fails with [IndexError] exactly on the names
    that hold no ["::"]; on every other name it returns a pair. *)
Theorem encode_attribute_needs_separator (name : string) :
  (occurs "::" name = false →
     Loaders.encode_attribute name = Raise IndexError) ∧
  (occurs "::" name = true →
     ∃ c d, Loaders.encode_attribute name = Ok (c, d)).
Proof.
  split.
  - intros Hocc. unfold Loaders.encode_attribute, Loaders.split.
    rewrite bind_Ok, split_go_no_occurrence by done. reflexivity.
  - intros Hocc.
    destruct (split_go_occurrence ":" ":" name "" Hocc) as (x & y & rest & H).
    exists x, y. by eapply encode_attribute_pieces.
Qed.

Lemma encode_attribute_needs_separator_witness :
  (occurs "::" "culture" = false →
     Loaders.encode_attribute "culture" = Raise IndexError) ∧
  (occurs "::" "culture::french" = true →
     ∃ c d, Loaders.encode_attribute "culture::french" = Ok (c, d)) ∧
  Loaders.encode_attribute "culture" = Raise IndexError ∧
  ∃ c d, Loaders.encode_attribute "culture::french" = Ok (c, d).
Proof.
  split_and!.
  - apply (encode_attribute_needs_separator "culture").
  - apply (encode_attribute_needs_separator "culture::french").
  - by apply (encode_attribute_needs_separator "culture").
  - by apply (encode_attribute_needs_separator "culture::french").
Defined.

(** X14.  [encode_attribute] inverts the format ["category::detail"]:
    when ["::"] occurs neither in [d] nor in [c] followed by a colon, the
    name [c::d] is split back into [(c, d)]. *)
Theorem encode_attribute_inverts_format (c d : string) :
  occurs "::" (c +:+ ":") = false → occurs "::" d = false →
  Loaders.encode_attribute (c +:+ "::" +:+ d) = Ok (c, d).
Proof.
  intros Hc Hd. apply (encode_attribute_pieces _ _ _ []).
  rewrite (split_go_first_piece c "" d Hc).
  by rewrite split_go_no_occurrence, !append_nil_l.
Qed.

Lemma encode_attribute_inverts_format_witness :
  occurs "::" ("culture" +:+ ":") = false ∧ occurs "::" "french" = false ∧
  Loaders.encode_attribute ("culture" +:+ "::" +:+ "french")
    = Ok ("culture", "french")%string.
Proof.
  split_and!; [reflexivity..|].
  by apply (encode_attribute_inverts_format "culture" "french").
Defined.

(** X15.  Only the first two components of a name count: whatever follows
    a second ["::"] is dropped. *)
Theorem encode_attribute_drops_rest (c d e : string) :
  occurs "::" (c +:+ ":") = false → occurs "::" (d +:+ ":") = false →
  Loaders.encode_attribute (c +:+ "::" +:+ d +:+ "::" +:+ e) = Ok (c, d).
Proof.
  intros Hc Hd.
  destruct (Loaders.split_go "::" 0 "" e) as [|z rest] eqn:He;
    [by apply split_go_not_nil in He|].
  apply (encode_attribute_pieces _ _ _ (z :: rest)).
  rewrite (split_go_first_piece c "" _ Hc).
  rewrite (split_go_first_piece d "" e Hd).
  by rewrite He, !append_nil_l.
Qed.

Lemma encode_attribute_drops_rest_witness :
  occurs "::" ("a" +:+ ":") = false ∧ occurs "::" ("b" +:+ ":") = false ∧
  Loaders.encode_attribute ("a" +:+ "::" +:+ "b" +:+ "::" +:+ "c")
    = Ok ("a", "b")%string.
Proof.
  split_and!; [reflexivity..|].
  by apply (encode_attribute_drops_rest "a" "b" "c").
Defined.

(** ** Loading the labels *)

Lemma load_rows_cons_inv (rows m : Loaders.Labels) (value : Loaders.LabelRow)
    (rest : list Loaders.LabelRow) :
  Loaders.load_rows rows (value :: rest) = Ok m →
  ∃ name c d, Loaders.attribute_name value = Loaders.Str name ∧
    Loaders.encode_attribute name = Ok (c, d) ∧
    Loaders.load_rows (<[Loaders.row_index value := label_of value c d]> rows)
      rest = Ok m.
Proof.
  cbn [Loaders.load_rows]. intros ([c d] & Henc & H)%bind_Ok_inv.
  unfold Loaders.encode_cell in Henc.
  destruct (Loaders.attribute_name value) as [name|]; [eauto 6 | done].
Qed.

(** Every entry of the result is an entry of the initial dict or comes
    from a row, and is stored under its own id. *)
Lemma load_rows_entries (df : list Loaders.LabelRow) :
  ∀ (rows m : Loaders.Labels) (k : Z) (l : Loaders.Label),
  Loaders.load_rows rows df = Ok m → m !! k = Some l →
  rows !! k = Some l ∨
  ∃ value name, value ∈ df ∧ Loaders.row_index value = k ∧
    Loaders.label_id l = k ∧
    Loaders.attribute_name value = Loaders.Str name ∧
    Loaders.encode_attribute name
      = Ok (Loaders.category l, Loaders.detail l).
Proof.
  unfold Loaders.Labels.
  induction df as [|value rest IH]; intros rows m k l Hload Hk.
  - injection Hload as <-. by left.
  - apply load_rows_cons_inv in Hload as (name & c & d & Hcell & Henc & Hload).
    destruct (IH _ _ _ _ Hload Hk)
      as [Hrows|(v & n & Hv & Hidx & Hid & Hn & Hv')].
    + destruct (decide (Loaders.row_index value = k)) as [Heq|Hne].
      * subst k. rewrite (lookup_insert_eq rows) in Hrows.
        injection Hrows as <-.
        right. exists value, name. split_and!; [by left | done..].
      * rewrite (lookup_insert_ne rows) in Hrows by done. by left.
    + right. exists v, n. split_and!; [by right | done..].
Qed.

(** With pairwise different row indices every row is in the result. *)
Lemma load_rows_complete (df : list Loaders.LabelRow) :
  ∀ (rows m : Loaders.Labels),
  Loaders.load_rows rows df = Ok m → NoDup (Loaders.row_index <$> df) →
  (∀ value, value ∈ df →
     ∃ name c d, Loaders.attribute_name value = Loaders.Str name ∧
       Loaders.encode_attribute name = Ok (c, d) ∧
       m !! Loaders.row_index value = Some (label_of value c d)) ∧
  (∀ k, k ∉ Loaders.row_index <$> df → m !! k = rows !! k).
Proof.
  unfold Loaders.Labels.
  induction df as [|value rest IH]; intros rows m Hload Hnd.
  - injection Hload as <-. split; [by intros ? ?%elem_of_nil | done].
  - apply load_rows_cons_inv in Hload as (name & c & d & Hcell & Henc & Hload).
    rewrite fmap_cons in Hnd. apply NoDup_cons in Hnd as [Hfresh Hnd].
    destruct (IH _ _ Hload Hnd) as [Hrows Hother]. split.
    + intros v [->|Hv]%elem_of_cons; [|by apply Hrows].
      exists name, c, d. split_and!; [done..|].
      by rewrite (Hother _ Hfresh), (lookup_insert_eq rows).
    + intros k Hk. rewrite fmap_cons in Hk.
      apply not_elem_of_cons in Hk as [Hne Hk].
      by rewrite (Hother _ Hk), (lookup_insert_ne rows).
Qed.

(** What the call made for one row gives, by the kind of its cell. *)
Lemma encode_cell_separated (value : Loaders.LabelRow) :
  separated value = true →
  ∃ c d, Loaders.encode_cell (Loaders.attribute_name value) = Ok (c, d).
Proof.
  unfold separated, Loaders.encode_cell.
  destruct (Loaders.attribute_name value) as [name|]; [|done]. intros Hv.
  destruct (split_go_occurrence ":" ":" _ "" Hv) as (x & y & tl & H).
  rewrite (encode_attribute_pieces _ _ _ _ H). eauto.
Qed.

Lemma encode_cell_plain (value : Loaders.LabelRow) (name : string) :
  Loaders.attribute_name value = Loaders.Str name → occurs "::" name = false →
  Loaders.encode_cell (Loaders.attribute_name value) = Raise IndexError.
Proof.
  intros -> Hv. unfold Loaders.encode_cell, Loaders.encode_attribute,
    Loaders.split.
  rewrite bind_Ok, split_go_no_occurrence by done. reflexivity.
Qed.

Lemma encode_cell_not_separated (value : Loaders.LabelRow) :
  separated value = false →
  raises (Loaders.encode_cell (Loaders.attribute_name value)).
Proof.
  unfold separated. destruct (Loaders.attribute_name value) as [name|] eqn:Hc.
  - intros Hv. exists IndexError. rewrite <- Hc.
    by apply (encode_cell_plain value name).
  - intros _. by exists AttributeError.
Qed.

Lemma load_rows_Ok (df : list Loaders.LabelRow) : ∀ rows,
  Forall (λ value, separated value = true) df →
  ∃ m, Loaders.load_rows rows df = Ok m.
Proof.
  induction df as [|value rest IH]; intros rows Hall; [by eexists|].
  apply Forall_cons in Hall as [Hv Hall]. cbn [Loaders.load_rows].
  destruct (encode_cell_separated value Hv) as (c & d & ->).
  rewrite bind_Ok. apply IH, Hall.
Qed.

Lemma load_rows_Ok_inv (df : list Loaders.LabelRow) : ∀ rows m,
  Loaders.load_rows rows df = Ok m →
  Forall (λ value, separated value = true) df.
Proof.
  induction df as [|value rest IH]; intros rows m Hload; [constructor|].
  cbn [Loaders.load_rows] in Hload.
  apply bind_Ok_inv in Hload as ([c d] & Henc & Hload).
  constructor; [|by eapply IH].
  destruct (separated value) eqn:Hv; [done|].
  destruct (encode_cell_not_separated value Hv) as [e He]. congruence.
Qed.

(** The first row that does not get through decides the failure. *)
Lemma load_rows_first_bad (good rest : list Loaders.LabelRow)
    (value : Loaders.LabelRow) (e : exn) : ∀ rows,
  Forall (λ value, separated value = true) good →
  Loaders.encode_cell (Loaders.attribute_name value) = Raise e →
  Loaders.load_rows rows (good ++ value :: rest) = Raise e.
Proof.
  induction good as [|v good IH]; intros rows Hgood He;
    cbn [app Loaders.load_rows].
  - by rewrite He.
  - apply Forall_cons in Hgood as [Hv Hgood].
    destruct (encode_cell_separated v Hv) as (c & d & ->).
    rewrite bind_Ok. by apply IH.
Qed.

(** X16.  When the row indices of the file are pairwise different (as
    those of a freshly read frame are) and [load_labels] returns, its
    result holds every row under the row's index, with the two components
    of the row's attribute name, and nothing else: every entry is stored
    under its own [id] and comes from a row. *)
Theorem load_labels_entries
    (read_labels_csv : string → result (list Loaders.LabelRow))
    (path : string) (df : list Loaders.LabelRow) (m : Loaders.Labels) :
  read_labels_csv path = Ok df →
  NoDup (Loaders.row_index <$> df) →
  Loaders.load_labels read_labels_csv path = Ok m →
  (∀ value, value ∈ df →
     ∃ name c d, Loaders.attribute_name value = Loaders.Str name ∧
       Loaders.encode_attribute name = Ok (c, d) ∧
       m !! Loaders.row_index value =
         Some {| Loaders.label_id := Loaders.row_index value;
                 Loaders.category := c; Loaders.detail := d |}) ∧
  (∀ k l, m !! k = Some l →
     Loaders.label_id l = k ∧
     ∃ value name, value ∈ df ∧ Loaders.row_index value = k ∧
       Loaders.attribute_name value = Loaders.Str name ∧
       Loaders.encode_attribute name
         = Ok (Loaders.category l, Loaders.detail l)).
Proof.
  intros Hread Hnd. unfold Loaders.load_labels. rewrite Hread, bind_Ok.
  intros Hload. split.
  - intros value Hv.
    destruct (load_rows_complete _ _ _ Hload Hnd) as [Hrows _].
    by apply Hrows.
  - intros k l Hk.
    destruct (load_rows_entries _ _ _ _ _ Hload Hk)
      as [Hempty|(v & n & Hv & Hidx & Hid & Hn & Henc)].
    + by apply lookup_empty_Some in Hempty.
    + split; [done|]. by exists v, n.
Qed.

Lemma load_labels_entries_witness :
  ∃ df m,
  sample_labels_csv "labels.csv" = Ok df ∧
  NoDup (Loaders.row_index <$> df) ∧
  Loaders.load_labels sample_labels_csv "labels.csv" = Ok m ∧
  (∀ value, value ∈ df →
     ∃ name c d, Loaders.attribute_name value = Loaders.Str name ∧
       Loaders.encode_attribute name = Ok (c, d) ∧
       m !! Loaders.row_index value =
         Some {| Loaders.label_id := Loaders.row_index value;
                 Loaders.category := c; Loaders.detail := d |}) ∧
  (∀ k l, m !! k = Some l →
     Loaders.label_id l = k ∧
     ∃ value name, value ∈ df ∧ Loaders.row_index value = k ∧
       Loaders.attribute_name value = Loaders.Str name ∧
       Loaders.encode_attribute name
         = Ok (Loaders.category l, Loaders.detail l)).
Proof.
  eexists _, _.
  assert (Hnd : NoDup [0; 1]).
  { apply NoDup_cons. split; [|apply NoDup_singleton].
    intros ?%list_elem_of_singleton. done. }
  split; [reflexivity|]. split; [exact Hnd|]. split; [reflexivity|].
  apply (load_labels_entries sample_labels_csv "labels.csv");
    [reflexivity | exact Hnd | reflexivity].
Defined.

(** X17.  Given the frame read from the file, [load_labels] returns
    exactly when every cell of the column [attribute_name] is a string
    that holds a ["::"].  Otherwise the first cell that is not decides
    the failure: [IndexError] if it is a string without ["::"],
    [AttributeError] if it is not a string (as the [nan] of an empty
    cell).  [load_images] does exactly what [load_labels] does, whatever
    labels it is given. *)
Theorem load_labels_needs_separators
    (read_labels_csv : string → result (list Loaders.LabelRow))
    (path : string) (df : list Loaders.LabelRow) :
  read_labels_csv path = Ok df →
  ((∃ m, Loaders.load_labels read_labels_csv path = Ok m) ↔
     Forall (λ value, separated value = true) df) ∧
  (∀ good value rest,
     df = good ++ value :: rest →
     Forall (λ value, separated value = true) good →
     (∀ name, Loaders.attribute_name value = Loaders.Str name →
        occurs "::" name = false →
        Loaders.load_labels read_labels_csv path = Raise IndexError) ∧
     (Loaders.attribute_name value = Loaders.NotStr →
        Loaders.load_labels read_labels_csv path = Raise AttributeError)) ∧
  (∀ labels, Loaders.load_images read_labels_csv path labels =
             Loaders.load_labels read_labels_csv path).
Proof.
  intros Hread. unfold Loaders.load_images, Loaders.load_labels.
  rewrite Hread, bind_Ok. split_and!.
  - split; [intros [m Hm]; by eapply load_rows_Ok_inv | apply load_rows_Ok].
  - intros good value rest -> Hgood. split.
    + intros name Hcell Hv. apply load_rows_first_bad; [done|].
      by apply (encode_cell_plain value name).
    + intros Hcell. apply load_rows_first_bad; [done|]. by rewrite Hcell.
  - done.
Qed.

Lemma load_labels_needs_separators_witness :
  (∃ m, Loaders.load_labels sample_labels_csv "labels.csv" = Ok m) ∧
  Loaders.load_labels (λ _, Ok sample_labels_empty_cell) "labels.csv"
    = Raise AttributeError ∧
  Loaders.load_labels (λ _, Ok sample_labels_plain_name) "labels.csv"
    = Raise IndexError ∧
  (∀ labels, Loaders.load_images sample_labels_csv "labels.csv" labels =
             Loaders.load_labels sample_labels_csv "labels.csv").
Proof.
  split_and!.
  - apply (load_labels_needs_separators sample_labels_csv "labels.csv" _
             eq_refl).
    by repeat constructor.
  - destruct (load_labels_needs_separators
                (λ _, Ok sample_labels_empty_cell) "labels.csv" _ eq_refl)
      as (_ & Hbad & _).
    apply (Hbad [_] _ _ eq_refl); [by repeat constructor | reflexivity].
  - destruct (load_labels_needs_separators
                (λ _, Ok sample_labels_plain_name) "labels.csv" _ eq_refl)
      as (_ & Hbad & _).
    destruct (Hbad [_] _ _ eq_refl) as [Hplain _]; [by repeat constructor|].
    exact (Hplain _ eq_refl eq_refl).
  - by apply (load_labels_needs_separators sample_labels_csv "labels.csv" _
                eq_refl).
Defined.

(** ** Loading the annotations *)

Lemma split_go_space_length (s : string) : ∀ acc,
  length (Loaders.split_go " " 0 acc s) = S (count_char " " s).
Proof.
  induction s as [|c s IH]; intros acc; [done|].
  cbn [Loaders.split_go count_char String.prefix].
  destruct (Ascii.ascii_dec " " c) as [<-|Hne].
  - rewrite prefix_nil, Ascii.eqb_refl. cbn [length String.length Nat.sub].
    by rewrite IH.
  - destruct (Ascii.eqb_spec c " ") as [->|_]; [done|]. by rewrite IH.
Qed.

Lemma annotations_loop_app (rows : list (Loaders.AnnotationRow * list Z)) :
  ∀ annotations,
  Loaders.annotations_loop annotations rows =
    annotations ++
    ((λ r, {| Preprocess.id := Loaders.row_id r.1;
              Preprocess.label_ids := r.2 |}) <$> rows).
Proof.
  induction rows as [|[vs ids] rows IH]; intros annotations;
    cbn [Loaders.annotations_loop fmap list_fmap].
  - by rewrite app_nil_r.
  - rewrite IH, <- app_assoc. reflexivity.
Qed.

Lemma parse_ids_length (int : string → result Z) (cell : Loaders.Cell)
    (ids : list Z) :
  Loaders.parse_ids int cell = Ok ids →
  ∃ x, cell = Loaders.Str x ∧ length ids = S (count_char " " x).
Proof.
  unfold Loaders.parse_ids, Loaders.split. destruct cell as [x|]; [|done].
  rewrite bind_Ok. intros H%mapM_Ok_Forall2%Forall2_length.
  exists x. by rewrite <- H, split_go_space_length.
Qed.

(** X18.  When [get_annotations] returns, it returns one record per row
    of the file, in the order of the rows and with the row's id; the
    [attribute_ids] cell of every row is then a string, and the label ids
    of a record are its parsed pieces, one more than the cell holds
    spaces, so no record has an empty list of label ids.  The [labels]
    argument plays no part. *)
Theorem get_annotations_records
    (read_annotations_csv : string → result (list Loaders.AnnotationRow))
    (int : string → result Z) (path : string) (labels : Loaders.Labels)
    (df : list Loaders.AnnotationRow) (annotations : Annotations) :
  read_annotations_csv path = Ok df →
  Loaders.get_annotations read_annotations_csv int path labels
    = Ok annotations →
  Forall2
    (λ vs ano,
       id ano = Loaders.row_id vs ∧
       Loaders.parse_ids int (Loaders.attribute_ids vs) = Ok (label_ids ano) ∧
       (∃ x, Loaders.attribute_ids vs = Loaders.Str x ∧
             length (label_ids ano) = S (count_char " " x)) ∧
       label_ids ano ≠ [])
    df annotations.
Proof.
  intros Hread. unfold Loaders.get_annotations. rewrite Hread, bind_Ok.
  intros (ids & Hids & [= <-])%bind_Ok_inv.
  apply mapM_Ok_Forall2 in Hids.
  rewrite annotations_loop_app, app_nil_l. clear Hread.
  induction Hids as [|vs l df ids Hl _ IH]; [constructor|].
  cbn [zip zip_with fmap list_fmap]. constructor; [|exact IH].
  cbn [id label_ids fst snd].
  destruct (parse_ids_length _ _ _ Hl) as (x & Hx & Hlen).
  split_and!; [done | done | by exists x | by destruct l].
Qed.

Lemma get_annotations_records_witness :
  ∃ df annotations,
  sample_annotations_csv "train.csv" = Ok df ∧
  Loaders.get_annotations sample_annotations_csv sample_int "train.csv" ∅
    = Ok annotations ∧
  Forall2
    (λ vs ano,
       id ano = Loaders.row_id vs ∧
       Loaders.parse_ids sample_int (Loaders.attribute_ids vs)
         = Ok (label_ids ano) ∧
       (∃ x, Loaders.attribute_ids vs = Loaders.Str x ∧
             length (label_ids ano) = S (count_char " " x)) ∧
       label_ids ano ≠ [])
    df annotations.
Proof.
  eexists _, _. split; [reflexivity|]. split; [reflexivity|].
  apply (get_annotations_records sample_annotations_csv sample_int
           "train.csv" ∅); reflexivity.
Defined.

(** ** More on the encoder *)

Lemma multi_hot_row_Ok_inv (ls : list Z) (size : Z) (v : list Z) :
  multi_hot_row ls size = Ok v → 0 ≤ size ∧ Forall (addressable size) ls.
Proof.
  intros Hv. destruct (Z.lt_ge_cases size 0) as [Hs|Hs].
  - unfold multi_hot_row in Hv. by rewrite np_zeros_Raise in Hv.
  - split; [done|]. destruct (decide (Forall (addressable size) ls)); [done|].
    destruct (multi_hot_row_raises ls size) as [e He]; [done..|].
    by rewrite He in Hv.
Qed.

(** X19.  The encoding of a record depends only on the set of its label
    ids: two lists of ids that numpy can address and that have the same
    members, in whatever order and multiplicity, are encoded alike. *)
Theorem multi_hot_row_depends_on_set (ls ls' : list Z) (size : Z) :
  0 ≤ size → Forall (λ l, - size ≤ l < size) ls →
  (∀ l, l ∈ ls ↔ l ∈ ls') →
  multi_hot_row ls size = multi_hot_row ls' size.
Proof.
  intros Hs Hls Hsame.
  assert (Hls' : Forall (addressable size) ls').
  { apply Forall_forall. intros l Hl. apply Hsame in Hl.
    eapply Forall_forall in Hls; eauto. }
  destruct (multi_hot_row_Ok ls size Hs Hls) as (v & -> & Hlen & Hget).
  destruct (multi_hot_row_Ok ls' size Hs Hls') as (v' & -> & Hlen' & Hget').
  f_equal. apply list_eq. intros i.
  destruct (decide (i < Z.to_nat size)%nat) as [Hi|Hi].
  - rewrite Hget, Hget' by done. do 2 f_equal.
    assert (Hiff : Exists (λ l, position size l = i) ls ↔
                   Exists (λ l, position size l = i) ls').
    { rewrite !Exists_exists. split; intros (l & Hl & Hp); exists l;
        (split; [by apply Hsame | done]). }
    repeat case_decide; tauto.
  - rewrite !lookup_ge_None_2 by lia. done.
Qed.

Lemma multi_hot_row_depends_on_set_witness :
  0 ≤ 10 ∧ Forall (λ l, - 10 ≤ l < 10) [2; 5; 2] ∧
  (∀ l, l ∈ [2; 5; 2] ↔ l ∈ [5; 2]) ∧
  multi_hot_row [2; 5; 2] 10 = multi_hot_row [5; 2] 10.
Proof.
  assert (H1 : Forall (λ l, - 10 ≤ l < 10) [2; 5; 2])
    by (repeat constructor; lia).
  assert (H2 : ∀ l, l ∈ [2; 5; 2] ↔ l ∈ [5; 2]).
  { intros l. rewrite !elem_of_cons, !elem_of_nil. tauto. }
  split_and!; [lia | exact H1 | exact H2 |].
  apply (multi_hot_row_depends_on_set [2; 5; 2] [5; 2] 10); [lia | exact H1 | exact H2].
Defined.

(** X20.  When [to_multi_hot] returns, the size is not negative and the
    result has one row per record, each of length [size] with entries 0
    or 1, and no record held an id outside [-size, size). *)
Theorem to_multi_hot_shape (annotations : Annotations) (size : Z)
    (rows : list (list Z)) :
  to_multi_hot annotations size = Ok rows →
  0 ≤ size ∧
  length rows = length annotations ∧
  Forall (λ v, length v = Z.to_nat size ∧ Forall (λ b, b = 0 ∨ b = 1) v) rows ∧
  Forall (λ ano, Forall (λ l, - size ≤ l < size) (label_ids ano)) annotations.
Proof.
  intros Hrows. assert (Hs : 0 ≤ size).
  { destruct (Z.lt_ge_cases size 0) as [Hs|Hs]; [|done].
    unfold to_multi_hot, np_zeros2 in Hrows.
    by rewrite np_zeros_Raise in Hrows. }
  apply to_multi_hot_Ok_inv in Hrows. split_and!; [done| | |].
  - symmetry. by eapply Forall2_length.
  - apply Forall_forall. intros v Hv.
    apply list_elem_of_lookup in Hv as [i Hi].
    destruct (Forall2_lookup_r _ _ _ _ _ Hrows Hi) as (ano & _ & Henc).
    pose proof (multi_hot_row_Ok_inv _ _ _ Henc) as [_ Haddr].
    destruct (multi_hot_row_entries _ _ Hs Haddr) as (v' & Hv' & Hlen & Hbin & _).
    rewrite Henc in Hv'. injection Hv' as <-. done.
  - apply Forall_forall. intros ano Hano.
    apply list_elem_of_lookup in Hano as [i Hi].
    destruct (Forall2_lookup_l _ _ _ _ _ Hrows Hi) as (v & _ & Henc).
    by apply multi_hot_row_Ok_inv in Henc as [_ Haddr].
Qed.

Lemma to_multi_hot_shape_witness :
  to_multi_hot [sample_pred; sample_other] 10
    = Ok [[0; 0; 1; 0; 0; 1; 0; 0; 0; 0]; [0; 0; 0; 0; 0; 0; 0; 1; 0; 0]] ∧
  0 ≤ 10 ∧
  length [[0; 0; 1; 0; 0; 1; 0; 0; 0; 0]; [0; 0; 0; 0; 0; 0; 0; 1; 0; 0]]
    = length [sample_pred; sample_other] ∧
  Forall (λ v, length v = Z.to_nat 10 ∧ Forall (λ b, b = 0 ∨ b = 1) v)
    [[0; 0; 1; 0; 0; 1; 0; 0; 0; 0]; [0; 0; 0; 0; 0; 0; 0; 1; 0; 0]] ∧
  Forall (λ ano, Forall (λ l, - 10 ≤ l < 10) (label_ids ano))
    [sample_pred; sample_other].
Proof.
  assert (H : to_multi_hot [sample_pred; sample_other] 10
    = Ok [[0; 0; 1; 0; 0; 1; 0; 0; 0; 0]; [0; 0; 0; 0; 0; 0; 0; 1; 0; 0]])
    by reflexivity.
  split; [exact H|]. exact (to_multi_hot_shape _ _ _ H).
Defined.

(** ** Disjoint predictions *)

Lemma count_pairs_zero (y_true : list Z) : ∀ y_pred,
  (∀ i : nat, ¬ (y_true !! i = Some 1 ∧ y_pred !! i = Some 1)) →
  count_pairs 1 1 y_true y_pred = 0.
Proof.
  induction y_true as [|t y_true IH]; intros [|p y_pred] Hno; simpl; try done.
  rewrite IH by (intros i; apply (Hno (S i))).
  destruct (Z.eqb_spec t 1) as [->|]; [|done].
  destruct (Z.eqb_spec p 1) as [->|]; [|done].
  exfalso. by apply (Hno 0%nat).
Qed.

Lemma fbeta_score_no_hit (y_true y_pred : list Z) (beta : Z) (q : Q) :
  count_pairs 1 1 y_true y_pred = 0 →
  fbeta_score y_true y_pred beta = Ok q → (q == 0)%Q.
Proof.
  intros Htp. unfold fbeta_score. destruct (negb _); [discriminate|].
  rewrite Htp, Z.mul_0_r.
  destruct (_ =? 0); intros [= <-]; [reflexivity|].
  unfold Qdiv. by rewrite Qmult_0_l.
Qed.

Lemma Qsum_zeros (qs : list Q) :
  Forall (λ q, q == 0)%Q qs → (Qsum qs == 0)%Q.
Proof.
  induction 1 as [|q qs Hq _ IH]; cbn [Qsum foldr]; [reflexivity|].
  fold (Qsum qs). by rewrite Hq, IH.
Qed.

Lemma np_mean_zeros (scores : list Q) :
  Forall (λ q, q == 0)%Q scores → scores ≠ [] →
  ∃ q, np_mean scores = Val q ∧ (q == 0)%Q.
Proof.
  intros Hall Hne. pose proof (Qsum_zeros scores Hall) as Hsum.
  destruct scores as [|s rest]; [done|]. eexists. split; [reflexivity|].
  rewrite Hsum. unfold Qdiv. by rewrite Qmult_0_l.
Qed.

(** X21.  When every predicted record shares no label id with the ground
    truth record it is paired with (all ids valid, both sequences
    non-empty), [evaluate] returns 0. *)
Theorem evaluate_disjoint (pred gt : Annotations) :
  pred ≠ [] → gt ≠ [] →
  Forall (valid_record default_size) pred →
  Forall (valid_record default_size) gt →
  (∀ (i : nat) p g, pred !! i = Some p → gt !! i = Some g →
     ∀ l, l ∈ label_ids p → l ∉ label_ids g) →
  ∃ q, evaluate pred gt = Ok (Val q) ∧ (q == 0)%Q.
Proof.
  intros Hp Hg Hvp Hvg Hdis.
  assert (Henc : ∀ l, Forall (valid_record default_size) l →
                      Forall (encodable default_size) l).
  { intros l Hl. eapply Forall_impl; [exact Hl|]. intros ano Hano.
    unfold encodable, addressable. eapply Forall_impl; [exact Hano|].
    simpl. lia. }
  destruct (evaluate_Ok pred gt (Henc _ Hvp) (Henc _ Hvg)) as [r Hr].
  destruct (evaluate_Ok_inv _ _ _ Hr)
    as (rows_p & rows_g & scores & Hrp & Hrg & Hs & ->).
  destruct (np_mean_zeros scores) as (q & Hq & Hq0).
  - apply Forall_forall. intros s Hin.
    apply list_elem_of_lookup in Hin as [i Hi].
    destruct (Forall2_lookup_r _ _ _ _ _ Hs Hi) as ([p g] & Hpg & Hscore).
    apply lookup_zip_Some in Hpg as [Hpi Hgi].
    destruct (Forall2_lookup_r _ _ _ _ _ Hrp Hpi) as (ap & Hap & Hencp).
    destruct (Forall2_lookup_r _ _ _ _ _ Hrg Hgi) as (ag & Hag & Hencg).
    assert (Hvap : valid_record default_size ap).
    { eapply Forall_forall in Hvp; [exact Hvp|].
      apply list_elem_of_lookup; eauto. }
    assert (Hvag : valid_record default_size ag).
    { eapply Forall_forall in Hvg; [exact Hvg|].
      apply list_elem_of_lookup; eauto. }
    destruct (multi_hot_row_valid _ _ default_size_nonneg Hvap)
      as (p' & Hp' & Hlenp & Hgetp).
    destruct (multi_hot_row_valid _ _ default_size_nonneg Hvag)
      as (g' & Hg' & Hleng & Hgetg).
    rewrite Hencp in Hp'. injection Hp' as <-.
    rewrite Hencg in Hg'. injection Hg' as <-.
    eapply fbeta_score_no_hit; [|exact Hscore].
    apply count_pairs_zero. intros j [Hgj Hpj].
    assert (Hj : 0 ≤ Z.of_nat j < default_size).
    { apply lookup_lt_Some in Hgj. lia. }
    specialize (Hgetp _ Hj). specialize (Hgetg _ Hj).
    rewrite Nat2Z.id in Hgetp, Hgetg.
    apply Hgetp in Hpj. apply Hgetg in Hgj.
    by eapply Hdis.
  - apply Forall2_length in Hs. rewrite length_zip in Hs.
    apply Forall2_length in Hrp, Hrg.
    destruct scores, pred, gt; simpl in *; (done || lia).
  - exists q. by rewrite Hr, Hq.
Qed.

Lemma evaluate_disjoint_witness :
  [sample_pred] ≠ [] ∧ [sample_other] ≠ [] ∧
  Forall (valid_record default_size) [sample_pred] ∧
  Forall (valid_record default_size) [sample_other] ∧
  (∀ (i : nat) p g, [sample_pred] !! i = Some p → [sample_other] !! i = Some g →
     ∀ l, l ∈ label_ids p → l ∉ label_ids g) ∧
  ∃ q, evaluate [sample_pred] [sample_other] = Ok (Val q) ∧ (q == 0)%Q.
Proof.
  assert (H1 : Forall (valid_record default_size) [sample_pred]).
  { unfold valid_record, default_size. simpl. repeat constructor; lia. }
  assert (H2 : Forall (valid_record default_size) [sample_other]).
  { unfold valid_record, default_size. simpl. repeat constructor; lia. }
  assert (H3 : ∀ (i : nat) p g,
    [sample_pred] !! i = Some p → [sample_other] !! i = Some g →
    ∀ l, l ∈ label_ids p → l ∉ label_ids g).
  { intros [|i] p g; [|done]. intros [= <-] [= <-] l. simpl.
    rewrite !elem_of_cons, !elem_of_nil. lia. }
  split_and!; [done | done | exact H1 | exact H2 | exact H3 |].
  apply (evaluate_disjoint [sample_pred] [sample_other]); done.
Defined.

(** ** What the folds hold *)

Lemma getitem_elem_of {A} (l : list A) (i : Z) (a : A) :
  getitem l i = Ok a → a ∈ l.
Proof.
  unfold getitem. destruct (_ && _); [|discriminate].
  destruct (l !! _) as [b|] eqn:Hb; [|discriminate].
  intros [= <-]. by eapply list_elem_of_lookup_2.
Qed.

Lemma gather_elem_of (annotations : Annotations) (idx : list Z)
    (part : Annotations) :
  gather annotations idx = Ok part →
  length part = length idx ∧ Forall (λ a, a ∈ annotations) part.
Proof.
  unfold gather. intros H%mapM_Ok_Forall2. split.
  - symmetry. by eapply Forall2_length.
  - induction H as [|i a idx part Ha _ IH]; constructor; [|done].
    by eapply getitem_elem_of.
Qed.

(** X22.  Every fold [kfold] returns is drawn from the records it was
    given: each record of a fold is one of [annotations], a fold holds as
    many records as the splitter reported test indices for it, and there
    are as many folds as the splitter reported splits. *)
Theorem kfold_draws_from_annotations
    (split : Z → Z → list Z → list (list Z) → result (list (list Z * list Z)))
    (n_splits : Z) (annotations : Annotations)
    (folds : list (Annotations * Annotations)) :
  kfold split n_splits annotations = Ok folds →
  ∃ multi_hot splits,
    to_multi_hot annotations 3474 = Ok multi_hot ∧
    split n_splits 0 (seqZ 0 (Z.of_nat (length annotations))) multi_hot
      = Ok splits ∧
    Forall2 (λ s fold,
               length fold.2 = length s.2 ∧
               Forall (λ a, a ∈ annotations) fold.1 ∧
               Forall (λ a, a ∈ annotations) fold.2) splits folds.
Proof.
  rewrite kfold_unfold.
  intros (multi_hot & Hmh & H)%bind_Ok_inv.
  apply bind_Ok_inv in H as (splits & Hsplit & Hfolds).
  exists multi_hot, splits. split; [done|].
  pose proof (to_multi_hot_Ok_inv _ _ _ Hmh) as Hlen%Forall2_length.
  rewrite <- Hlen in Hsplit. split; [done|].
  apply mapM_Ok_Forall2 in Hfolds.
  eapply Forall2_impl; [exact Hfolds|].
  intros [train test] parts Hp. apply fold_of_Ok in Hp as [H1 H2].
  apply gather_elem_of in H1 as [_ H1]. apply gather_elem_of in H2 as [H2l H2].
  done.
Qed.

Lemma kfold_draws_from_annotations_witness :
  kfold sample_split 2 [sample_pred; sample_other] =
    Ok [([sample_pred], [sample_pred]); ([sample_other], [sample_other])] ∧
  ∃ multi_hot splits,
    to_multi_hot [sample_pred; sample_other] 3474 = Ok multi_hot ∧
    sample_split 2 0 (seqZ 0 (Z.of_nat (length [sample_pred; sample_other])))
      multi_hot = Ok splits ∧
    Forall2 (λ s fold,
               length fold.2 = length s.2 ∧
               Forall (λ a, a ∈ [sample_pred; sample_other]) fold.1 ∧
               Forall (λ a, a ∈ [sample_pred; sample_other]) fold.2)
      splits
      [([sample_pred], [sample_pred]); ([sample_other], [sample_other])].
Proof.
  assert (H : kfold sample_split 2 [sample_pred; sample_other] =
    Ok [([sample_pred], [sample_pred]); ([sample_other], [sample_other])]).
  { vm_compute. reflexivity. }
  split; [exact H|].
  exact (kfold_draws_from_annotations sample_split 2 _ _ H).
Defined.

(** * Properties of app/train.py *)

Section TrainerFacts.
Context {Device Objective Loader Item World : Type}.
Context (len : Loader → nat).
Context (fetch : Loader → nat → World → World * result (list Item)).
Context (to : Item → Device → World → World * result Item).
Implicit Types self : Trainer.t Device Objective Loader.



End TrainerFacts.



(** * Further properties of construction *)

Lemma Conv2d_init_checks (cin cout k p d s g : Z) (b : bool) (c : Conv2d) :
  Conv2d_init cin cout k p d s g b = Ok c →
  0 < g ∧ cin mod g = 0 ∧ cout mod g = 0 ∧ 0 ≤ cin ∧ 0 ≤ cout.
Proof.
  unfold Conv2d_init.
  destruct (Z.leb_spec g 0); [discriminate|].
  destruct (Z.eqb_spec (cin mod g) 0); [|discriminate].
  destruct (Z.eqb_spec (cout mod g) 0); [|discriminate].
  destruct (Z.ltb_spec cin 0); [discriminate|].
  destruct (Z.ltb_spec cout 0); [discriminate|]. done.
Qed.

Lemma ConvBR2d_init_checks (cin cout k p d s g : Z) (act : bool)
    (c : ConvBR2d.t) :
  ConvBR2d.init cin cout k p d s g act = Ok c →
  0 < g ∧ cin mod g = 0 ∧ cout mod g = 0 ∧ 0 ≤ cin ∧ 0 ≤ cout.
Proof.
  unfold ConvBR2d.init. intros (conv & Hconv & _)%bind_Ok_inv.
  by eapply Conv2d_init_checks.
Qed.

(** X12.  In every block that was built, the three convolutions are
    chained through one compression width: it is the output width of the
    first, both widths of the grouped second and the input width of the
    third; [groups] is positive and divides it, and it is the largest
    such multiple that does not exceed [out_channels // 2]. *)
Theorem bottleneck_mid_channels (cin cout stride groups reduction : Z)
    (kind : pool_kind) (has_shortcut : bool) (blk : SENextBottleneck.t) :
  SENextBottleneck.init cin cout stride groups reduction kind has_shortcut
    = Ok blk →
  ∃ mid,
    out_channels (ConvBR2d.conv (SENextBottleneck.conv1 blk)) = mid ∧
    in_channels (ConvBR2d.conv (SENextBottleneck.conv2 blk)) = mid ∧
    out_channels (ConvBR2d.conv (SENextBottleneck.conv2 blk)) = mid ∧
    conv_groups (ConvBR2d.conv (SENextBottleneck.conv2 blk)) = groups ∧
    in_channels (ConvBR2d.conv (SENextBottleneck.conv3 blk)) = mid ∧
    0 < groups ∧ mid mod groups = 0 ∧
    0 ≤ mid ≤ cout / 2 ∧ cout / 2 < mid + groups.
Proof.
  intros (_ & H1 & H2 & H3 & _)%bottleneck_init_fields.
  exists (mid_channels cout groups).
  pose proof (ConvBR2d_init_checks _ _ _ _ _ _ _ _ _ H2)
    as (Hg & Hmod & _ & Hmid & _).
  apply ConvBR2d_init_fields in H1 as ->.
  apply ConvBR2d_init_fields in H2 as ->.
  apply ConvBR2d_init_fields in H3 as ->.
  cbn [ConvBR2d.conv in_channels out_channels conv_groups].
  split_and!; [done..| |].
  - unfold mid_channels. apply Z.mul_div_le. lia.
  - unfold mid_channels.
    pose proof (Z.mul_succ_div_gt (cout / 2) groups Hg). lia.
Qed.

Lemma bottleneck_mid_channels_witness :
  ∃ blk, SENextBottleneck.init 1024 1840 1 341 16 PoolMax false = Ok blk ∧
  ∃ mid,
    out_channels (ConvBR2d.conv (SENextBottleneck.conv1 blk)) = mid ∧
    in_channels (ConvBR2d.conv (SENextBottleneck.conv2 blk)) = mid ∧
    out_channels (ConvBR2d.conv (SENextBottleneck.conv2 blk)) = mid ∧
    conv_groups (ConvBR2d.conv (SENextBottleneck.conv2 blk)) = 341 ∧
    in_channels (ConvBR2d.conv (SENextBottleneck.conv3 blk)) = mid ∧
    0 < 341 ∧ mid mod 341 = 0 ∧
    0 ≤ mid ≤ 1840 / 2 ∧ 1840 / 2 < mid + 341.
Proof.
  eexists. split; [vm_compute; reflexivity|].
  apply (bottleneck_mid_channels 1024 1840 1 341 16 PoolMax false).
  vm_compute; reflexivity.
Defined.

Lemma schedule_entry_order (out_channels' depth width i : Z) :
  0 < depth → 0 ≤ i < depth →
  let e := schedule_entry out_channels' depth width i in
  width ≤ e.1.1 ∧ e.1.1 ≤ e.1.2 ∧
  e.1.2 ≤ width + Z.abs (out_channels' - width).
Proof.
  intros Hd Hi. unfold schedule_entry, SEResNeXt.diff. cbn [fst snd].
  set (diff := Z.abs (out_channels' - width)).
  assert (0 ≤ diff) by (subst diff; lia).
  assert (0 ≤ diff * i / depth) by (apply Z.div_pos; nia).
  assert (diff * i / depth ≤ diff * (i + 1) / depth)
    by (apply Z.div_le_mono; nia).
  assert (diff * (i + 1) / depth ≤ diff).
  { apply Z.div_le_upper_bound; nia. }
  lia.
Qed.

(** X24.  For every positive depth, and whatever the two widths, the
    channel schedule has [depth] entries, starts at [width], is
    continuous (each block takes what the previous one gives), never
    narrows (every entry has [width <= in <= out]), and ends at
    [width + |out_channels - width|]. *)
Theorem schedule_never_narrows (out_channels' depth width : Z) :
  0 < depth →
  ∃ sched,
    SEResNeXt.channel_schedule out_channels' depth width = Ok sched ∧
    length sched = Z.to_nat depth ∧
    (∃ e, head sched = Some e ∧ e.1.1 = width) ∧
    (∀ (i : nat) a b, sched !! i = Some a → sched !! S i = Some b →
       a.1.2 = b.1.1) ∧
    (∀ e, e ∈ sched → width ≤ e.1.1 ∧ e.1.1 ≤ e.1.2) ∧
    (∃ e, last sched = Some e ∧
          e.1.2 = width + Z.abs (out_channels' - width)).
Proof.
  intros Hd.
  destruct (channel_schedule_chain out_channels' depth width Hd)
    as (sched & Hs & Hlen & Hhead & Hcont & Hlast).
  exists sched. split_and!; [done..| |done].
  intros e He. rewrite channel_schedule_Ok in Hs. injection Hs as <-.
  apply list_elem_of_fmap in He as (i & -> & Hi).
  apply elem_of_seqZ in Hi.
  destruct (schedule_entry_order out_channels' depth width i) as (? & ? & _);
    [lia..|done].
Qed.

Lemma schedule_never_narrows_witness :
  0 < 3 ∧
  ∃ sched,
    SEResNeXt.channel_schedule 1069 3 1024 = Ok sched ∧
    length sched = Z.to_nat 3 ∧
    (∃ e, head sched = Some e ∧ e.1.1 = 1024) ∧
    (∀ (i : nat) a b, sched !! i = Some a → sched !! S i = Some b →
       a.1.2 = b.1.1) ∧
    (∀ e, e ∈ sched → 1024 ≤ e.1.1 ∧ e.1.1 ≤ e.1.2) ∧
    (∃ e, last sched = Some e ∧ e.1.2 = 1024 + Z.abs (1069 - 1024)).
Proof. split; [lia | apply (schedule_never_narrows 1069 3 1024); lia]. Defined.

(** X25.  The blocks of a backbone that was built follow the schedule:
    block [i] has the input width, the output width and the group count
    of entry [i], and there are as many blocks as entries. *)
Theorem backbone_blocks_follow_schedule
    (in_channels' out_channels' depth width : Z) (m : SEResNeXt.t)
    (sched : list (Z * Z * Z)) :
  SEResNeXt.init in_channels' out_channels' depth width = Ok m →
  SEResNeXt.channel_schedule out_channels' depth width = Ok sched →
  Forall2
    (λ entry blk,
       in_channels (ConvBR2d.conv (SENextBottleneck.conv1 blk)) = entry.1.1 ∧
       out_channels (ConvBR2d.conv (SENextBottleneck.conv3 blk)) = entry.1.2 ∧
       conv_groups (ConvBR2d.conv (SENextBottleneck.conv2 blk)) = entry.2)
    sched (SEResNeXt.layer m).
Proof.
  intros Hm Hs. rewrite channel_schedule_Ok in Hs. injection Hs as <-.
  by apply (init_follows_schedule in_channels').
Qed.

Lemma backbone_blocks_follow_schedule_witness :
  ∃ m sched,
  SEResNeXt.init 3 128 2 64 = Ok m ∧
  SEResNeXt.channel_schedule 128 2 64 = Ok sched ∧
  Forall2
    (λ entry blk,
       in_channels (ConvBR2d.conv (SENextBottleneck.conv1 blk)) = entry.1.1 ∧
       out_channels (ConvBR2d.conv (SENextBottleneck.conv3 blk)) = entry.1.2 ∧
       conv_groups (ConvBR2d.conv (SENextBottleneck.conv2 blk)) = entry.2)
    sched (SEResNeXt.layer m).
Proof.
  eexists _, _. split; [vm_compute; reflexivity|].
  split; [vm_compute; reflexivity|].
  apply (backbone_blocks_follow_schedule 3 128 2 64);
    vm_compute; reflexivity.
Defined.
